(** * agentChef: conversation validation, dataset expansion and persistence

    A shallow embedding of
      - [agentChef/conversation_generator.py]
          ([_validate_conversation_format], [chunk_text]) and
      - [augmentationTools/dataset-expander.py]
          ([expand_conversation_dataset], [paraphrase_text],
           [verify_paraphrase], [clean_generated_content], [_is_question],
           [save_conversations_to_jsonl], [load_conversations_from_jsonl],
           [convert_conversations_to_dataframe]),
    together with the properties the specification states about them.

    Conventions.
      - A Python [str] is a list of code points ([pystr]).  Whitespace
        classification follows [str.isspace] on all of Unicode; case mapping
        and case classification ([lower], [upper], [islower],
        [re.IGNORECASE]) are modelled on the ASCII letters, every other code
        point being left unchanged and treated as uncased.
      - A Python [dict] is an insertion-ordered association list ([dict]);
        [d[k]] on a missing key raises [KeyError].
      - Python exceptions are values of [exn]; a function that may raise
        returns [exn + A].
      - The chat backend is a parameter: a state transformer that either
        returns the text of [response['message']['content']] or fails. *)

From Stdlib Require Import String Ascii.
From Stdlib Require Import List ZArith NArith Lia Bool.
Import ListNotations.
Local Open Scope Z_scope.

(* ===================================================================== *)
(** ** Python strings *)
(* ===================================================================== *)

Module PyStr.

Definition pystr := list N.

(** A string literal of the source, as a list of code points. *)
Definition py (s : string) : pystr := map N_of_ascii (list_ascii_of_string s).

Definition ch (a : ascii) : N := N_of_ascii a.

Definition NL : N := 10%N.
Definition CR : N := 13%N.

Fixpoint eqb (a b : pystr) : bool :=
  match a, b with
  | [], [] => true
  | x :: a', y :: b' => N.eqb x y && eqb a' b'
  | _, _ => false
  end.

(** [x in xs] for a list or tuple [xs] of strings. *)
Definition mem (x : pystr) (xs : list pystr) : bool := existsb (eqb x) xs.

(** [len(s)] as a Python int. *)
Definition len (s : pystr) : Z := Z.of_nat (length s).

(** [s.startswith(p)] *)
Fixpoint startswith (s p : pystr) {struct p} : bool :=
  match p, s with
  | [], _ => true
  | x :: p', y :: s' => N.eqb x y && startswith s' p'
  | _ :: _, [] => false
  end.

(** [s.endswith(p)] *)
Definition endswith (s p : pystr) : bool := startswith (rev s) (rev p).

(** [s.startswith((p1, ..., pn))] *)
Definition startswith_any (s : pystr) (ps : list pystr) : bool :=
  existsb (startswith s) ps.

(** [str.isspace] for one code point (CPython's [_PyUnicode_IsWhitespace]). *)
Definition isspace (c : N) : bool :=
  ((9 <=? c) && (c <=? 13) || (28 <=? c) && (c <=? 32) ||
   (c =? 133) || (c =? 160) || (c =? 5760) ||
   (8192 <=? c) && (c <=? 8202) || (c =? 8232) || (c =? 8233) ||
   (c =? 8239) || (c =? 8287) || (c =? 12288))%N.

Fixpoint lstrip_by (p : N -> bool) (s : pystr) : pystr :=
  match s with
  | c :: s' => if p c then lstrip_by p s' else s
  | [] => []
  end.

Definition rstrip_by (p : N -> bool) (s : pystr) : pystr :=
  rev (lstrip_by p (rev s)).

Definition strip_by (p : N -> bool) (s : pystr) : pystr :=
  rstrip_by p (lstrip_by p s).

(** [s.strip()] *)
Definition strip (s : pystr) : pystr := strip_by isspace s.

(** [s.strip(chars)] *)
Definition strip_chars (chars s : pystr) : pystr :=
  strip_by (fun c => existsb (N.eqb c) chars) s.

(** ASCII case mapping. *)
Definition islower_char (c : N) : bool := ((97 <=? c) && (c <=? 122))%N.
Definition isupper_char (c : N) : bool := ((65 <=? c) && (c <=? 90))%N.
Definition lower_char (c : N) : N := if isupper_char c then (c + 32)%N else c.
Definition upper_char (c : N) : N := if islower_char c then (c - 32)%N else c.

(** [s.lower()], on the letters [A] to [Z].  The code only compares a
    lower-cased text with words of ASCII letters: by equality with the role
    words, by [startswith] with the lead words of a question.  Outside
    ASCII, [str.lower] gives an ASCII letter for two characters only:
    U+212A gives [k], and U+0130 gives [i] followed by U+0307.  No word has
    a [k], and no lead word ends in [i], so each word matches the
    lower-cased text exactly when it matches this one. *)
Definition lower (s : pystr) : pystr := map lower_char s.

(** *** The case of one character

    [c.islower()] and [c.upper()] for a string [c] of one character, after
    the Unicode database of CPython 3.11 (Unicode 14.0.0).  A run
    [(first, last, step)] stands for the code points [first],
    [first + step], ..., [last]. *)

(** The code points with the property Lowercase, but for [a] to [z]. *)
Definition lowercase_runs_tail : list (N * N * N) :=
  [
   (170, 170, 1); (181, 181, 1); (186, 186, 1); (223, 246, 1); (248, 255, 1);
   (257, 311, 2); (312, 328, 2); (329, 375, 2); (378, 382, 2); (383, 384, 1);
   (387, 389, 2); (392, 392, 1); (396, 397, 1); (402, 402, 1); (405, 405, 1);
   (409, 411, 1); (414, 414, 1); (417, 421, 2); (424, 426, 2); (427, 429, 2);
   (432, 432, 1); (436, 438, 2); (441, 442, 1); (445, 447, 1); (454, 454, 1);
   (457, 457, 1); (460, 476, 2); (477, 495, 2); (496, 496, 1); (499, 501, 2);
   (505, 563, 2); (564, 569, 1); (572, 572, 1); (575, 576, 1); (578, 578, 1);
   (583, 591, 2); (592, 659, 1); (661, 696, 1); (704, 705, 1); (736, 740, 1);
   (837, 837, 1); (881, 883, 2); (887, 887, 1); (890, 893, 1); (912, 912, 1);
   (940, 974, 1); (976, 977, 1); (981, 983, 1); (985, 1007, 2);
   (1008, 1011, 1); (1013, 1013, 1); (1016, 1016, 1); (1019, 1020, 1);
   (1072, 1119, 1); (1121, 1153, 2); (1163, 1215, 2); (1218, 1230, 2);
   (1231, 1327, 2); (1376, 1416, 1); (4304, 4346, 1); (4349, 4351, 1);
   (5112, 5117, 1); (7296, 7304, 1); (7424, 7615, 1); (7681, 7829, 2);
   (7830, 7837, 1); (7839, 7935, 2); (7936, 7943, 1); (7952, 7957, 1);
   (7968, 7975, 1); (7984, 7991, 1); (8000, 8005, 1); (8016, 8023, 1);
   (8032, 8039, 1); (8048, 8061, 1); (8064, 8071, 1); (8080, 8087, 1);
   (8096, 8103, 1); (8112, 8116, 1); (8118, 8119, 1); (8126, 8126, 1);
   (8130, 8132, 1); (8134, 8135, 1); (8144, 8147, 1); (8150, 8151, 1);
   (8160, 8167, 1); (8178, 8180, 1); (8182, 8183, 1); (8305, 8305, 1);
   (8319, 8319, 1); (8336, 8348, 1); (8458, 8458, 1); (8462, 8463, 1);
   (8467, 8467, 1); (8495, 8495, 1); (8500, 8500, 1); (8505, 8505, 1);
   (8508, 8509, 1); (8518, 8521, 1); (8526, 8526, 1); (8560, 8575, 1);
   (8580, 8580, 1); (9424, 9449, 1); (11312, 11359, 1); (11361, 11361, 1);
   (11365, 11366, 1); (11368, 11372, 2); (11377, 11379, 2); (11380, 11382, 2);
   (11383, 11389, 1); (11393, 11491, 2); (11492, 11492, 1); (11500, 11502, 2);
   (11507, 11507, 1); (11520, 11557, 1); (11559, 11559, 1); (11565, 11565, 1);
   (42561, 42605, 2); (42625, 42651, 2); (42652, 42653, 1); (42787, 42799, 2);
   (42800, 42801, 1); (42803, 42863, 2); (42864, 42872, 1); (42874, 42876, 2);
   (42879, 42887, 2); (42892, 42894, 2); (42897, 42899, 2); (42900, 42901, 1);
   (42903, 42921, 2); (42927, 42927, 1); (42933, 42947, 2); (42952, 42954, 2);
   (42961, 42969, 2); (42998, 43000, 2); (43001, 43002, 1); (43824, 43866, 1);
   (43868, 43880, 1); (43888, 43967, 1); (64256, 64262, 1); (64275, 64279, 1);
   (65345, 65370, 1); (66600, 66639, 1); (66776, 66811, 1); (66967, 66977, 1);
   (66979, 66993, 1); (66995, 67001, 1); (67003, 67004, 1); (67456, 67456, 1);
   (67459, 67461, 1); (67463, 67504, 1); (67506, 67514, 1); (68800, 68850, 1);
   (71872, 71903, 1); (93792, 93823, 1); (119834, 119859, 1);
   (119886, 119892, 1); (119894, 119911, 1); (119938, 119963, 1);
   (119990, 119993, 1); (119995, 119997, 2); (119998, 120003, 1);
   (120005, 120015, 1); (120042, 120067, 1); (120094, 120119, 1);
   (120146, 120171, 1); (120198, 120223, 1); (120250, 120275, 1);
   (120302, 120327, 1); (120354, 120379, 1); (120406, 120431, 1);
   (120458, 120485, 1); (120514, 120538, 1); (120540, 120545, 1);
   (120572, 120596, 1); (120598, 120603, 1); (120630, 120654, 1);
   (120656, 120661, 1); (120688, 120712, 1); (120714, 120719, 1);
   (120746, 120770, 1); (120772, 120777, 1); (120779, 120779, 1);
   (122624, 122633, 1); (122635, 122654, 1); (125218, 125251, 1)
  ]%N.

Definition lowercase_runs : list (N * N * N) := (97, 122, 1)%N :: lowercase_runs_tail.

(** The code points whose upper case is one other character, but for [a]
    to [z]: [(first, last, step, upper)] maps [first + k * step] to
    [upper + k * step]. *)
Definition upper_runs_tail : list (N * N * N * N) :=
  [
   (181, 181, 1, 924); (224, 246, 1, 192); (248, 254, 1, 216);
   (255, 255, 1, 376); (257, 303, 2, 256); (305, 305, 1, 73);
   (307, 311, 2, 306); (314, 328, 2, 313); (331, 375, 2, 330);
   (378, 382, 2, 377); (383, 383, 1, 83); (384, 384, 1, 579);
   (387, 389, 2, 386); (392, 392, 1, 391); (396, 396, 1, 395);
   (402, 402, 1, 401); (405, 405, 1, 502); (409, 409, 1, 408);
   (410, 410, 1, 573); (414, 414, 1, 544); (417, 421, 2, 416);
   (424, 424, 1, 423); (429, 429, 1, 428); (432, 432, 1, 431);
   (436, 438, 2, 435); (441, 441, 1, 440); (445, 445, 1, 444);
   (447, 447, 1, 503); (453, 453, 1, 452); (454, 454, 1, 452);
   (456, 456, 1, 455); (457, 457, 1, 455); (459, 459, 1, 458);
   (460, 460, 1, 458); (462, 476, 2, 461); (477, 477, 1, 398);
   (479, 495, 2, 478); (498, 498, 1, 497); (499, 499, 1, 497);
   (501, 501, 1, 500); (505, 543, 2, 504); (547, 563, 2, 546);
   (572, 572, 1, 571); (575, 576, 1, 11390); (578, 578, 1, 577);
   (583, 591, 2, 582); (592, 592, 1, 11375); (593, 593, 1, 11373);
   (594, 594, 1, 11376); (595, 595, 1, 385); (596, 596, 1, 390);
   (598, 599, 1, 393); (601, 601, 1, 399); (603, 603, 1, 400);
   (604, 604, 1, 42923); (608, 608, 1, 403); (609, 609, 1, 42924);
   (611, 611, 1, 404); (613, 613, 1, 42893); (614, 614, 1, 42922);
   (616, 616, 1, 407); (617, 617, 1, 406); (618, 618, 1, 42926);
   (619, 619, 1, 11362); (620, 620, 1, 42925); (623, 623, 1, 412);
   (625, 625, 1, 11374); (626, 626, 1, 413); (629, 629, 1, 415);
   (637, 637, 1, 11364); (640, 640, 1, 422); (642, 642, 1, 42949);
   (643, 643, 1, 425); (647, 647, 1, 42929); (648, 648, 1, 430);
   (649, 649, 1, 580); (650, 651, 1, 433); (652, 652, 1, 581);
   (658, 658, 1, 439); (669, 669, 1, 42930); (670, 670, 1, 42928);
   (837, 837, 1, 921); (881, 883, 2, 880); (887, 887, 1, 886);
   (891, 893, 1, 1021); (940, 940, 1, 902); (941, 943, 1, 904);
   (945, 961, 1, 913); (962, 962, 1, 931); (963, 971, 1, 931);
   (972, 972, 1, 908); (973, 974, 1, 910); (976, 976, 1, 914);
   (977, 977, 1, 920); (981, 981, 1, 934); (982, 982, 1, 928);
   (983, 983, 1, 975); (985, 1007, 2, 984); (1008, 1008, 1, 922);
   (1009, 1009, 1, 929); (1010, 1010, 1, 1017); (1011, 1011, 1, 895);
   (1013, 1013, 1, 917); (1016, 1016, 1, 1015); (1019, 1019, 1, 1018);
   (1072, 1103, 1, 1040); (1104, 1119, 1, 1024); (1121, 1153, 2, 1120);
   (1163, 1215, 2, 1162); (1218, 1230, 2, 1217); (1231, 1231, 1, 1216);
   (1233, 1327, 2, 1232); (1377, 1414, 1, 1329); (4304, 4346, 1, 7312);
   (4349, 4351, 1, 7357); (5112, 5117, 1, 5104); (7296, 7296, 1, 1042);
   (7297, 7297, 1, 1044); (7298, 7298, 1, 1054); (7299, 7300, 1, 1057);
   (7301, 7301, 1, 1058); (7302, 7302, 1, 1066); (7303, 7303, 1, 1122);
   (7304, 7304, 1, 42570); (7545, 7545, 1, 42877); (7549, 7549, 1, 11363);
   (7566, 7566, 1, 42950); (7681, 7829, 2, 7680); (7835, 7835, 1, 7776);
   (7841, 7935, 2, 7840); (7936, 7943, 1, 7944); (7952, 7957, 1, 7960);
   (7968, 7975, 1, 7976); (7984, 7991, 1, 7992); (8000, 8005, 1, 8008);
   (8017, 8023, 2, 8025); (8032, 8039, 1, 8040); (8048, 8049, 1, 8122);
   (8050, 8053, 1, 8136); (8054, 8055, 1, 8154); (8056, 8057, 1, 8184);
   (8058, 8059, 1, 8170); (8060, 8061, 1, 8186); (8112, 8113, 1, 8120);
   (8126, 8126, 1, 921); (8144, 8145, 1, 8152); (8160, 8161, 1, 8168);
   (8165, 8165, 1, 8172); (8526, 8526, 1, 8498); (8560, 8575, 1, 8544);
   (8580, 8580, 1, 8579); (9424, 9449, 1, 9398); (11312, 11359, 1, 11264);
   (11361, 11361, 1, 11360); (11365, 11365, 1, 570); (11366, 11366, 1, 574);
   (11368, 11372, 2, 11367); (11379, 11379, 1, 11378);
   (11382, 11382, 1, 11381); (11393, 11491, 2, 11392);
   (11500, 11502, 2, 11499); (11507, 11507, 1, 11506); (11520, 11557, 1, 4256);
   (11559, 11559, 1, 4295); (11565, 11565, 1, 4301); (42561, 42605, 2, 42560);
   (42625, 42651, 2, 42624); (42787, 42799, 2, 42786);
   (42803, 42863, 2, 42802); (42874, 42876, 2, 42873);
   (42879, 42887, 2, 42878); (42892, 42892, 1, 42891);
   (42897, 42899, 2, 42896); (42900, 42900, 1, 42948);
   (42903, 42921, 2, 42902); (42933, 42947, 2, 42932);
   (42952, 42954, 2, 42951); (42961, 42961, 1, 42960);
   (42967, 42969, 2, 42966); (42998, 42998, 1, 42997);
   (43859, 43859, 1, 42931); (43888, 43967, 1, 5024); (65345, 65370, 1, 65313);
   (66600, 66639, 1, 66560); (66776, 66811, 1, 66736);
   (66967, 66977, 1, 66928); (66979, 66993, 1, 66940);
   (66995, 67001, 1, 66956); (67003, 67004, 1, 66964);
   (68800, 68850, 1, 68736); (71872, 71903, 1, 71840);
   (93792, 93823, 1, 93760); (125218, 125251, 1, 125184)
  ]%N.

Definition upper_runs : list (N * N * N * N) := (97, 122, 1, 65)%N :: upper_runs_tail.

(** The code points whose upper case is more than one character. *)
Definition upper_special : list (N * pystr) :=
  [
   (223, [83; 83]); (329, [700; 78]); (496, [74; 780]); (912, [921; 776; 769]);
   (944, [933; 776; 769]); (1415, [1333; 1362]); (7830, [72; 817]);
   (7831, [84; 776]); (7832, [87; 778]); (7833, [89; 778]); (7834, [65; 702]);
   (8016, [933; 787]); (8018, [933; 787; 768]); (8020, [933; 787; 769]);
   (8022, [933; 787; 834]); (8064, [7944; 921]); (8065, [7945; 921]);
   (8066, [7946; 921]); (8067, [7947; 921]); (8068, [7948; 921]);
   (8069, [7949; 921]); (8070, [7950; 921]); (8071, [7951; 921]);
   (8072, [7944; 921]); (8073, [7945; 921]); (8074, [7946; 921]);
   (8075, [7947; 921]); (8076, [7948; 921]); (8077, [7949; 921]);
   (8078, [7950; 921]); (8079, [7951; 921]); (8080, [7976; 921]);
   (8081, [7977; 921]); (8082, [7978; 921]); (8083, [7979; 921]);
   (8084, [7980; 921]); (8085, [7981; 921]); (8086, [7982; 921]);
   (8087, [7983; 921]); (8088, [7976; 921]); (8089, [7977; 921]);
   (8090, [7978; 921]); (8091, [7979; 921]); (8092, [7980; 921]);
   (8093, [7981; 921]); (8094, [7982; 921]); (8095, [7983; 921]);
   (8096, [8040; 921]); (8097, [8041; 921]); (8098, [8042; 921]);
   (8099, [8043; 921]); (8100, [8044; 921]); (8101, [8045; 921]);
   (8102, [8046; 921]); (8103, [8047; 921]); (8104, [8040; 921]);
   (8105, [8041; 921]); (8106, [8042; 921]); (8107, [8043; 921]);
   (8108, [8044; 921]); (8109, [8045; 921]); (8110, [8046; 921]);
   (8111, [8047; 921]); (8114, [8122; 921]); (8115, [913; 921]);
   (8116, [902; 921]); (8118, [913; 834]); (8119, [913; 834; 921]);
   (8124, [913; 921]); (8130, [8138; 921]); (8131, [919; 921]);
   (8132, [905; 921]); (8134, [919; 834]); (8135, [919; 834; 921]);
   (8140, [919; 921]); (8146, [921; 776; 768]); (8147, [921; 776; 769]);
   (8150, [921; 834]); (8151, [921; 776; 834]); (8162, [933; 776; 768]);
   (8163, [933; 776; 769]); (8164, [929; 787]); (8166, [933; 834]);
   (8167, [933; 776; 834]); (8178, [8186; 921]); (8179, [937; 921]);
   (8180, [911; 921]); (8182, [937; 834]); (8183, [937; 834; 921]);
   (8188, [937; 921]); (64256, [70; 70]); (64257, [70; 73]); (64258, [70; 76]);
   (64259, [70; 70; 73]); (64260, [70; 70; 76]); (64261, [83; 84]);
   (64262, [83; 84]); (64275, [1348; 1350]); (64276, [1348; 1333]);
   (64277, [1348; 1339]); (64278, [1358; 1350]); (64279, [1348; 1341])
  ]%N.

Definition in_run (c first last step : N) : bool :=
  ((first <=? c) && (c <=? last) && ((c - first) mod step =? 0))%N.

(** [c.islower()] *)
Definition str_islower (c : N) : bool :=
  existsb (fun '(first, last, step) => in_run c first last step) lowercase_runs.

(** [c.upper()] *)
Definition str_upper (c : N) : pystr :=
  match find (fun '(first, last, step, _) => in_run c first last step) upper_runs with
  | Some (first, _, _, upper) => [(upper + (c - first))%N]
  | None =>
      match find (fun e => N.eqb (fst e) c) upper_special with
      | Some (_, u) => u
      | None => [c]
      end
  end.

(** Python index normalisation for slices: a negative index counts from the
    end, and the result is clamped to [0 .. len]. *)
Definition adjust_index (i n : Z) : Z :=
  if i <? 0 then Z.max (i + n) 0 else Z.min i n.

(** [s[start:stop]] *)
Definition slice (s : pystr) (start stop : Z) : pystr :=
  let a := adjust_index start (len s) in
  let b := adjust_index stop (len s) in
  if a <? b then firstn (Z.to_nat (b - a)) (skipn (Z.to_nat a) s) else [].

(** [s[start:]] *)
Definition slice_from (s : pystr) (start : Z) : pystr :=
  skipn (Z.to_nat (adjust_index start (len s))) s.

(** Scan the [k] candidate positions [lo + k - 1], ..., [lo] downwards. *)
Fixpoint rfind_down (s sub : pystr) (lo k : nat) : Z :=
  match k with
  | O => -1
  | S k' =>
      if startswith (skipn (lo + k') s) sub then Z.of_nat (lo + k')
      else rfind_down s sub lo k'
  end.

(** [s.rfind(sub, start, stop)] for a non-empty [sub]: the highest index of
    an occurrence of [sub] lying inside [s[start:stop]], or [-1]. *)
Definition rfind (s sub : pystr) (start stop : Z) : Z :=
  let a := adjust_index start (len s) in
  let b := adjust_index stop (len s) in
  if b - a <? len sub then -1
  else rfind_down s sub (Z.to_nat a) (Z.to_nat (b - a - len sub + 1)).

Lemma eqb_refl (a : pystr) : eqb a a = true.
Proof.
  induction a as [|x a IH]; simpl; [reflexivity|].
  now rewrite N.eqb_refl, IH.
Qed.

Lemma eqb_eq (a b : pystr) : eqb a b = true <-> a = b.
Proof.
  split.
  - revert b; induction a as [|x a IH]; destruct b as [|y b]; simpl;
      try discriminate; [reflexivity|].
    intros H. apply andb_true_iff in H as [Hx Hab].
    apply N.eqb_eq in Hx. subst. f_equal. now apply IH.
  - intros ->. apply eqb_refl.
Qed.

Lemma eqb_neq (a b : pystr) : eqb a b = false <-> a <> b.
Proof.
  split.
  - intros H E. apply eqb_eq in E. congruence.
  - intros H. destruct (eqb a b) eqn:E; [|reflexivity].
    apply eqb_eq in E. contradiction.
Qed.

Lemma eqb_sym (a b : pystr) : eqb a b = eqb b a.
Proof.
  destruct (eqb a b) eqn:E.
  - apply eqb_eq in E. subst. symmetry. apply eqb_refl.
  - symmetry. apply eqb_neq. apply eqb_neq in E. congruence.
Qed.

Lemma startswith_app (p s : pystr) : startswith (p ++ s) p = true.
Proof.
  induction p as [|x p IH]; simpl; [reflexivity|].
  now rewrite N.eqb_refl, IH.
Qed.

Lemma endswith_app (s p : pystr) : endswith (s ++ p) p = true.
Proof. unfold endswith. rewrite rev_app_distr. apply startswith_app. Qed.

End PyStr.
Import PyStr.

(* ===================================================================== *)
(** ** Exceptions *)
(* ===================================================================== *)

Inductive exn : Type :=
| ValueError (msg : string)
| KeyError (key : pystr)
| IndexError
| JSONDecodeError
| FileNotFoundError
| AttributeError.

(* ===================================================================== *)
(** ** [chunk_text] (conversation_generator.py) *)
(* ===================================================================== *)

Module Chunker.

(** The boundaries tried in order: ['\n\n', '\n', '. ', '? ', '! ']. *)
Definition boundaries : list pystr :=
  [ [NL; NL]; [NL]; py ". "; py "? "; py "! " ].

(** The [for boundary in ...] loop: the first boundary found strictly after
    [start] moves [end] just behind it; otherwise [end] is unchanged. *)
Fixpoint boundary_end (content : pystr) (start end_ : Z) (bs : list pystr) : Z :=
  match bs with
  | [] => end_
  | boundary :: bs' =>
      let boundary_pos := rfind content boundary start end_ in
      if boundary_pos >? start then boundary_pos + len boundary
      else boundary_end content start end_ bs'
  end.

(** One pass through the body of the [while] loop. *)
Inductive iteration : Type :=
| Break (chunk : pystr)                 (* append the chunk and leave the loop *)
| Next (chunk : pystr) (start : Z).     (* append the chunk and go on at [start] *)

Definition chunk_iter (content : pystr) (chunk_size overlap start : Z) : iteration :=
  let end_ := start + chunk_size in
  if end_ >=? len content then Break (slice_from content start)
  else
    let end' := boundary_end content start end_ boundaries in
    Next (slice content start end') (end' - overlap).

(** The [while start < len(content)] loop, run for at most [fuel] passes;
    [None] when the loop is still running after [fuel] passes. *)
Fixpoint chunk_loop (fuel : nat) (content : pystr) (chunk_size overlap start : Z)
    (chunks : list pystr) : option (list pystr) :=
  match fuel with
  | O => None
  | S fuel' =>
      if start <? len content then
        match chunk_iter content chunk_size overlap start with
        | Break c => Some (chunks ++ [c])
        | Next c start' =>
            chunk_loop fuel' content chunk_size overlap start' (chunks ++ [c])
        end
      else Some chunks
  end.

Definition chunk_text (fuel : nat) (content : pystr) (chunk_size overlap : Z)
    : option (list pystr) :=
  if len content <=? chunk_size then Some [content]
  else chunk_loop fuel content chunk_size overlap 0 [].

(** ["x" * 199 + "\n" + "x" * 3000] *)
Definition stuck_content : pystr :=
  repeat (ch "x") 199 ++ [NL] ++ repeat (ch "x") 3000.

(** ["a\nbcd"] *)
Definition stuck_small : pystr := py "a" ++ [NL] ++ py "bcd".

Lemma chunk_loop_stuck (content : pystr) (chunk_size overlap : Z) (c : pystr) :
  (0 <? len content) = true ->
  chunk_iter content chunk_size overlap 0 = Next c 0 ->
  forall fuel chunks, chunk_loop fuel content chunk_size overlap 0 chunks = None.
Proof.
  intros Hlen Hit. induction fuel as [|fuel IH]; intros chunks; simpl.
  - reflexivity.
  - rewrite Hlen, Hit. apply IH.
Qed.

(** C10 (code defect).  With the default [chunk_size = 2000] and
    [overlap = 200], and a text whose only boundary in the first window lies
    199 characters after its start, a pass of the loop ends with
    [start = 200 - 200 = 0]: the start index does not move forward, every
    pass appends the same chunk, and no number of passes ends the loop.  The
    same happens for [chunk_size = 3], [overlap = 2] on ["a\nbcd"]. *)
Theorem chunk_text_no_progress :
  chunk_iter stuck_content 2000 200 0 = Next (repeat (ch "x") 199 ++ [NL]) 0 /\
  (forall fuel, chunk_text fuel stuck_content 2000 200 = None) /\
  chunk_iter stuck_small 3 2 0 = Next (py "a" ++ [NL]) 0 /\
  (forall fuel, chunk_text fuel stuck_small 3 2 = None).
Proof.
  assert (H1 : chunk_iter stuck_content 2000 200 0
               = Next (repeat (ch "x") 199 ++ [NL]) 0) by (vm_compute; reflexivity).
  assert (H2 : chunk_iter stuck_small 3 2 0 = Next (py "a" ++ [NL]) 0)
    by (vm_compute; reflexivity).
  repeat split; try assumption.
  - intros fuel. unfold chunk_text.
    replace (len stuck_content <=? 2000) with false by (vm_compute; reflexivity).
    eapply chunk_loop_stuck; [vm_compute; reflexivity | exact H1].
  - intros fuel. unfold chunk_text.
    replace (len stuck_small <=? 3) with false by (vm_compute; reflexivity).
    eapply chunk_loop_stuck; [vm_compute; reflexivity | exact H2].
Qed.

End Chunker.

(* ===================================================================== *)
(** ** Python dictionaries *)
(* ===================================================================== *)

Module PyDict.

(** Keys are strings; entries are kept in insertion order, one per key. *)
Definition dict (V : Type) := list (pystr * V).

Section Ops.
Context {V : Type}.

(** [d.get(k)] as an option *)
Fixpoint get (d : dict V) (k : pystr) : option V :=
  match d with
  | [] => None
  | (k', v) :: d' => if eqb k k' then Some v else get d' k
  end.

(** [k in d] *)
Definition contains (d : dict V) (k : pystr) : bool :=
  match get d k with Some _ => true | None => false end.

(** [d[k]] *)
Definition getitem (d : dict V) (k : pystr) : exn + V :=
  match get d k with Some v => inr v | None => inl (KeyError k) end.

(** [d[k] = v]: an existing key keeps its place, a new key goes last. *)
Fixpoint set (d : dict V) (k : pystr) (v : V) : dict V :=
  match d with
  | [] => [(k, v)]
  | (k', v') :: d' => if eqb k k' then (k', v) :: d' else (k', v') :: set d' k v
  end.

Definition keys (d : dict V) : list pystr := map fst d.

Lemma get_set_same (d : dict V) k v : get (set d k v) k = Some v.
Proof.
  induction d as [|[k' v'] d IH]; simpl.
  - now rewrite eqb_refl.
  - destruct (eqb k k') eqn:E; simpl; rewrite E; [reflexivity | exact IH].
Qed.

Lemma get_set_other (d : dict V) k k' v :
  k <> k' -> get (set d k v) k' = get d k'.
Proof.
  intros Hne. induction d as [|[k0 v0] d IH]; simpl.
  - apply not_eq_sym in Hne. apply eqb_neq in Hne. now rewrite Hne.
  - destruct (eqb k k0) eqn:E; simpl.
    + apply eqb_eq in E. subst k0.
      apply not_eq_sym in Hne. apply eqb_neq in Hne. now rewrite Hne.
    + now rewrite IH.
Qed.

Lemma contains_set_same (d : dict V) k v : contains (set d k v) k = true.
Proof. unfold contains. now rewrite get_set_same. Qed.

Lemma contains_set_mono (d : dict V) k k' v :
  contains d k' = true -> contains (set d k v) k' = true.
Proof.
  intros H. destruct (eqb k k') eqn:E.
  - apply eqb_eq in E. subst. apply contains_set_same.
  - apply eqb_neq in E. unfold contains in *. now rewrite get_set_other.
Qed.

Lemma contains_set_inv (d : dict V) k k' v :
  contains (set d k v) k' = true -> k' = k \/ contains d k' = true.
Proof.
  intros H. destruct (eqb k k') eqn:E.
  - apply eqb_eq in E. now left.
  - apply eqb_neq in E. right. unfold contains in *.
    now rewrite get_set_other in H.
Qed.

Lemma get_In (d : dict V) k v : get d k = Some v -> In (k, v) d.
Proof.
  induction d as [|[k' v'] d IH]; simpl; [discriminate|].
  destruct (eqb k k') eqn:E.
  - apply eqb_eq in E. intros [= ->]. subst. now left.
  - intros H. right. now apply IH.
Qed.

Lemma get_None_not_In (d : dict V) k : get d k = None -> ~ In k (keys d).
Proof.
  induction d as [|[k' v'] d IH]; simpl; [tauto|].
  destruct (eqb k k') eqn:E; [discriminate|].
  apply eqb_neq in E. intros H [H1|H1]; [congruence | now apply IH].
Qed.

Lemma set_fresh (d : dict V) k v : ~ In k (keys d) -> set d k v = d ++ [(k, v)].
Proof.
  induction d as [|[k' v'] d IH]; simpl; [reflexivity|].
  intros H. destruct (eqb k k') eqn:E.
  - apply eqb_eq in E. subst. tauto.
  - f_equal. apply IH. tauto.
Qed.

End Ops.

End PyDict.
Import PyDict.

(* ===================================================================== *)
(** ** [_validate_conversation_format] (conversation_generator.py) *)
(* ===================================================================== *)

Module Validator.

(** A turn is a dictionary from strings to strings.  Turns with values of
    other types are treated in [UntypedValidator] below. *)
Definition turn := dict pystr.

(** What the validator may be handed for a turn, and for a conversation. *)
Inductive turn_like : Type :=
| ADict (d : turn)
| NotADict.

Inductive conversation_like : Type :=
| AList (turns : list turn_like)
| NotAList.

Definition k_from := py "from".
Definition k_value := py "value".
Definition k_role := py "role".
Definition k_speaker := py "speaker".
Definition human := py "human".
Definition gpt := py "gpt".

(** ['human' if i % 2 == 0 else 'gpt'] *)
Definition positional (i : nat) : pystr := if Nat.even i then human else gpt.

(** The value of [turn[key]] for a key known to be present. *)
Definition item (t : turn) (key : pystr) : pystr :=
  match get t key with Some v => v | None => [] end.

(** Lines 202-209: give the turn a ['from'] key when it has none. *)
Definition normalize_from_key (i : nat) (t : turn) : turn :=
  if contains t k_from then t
  else if contains t k_role then
    set t k_from (if mem (item t k_role) [py "user"; py "human"] then human else gpt)
  else if contains t k_speaker then
    set t k_from (if mem (item t k_speaker) [py "user"; py "human"] then human else gpt)
  else set t k_from (positional i).

(** The [for key in ['content', 'message', 'text'] ... else: raise] loop. *)
Fixpoint first_value_alias (i : nat) (t : turn) (aliases : list pystr) : exn + turn :=
  match aliases with
  | [] => inl (ValueError "Turn is missing 'value' or equivalent field")
  | key :: rest =>
      if contains t key then inr (set t k_value (item t key))
      else first_value_alias i t rest
  end.

(** Lines 212-218: give the turn a ['value'] key when it has none. *)
Definition normalize_value_key (i : nat) (t : turn) : exn + turn :=
  if contains t k_value then inr t
  else first_value_alias i t [py "content"; py "message"; py "text"].

(** Lines 221-224: normalise the value stored under ['from']. *)
Definition normalize_from_value (t : turn) : turn :=
  if mem (lower (item t k_from)) [py "assistant"; py "ai"; py "bot"; py "claude"]
  then set t k_from gpt
  else if mem (lower (item t k_from)) [py "user"; py "human"; py "person"]
  then set t k_from human
  else t.

(** Lines 227-228: anything else gets the positional role. *)
Definition ensure_role (i : nat) (t : turn) : turn :=
  if mem (item t k_from) [human; gpt] then t
  else set t k_from (positional i).

(** The body of the loop for the turn at position [i]. *)
Definition validate_turn (i : nat) (tl : turn_like) : exn + turn :=
  match tl with
  | NotADict => inl (ValueError "Turn is not a dictionary")
  | ADict t =>
      match normalize_value_key i (normalize_from_key i t) with
      | inl e => inl e
      | inr t2 => inr (ensure_role i (normalize_from_value t2))
      end
  end.

(** [for i, turn in enumerate(conversation)], from position [i] on. *)
Fixpoint validate_from (i : nat) (turns : list turn_like) : exn + list turn :=
  match turns with
  | [] => inr []
  | tl :: rest =>
      match validate_turn i tl with
      | inl e => inl e
      | inr t =>
          match validate_from (S i) rest with
          | inl e => inl e
          | inr ts => inr (t :: ts)
          end
      end
  end.

(** The function updates the turns of its argument in place and returns
    nothing; the embedding returns the conversation as it stands afterwards.
    The turns of a conversation are distinct objects. *)
Definition _validate_conversation_format (c : conversation_like) : exn + list turn :=
  match c with
  | NotAList => inl (ValueError "Conversation is not a list")
  | AList turns => validate_from 0 turns
  end.

(** *** What the validator leaves behind *)

(** "Exactly the two canonical keys, no alias keys remaining". *)
Definition canonical_keys (t : turn) : Prop :=
  forall k, contains t k = true <-> (k = k_from \/ k = k_value).

(** The role the specification's wording assigns: the same case-insensitive
    table for the canonical key and for the aliases ['role'] and ['speaker'],
    with the positional default for everything else. *)
Definition claimed_role_of_value (i : nat) (v : pystr) : pystr :=
  if mem (lower v) [py "assistant"; py "ai"; py "bot"; py "claude"] then gpt
  else if mem (lower v) [py "user"; py "human"; py "person"] then human
  else positional i.

Definition claimed_role (i : nat) (t : turn) : pystr :=
  match get t k_from, get t k_role, get t k_speaker with
  | Some v, _, _ => claimed_role_of_value i v
  | None, Some v, _ => claimed_role_of_value i v
  | None, None, Some v => claimed_role_of_value i v
  | None, None, None => positional i
  end.

(** The role the code assigns to a value found under ['from']. *)
Definition role_of_from_value (i : nat) (v : pystr) : pystr :=
  if mem (lower v) [py "assistant"; py "ai"; py "bot"; py "claude"] then gpt
  else if mem (lower v) [py "user"; py "human"; py "person"] then human
  else if eqb v gpt then gpt
  else positional i.

(** The role the code assigns to a value found under ['role'] or ['speaker']
    when there is no ['from']. *)
Definition role_of_alias_value (r : pystr) : pystr :=
  if mem r [py "user"; py "human"] then human else gpt.

(** What the code stores under ['from'] before it looks at the value. *)
Definition initial_from (i : nat) (t : turn) : pystr :=
  match get t k_from, get t k_role, get t k_speaker with
  | Some v, _, _ => v
  | None, Some r, _ => role_of_alias_value r
  | None, None, Some r => role_of_alias_value r
  | None, None, None => positional i
  end.

(** A validated turn [t'] of an input turn [t]: both canonical keys are
    there, the role is one of the two, and every key of [t] is still there
    with its value (apart from the two canonical ones). *)
Definition validated (t t' : turn) : Prop :=
  (get t' k_from = Some human \/ get t' k_from = Some gpt) /\
  contains t' k_value = true /\
  (forall k, contains t k = true -> contains t' k = true) /\
  (forall k, contains t' k = true ->
             k = k_from \/ k = k_value \/ contains t k = true) /\
  (forall k, k <> k_from -> k <> k_value -> get t' k = get t k).

Definition alias_turn (X : pystr) : turn :=
  [(k_role, py "assistant"); (py "content", X)].

Lemma positional_cases (i : nat) : positional i = human \/ positional i = gpt.
Proof. unfold positional. destruct (Nat.even i); auto. Qed.

Lemma k_value_neq_from : k_value <> k_from.
Proof. intros H. vm_compute in H. discriminate. Qed.

Lemma item_get (t : turn) k v : get t k = Some v -> item t k = v.
Proof. unfold item. now intros ->. Qed.

Lemma contains_get (t : turn) k :
  contains t k = true -> exists v, get t k = Some v.
Proof. unfold contains. destruct (get t k) as [v|]; [eauto | discriminate]. Qed.

Lemma contains_false (t : turn) k : contains t k = false -> get t k = None.
Proof. unfold contains. destruct (get t k); [discriminate | reflexivity]. Qed.

Lemma get_contains (t : turn) k v : get t k = Some v -> contains t k = true.
Proof. unfold contains. now intros ->. Qed.

(** The value step never touches ['from']. *)
Lemma first_value_alias_from (i : nat) (t t2 : turn) aliases :
  first_value_alias i t aliases = inr t2 ->
  get t2 k_from = get t k_from /\ contains t2 k_value = true /\
  (forall k, contains t k = true -> contains t2 k = true) /\
  (forall k, contains t2 k = true -> k = k_value \/ contains t k = true) /\
  (forall k, k <> k_value -> get t2 k = get t k).
Proof.
  induction aliases as [|key rest IH]; simpl; [discriminate|].
  destruct (contains t key); [|exact IH].
  intros [= <-]. repeat split.
  - apply get_set_other, k_value_neq_from.
  - apply contains_set_same.
  - intros k. apply contains_set_mono.
  - intros k. apply contains_set_inv.
  - intros k Hk. apply get_set_other. congruence.
Qed.

Lemma normalize_value_key_spec (i : nat) (t t2 : turn) :
  normalize_value_key i t = inr t2 ->
  get t2 k_from = get t k_from /\ contains t2 k_value = true /\
  (forall k, contains t k = true -> contains t2 k = true) /\
  (forall k, contains t2 k = true -> k = k_value \/ contains t k = true) /\
  (forall k, k <> k_value -> get t2 k = get t k).
Proof.
  unfold normalize_value_key. destruct (contains t k_value) eqn:E.
  - intros [= <-]. repeat split; auto.
  - apply first_value_alias_from.
Qed.

(** The last two steps, given what is stored under ['from']. *)
Lemma role_steps_get (i : nat) (t : turn) (v : pystr) :
  get t k_from = Some v ->
  get (ensure_role i (normalize_from_value t)) k_from = Some (role_of_from_value i v).
Proof.
  intros Hv. unfold normalize_from_value, role_of_from_value.
  rewrite (item_get _ _ _ Hv).
  destruct (mem (lower v) [py "assistant"; py "ai"; py "bot"; py "claude"]) eqn:Eg.
  - unfold ensure_role, item. rewrite get_set_same.
    replace (mem gpt [human; gpt]) with true by reflexivity.
    apply get_set_same.
  - destruct (mem (lower v) [py "user"; py "human"; py "person"]) eqn:Eh.
    + unfold ensure_role, item. rewrite get_set_same.
      replace (mem human [human; gpt]) with true by reflexivity.
      apply get_set_same.
    + unfold ensure_role. rewrite (item_get _ _ _ Hv).
      destruct (eqb v gpt) eqn:Egpt.
      * apply eqb_eq in Egpt. subst v.
        replace (mem gpt [human; gpt]) with true by reflexivity. exact Hv.
      * assert (Hh : eqb v human = false).
        { destruct (eqb v human) eqn:E; [|reflexivity].
          apply eqb_eq in E. subst v. vm_compute in Eh. discriminate. }
        unfold mem. simpl. rewrite Hh, Egpt. simpl. apply get_set_same.
Qed.

Lemma role_steps_keys (i : nat) (t : turn) :
  (forall k, contains t k = true ->
             contains (ensure_role i (normalize_from_value t)) k = true) /\
  (forall k, contains (ensure_role i (normalize_from_value t)) k = true ->
             k = k_from \/ contains t k = true) /\
  (forall k, k <> k_from ->
             get (ensure_role i (normalize_from_value t)) k = get t k).
Proof.
  assert (A : forall u : turn,
    (forall k, contains t k = true -> contains u k = true) /\
    (forall k, contains u k = true -> k = k_from \/ contains t k = true) /\
    (forall k, k <> k_from -> get u k = get t k) ->
    forall w,
    (forall k, contains t k = true -> contains (set u k_from w) k = true) /\
    (forall k, contains (set u k_from w) k = true -> k = k_from \/ contains t k = true) /\
    (forall k, k <> k_from -> get (set u k_from w) k = get t k)).
  { intros u (U1 & U2 & U3) w. repeat split.
    - intros k Hk. apply contains_set_mono. auto.
    - intros k Hk. apply contains_set_inv in Hk as [->|Hk]; auto.
    - intros k Hk. rewrite get_set_other by congruence. auto. }
  assert (B : (forall k, contains t k = true -> contains t k = true) /\
    (forall k, contains t k = true -> k = k_from \/ contains t k = true) /\
    (forall k, k <> k_from -> get t k = get t k)) by (repeat split; auto).
  assert (C : (forall k, contains t k = true -> contains (normalize_from_value t) k = true) /\
    (forall k, contains (normalize_from_value t) k = true -> k = k_from \/ contains t k = true) /\
    (forall k, k <> k_from -> get (normalize_from_value t) k = get t k)).
  { unfold normalize_from_value.
    destruct (mem _ _); [apply A, B|]. destruct (mem _ _); [apply A, B | apply B]. }
  unfold ensure_role. destruct (mem _ _); [exact C | apply A, C].
Qed.

Lemma normalize_from_key_spec (i : nat) (t : turn) :
  (forall k, contains t k = true -> contains (normalize_from_key i t) k = true) /\
  (forall k, contains (normalize_from_key i t) k = true ->
             k = k_from \/ contains t k = true) /\
  (forall k, k <> k_from -> get (normalize_from_key i t) k = get t k).
Proof.
  unfold normalize_from_key.
  destruct (contains t k_from); [repeat split; auto|].
  destruct (contains t k_role);
    [|destruct (contains t k_speaker)];
    (repeat split;
     [ intros k; apply contains_set_mono
     | intros k Hk; apply contains_set_inv in Hk as [->|Hk]; auto
     | intros k Hk; apply get_set_other; congruence ]).
Qed.

Lemma role_of_from_value_cases (i : nat) (v : pystr) :
  role_of_from_value i v = human \/ role_of_from_value i v = gpt.
Proof.
  unfold role_of_from_value.
  repeat (match goal with |- context [if ?b then _ else _] => destruct b end);
    auto using positional_cases.
Qed.

Lemma role_of_from_value_fixed (i : nat) (v : pystr) :
  v = human \/ v = gpt -> role_of_from_value i v = v.
Proof. intros [->| ->]; reflexivity. Qed.

Lemma role_of_alias_value_cases (r : pystr) :
  role_of_alias_value r = human \/ role_of_alias_value r = gpt.
Proof. unfold role_of_alias_value. destruct (mem _ _); auto. Qed.

Lemma normalize_from_key_get (i : nat) (t : turn) :
  get (normalize_from_key i t) k_from = Some (initial_from i t).
Proof.
  unfold normalize_from_key, initial_from, contains, item, role_of_alias_value.
  destruct (get t k_from) as [v|] eqn:Ef; [exact Ef|].
  destruct (get t k_role) as [r|]; [apply get_set_same|].
  destruct (get t k_speaker) as [r|]; apply get_set_same.
Qed.

Lemma validate_turn_from (i : nat) (t t' : turn) :
  validate_turn i (ADict t) = inr t' ->
  get t' k_from = Some (role_of_from_value i (initial_from i t)).
Proof.
  unfold validate_turn.
  destruct (normalize_value_key i (normalize_from_key i t)) as [e|t2] eqn:E;
    [discriminate|].
  intros [= <-]. apply normalize_value_key_spec in E as (Hf & _).
  apply role_steps_get. rewrite Hf. apply normalize_from_key_get.
Qed.

Lemma validate_turn_validated (i : nat) (t t' : turn) :
  validate_turn i (ADict t) = inr t' -> validated t t'.
Proof.
  intros H. pose proof (validate_turn_from _ _ _ H) as Hfrom.
  unfold validate_turn in H.
  destruct (normalize_value_key i (normalize_from_key i t)) as [e|t2] eqn:E;
    [discriminate|].
  injection H as <-.
  apply normalize_value_key_spec in E as (_ & Hv & V1 & V2 & V3).
  destruct (normalize_from_key_spec i t) as (F1 & F2 & F3).
  destruct (role_steps_keys i t2) as (R1 & R2 & R3).
  split; [|split; [|split; [|split]]].
  - rewrite Hfrom.
    destruct (role_of_from_value_cases i (initial_from i t)) as [-> | ->]; auto.
  - auto.
  - auto.
  - intros k Hk. apply R2 in Hk as [->|Hk]; auto.
    apply V2 in Hk as [->|Hk]; auto.
    apply F2 in Hk as [->|Hk]; auto.
  - intros k H1 H2. rewrite R3, V3, F3; auto.
Qed.

Lemma validate_from_validated (turns : list turn_like) :
  forall i out, validate_from i turns = inr out ->
  Forall2 (fun tl t' => exists t, tl = ADict t /\ validated t t') turns out.
Proof.
  induction turns as [|tl rest IH]; simpl; intros i out H.
  - injection H as <-. constructor.
  - destruct (validate_turn i tl) as [e|t'] eqn:E; [discriminate|].
    destruct (validate_from (S i) rest) as [e|ts] eqn:E'; [discriminate|].
    injection H as <-. constructor; [|eauto].
    destruct tl as [t|]; [|discriminate].
    exists t. split; [reflexivity|]. eapply validate_turn_validated; eauto.
Qed.

(** C4, as stated, fails: after validation the turn
    [{"role": "assistant", "content": "X"}] still has its two alias keys
    beside the two canonical ones. *)
Lemma validate_alias_keys_remain :
  _validate_conversation_format (AList [ADict (alias_turn (py "X"))])
    = inr [ [(k_role, py "assistant"); (py "content", py "X");
             (k_from, gpt); (k_value, py "X")] ] /\
  [(k_role, py "assistant"); (py "content", py "X");
   (k_from, gpt); (k_value, py "X")] <> [(k_from, gpt); (k_value, py "X")] /\
  ~ canonical_keys [(k_role, py "assistant"); (py "content", py "X");
                    (k_from, gpt); (k_value, py "X")].
Proof.
  split; [vm_compute; reflexivity|]. split; [discriminate|].
  intros H. destruct (proj1 (H k_role) eq_refl) as [E|E];
    vm_compute in E; discriminate.
Qed.

(** C4, amended.  Whenever the validator accepts its input, the input was a
    list of dictionaries and every turn afterwards has a ['from'] key holding
    ['human'] or ['gpt'] and a ['value'] key; no key is ever removed, so
    every other key of the input turn, alias keys included, is still there
    with its value, and no key other than the two canonical ones is added.
    The turn [{"role": "assistant", "content": X}] becomes
    [{"role": "assistant", "content": X, "from": "gpt", "value": X}]. *)
Theorem validate_adds_canonical_keys :
  (forall c out,
     _validate_conversation_format c = inr out ->
     exists turns, c = AList turns /\
       Forall2 (fun tl t' => exists t, tl = ADict t /\ validated t t') turns out) /\
  (forall X,
     _validate_conversation_format (AList [ADict (alias_turn X)])
       = inr [ alias_turn X ++ [(k_from, gpt); (k_value, X)] ]).
Proof.
  split.
  - intros [turns|] out H; [|discriminate].
    exists turns. split; [reflexivity|]. eapply validate_from_validated, H.
  - intros X. reflexivity.
Qed.

Lemma validate_adds_canonical_keys_witness :
  exists turns, AList [ADict (alias_turn (py "X"))] = AList turns /\
    Forall2 (fun tl t' => exists t, tl = ADict t /\ validated t t') turns
      [ alias_turn (py "X") ++ [(k_from, gpt); (k_value, py "X")] ].
Proof.
  apply (proj1 validate_adds_canonical_keys
           (AList [ADict (alias_turn (py "X"))])).
  vm_compute. reflexivity.
Defined.

(** The turn at position [i] of a conversation goes through the loop body
    with that very [i]. *)
Lemma validate_from_nth (turns : list turn_like) :
  forall j out i tl,
    validate_from j turns = inr out -> nth_error turns i = Some tl ->
    exists t', nth_error out i = Some t' /\ validate_turn (j + i) tl = inr t'.
Proof.
  induction turns as [|tl0 rest IH]; intros j out i tl H Hn.
  - destruct i; discriminate.
  - cbn [validate_from] in H.
    destruct (validate_turn j tl0) as [e|t0] eqn:E; [discriminate|].
    destruct (validate_from (S j) rest) as [e|ts] eqn:E'; [discriminate|].
    injection H as <-. destruct i as [|i]; cbn [nth_error] in *.
    + injection Hn as <-. exists t0. rewrite Nat.add_0_r. auto.
    + destruct (IH (S j) ts i tl E' Hn) as (t' & H1 & H2).
      exists t'. split; [exact H1|]. now rewrite Nat.add_succ_r.
Qed.

(** C5, as stated, fails on the alias keys: a conversation of one turn with
    ['role'] equal to ['person'], ['USER'] or ['system'] comes back with the
    role ['gpt'] at position 0, where the claimed table gives ['human'] (for
    ['system'] as the positional default). *)
Lemma validate_role_alias_not_table :
  (_validate_conversation_format
     (AList [ADict [(k_role, py "person"); (py "content", py "x")]])
     = inr [[(k_role, py "person"); (py "content", py "x");
             (k_from, gpt); (k_value, py "x")]] /\
   claimed_role 0 [(k_role, py "person"); (py "content", py "x")] = human) /\
  (_validate_conversation_format
     (AList [ADict [(k_role, py "USER"); (py "content", py "x")]])
     = inr [[(k_role, py "USER"); (py "content", py "x");
             (k_from, gpt); (k_value, py "x")]] /\
   claimed_role 0 [(k_role, py "USER"); (py "content", py "x")] = human) /\
  (_validate_conversation_format
     (AList [ADict [(k_speaker, py "system"); (py "content", py "x")]])
     = inr [[(k_speaker, py "system"); (py "content", py "x");
             (k_from, gpt); (k_value, py "x")]] /\
   claimed_role 0 [(k_speaker, py "system"); (py "content", py "x")] = human) /\
  human <> gpt.
Proof. repeat split; try (vm_compute; reflexivity). discriminate. Qed.

(** C5, amended.  Let the validator accept a conversation, and let [t] be
    its turn at position [i], counted from 0.  The turn at position [i]
    afterwards has its role under ['from'] as follows:
    - with no ['from'], ['role'] or ['speaker'] key in [t] the role is the
      positional default (even [i]: human, odd [i]: gpt);
    - a value under ['from'] is mapped case-insensitively, assistant / ai /
      bot / claude to gpt and user / human / person to human; the exact
      value ['gpt'] is kept; any other value gets the positional default;
    - without ['from'], the value under ['role'] (or else under ['speaker'])
      gives human when it is exactly ['user'] or ['human'], and gpt in every
      other case. *)
Theorem validate_role_resolution (turns : list turn_like) (out : list turn)
    (i : nat) (t : turn) :
  _validate_conversation_format (AList turns) = inr out ->
  nth_error turns i = Some (ADict t) ->
  exists t', nth_error out i = Some t' /\
  (get t k_from = None -> get t k_role = None -> get t k_speaker = None ->
     get t' k_from = Some (if Nat.even i then human else gpt)) /\
  (forall v, get t k_from = Some v ->
     get t' k_from = Some
       (if mem (lower v) [py "assistant"; py "ai"; py "bot"; py "claude"] then gpt
        else if mem (lower v) [py "user"; py "human"; py "person"] then human
        else if eqb v gpt then gpt
        else if Nat.even i then human else gpt)) /\
  (forall r, get t k_from = None -> get t k_role = Some r ->
     get t' k_from = Some (if mem r [py "user"; py "human"] then human else gpt)) /\
  (forall r, get t k_from = None -> get t k_role = None ->
     get t k_speaker = Some r ->
     get t' k_from = Some (if mem r [py "user"; py "human"] then human else gpt)).
Proof.
  intros H Hn. cbn [_validate_conversation_format] in H.
  destruct (validate_from_nth turns 0 out i (ADict t) H Hn) as (t' & Ht' & Hv).
  cbn [Nat.add] in Hv. exists t'. split; [exact Ht'|].
  apply validate_turn_from in Hv. rewrite Hv. unfold initial_from.
  repeat split.
  - intros -> -> ->. f_equal. apply role_of_from_value_fixed, positional_cases.
  - intros v ->. reflexivity.
  - intros r -> ->. f_equal.
    apply role_of_from_value_fixed, role_of_alias_value_cases.
  - intros r -> -> ->. f_equal.
    apply role_of_from_value_fixed, role_of_alias_value_cases.
Qed.

Lemma validate_role_resolution_witness :
  exists t',
    nth_error [[(py "text", py "a"); (k_from, human); (k_value, py "a")];
               [(py "text", py "b"); (k_from, gpt); (k_value, py "b")];
               [(k_from, human); (k_value, py "c")];
               [(k_from, gpt); (py "content", py "d"); (k_value, py "d")]] 1
      = Some t' /\
    (get [(py "text", py "b")] k_from = None ->
     get [(py "text", py "b")] k_role = None ->
     get [(py "text", py "b")] k_speaker = None ->
     get t' k_from = Some (if Nat.even 1 then human else gpt)) /\
    (forall v, get [(py "text", py "b")] k_from = Some v ->
       get t' k_from = Some
         (if mem (lower v) [py "assistant"; py "ai"; py "bot"; py "claude"] then gpt
          else if mem (lower v) [py "user"; py "human"; py "person"] then human
          else if eqb v gpt then gpt
          else if Nat.even 1 then human else gpt)) /\
    (forall r, get [(py "text", py "b")] k_from = None ->
       get [(py "text", py "b")] k_role = Some r ->
       get t' k_from = Some (if mem r [py "user"; py "human"] then human else gpt)) /\
    (forall r, get [(py "text", py "b")] k_from = None ->
       get [(py "text", py "b")] k_role = None ->
       get [(py "text", py "b")] k_speaker = Some r ->
       get t' k_from = Some (if mem r [py "user"; py "human"] then human else gpt)).
Proof.
  apply (validate_role_resolution
           [ADict [(py "text", py "a")]; ADict [(py "text", py "b")];
            ADict [(k_from, py "Moderator"); (k_value, py "c")];
            ADict [(k_from, py "BOT"); (py "content", py "d")]]
           [[(py "text", py "a"); (k_from, human); (k_value, py "a")];
            [(py "text", py "b"); (k_from, gpt); (k_value, py "b")];
            [(k_from, human); (k_value, py "c")];
            [(k_from, gpt); (py "content", py "d"); (k_value, py "d")]]
           1 [(py "text", py "b")]).
  - vm_compute. reflexivity.
  - reflexivity.
Defined.

End Validator.

(* ===================================================================== *)
(** ** Text cleaning and question detection (dataset-expander.py) *)
(* ===================================================================== *)

Module Cleaner.

Definition DQUOTE : N := 34%N.
Definition SQUOTE : N := 39%N.
Definition QMARK : N := ch "?".

(** A character [x] of a pattern against a character [y] of the text under
    [re.IGNORECASE], for [x] in ASCII: the two are equal up to ASCII case,
    or [y] is one of the four characters outside ASCII that [re] takes for
    a case variant of an ASCII letter: U+0130 and U+0131 for [i], U+017F
    for [s], U+212A for [k]. *)
Definition ci_eqb (x y : N) : bool :=
  N.eqb (lower_char x) (lower_char y) ||
  N.eqb (lower_char x) (ch "i") && (N.eqb y 304 || N.eqb y 305) ||
  N.eqb (lower_char x) (ch "s") && N.eqb y 383 ||
  N.eqb (lower_char x) (ch "k") && N.eqb y 8490.

(** Prefix test under [re.IGNORECASE]. *)
Fixpoint ci_startswith (s p : pystr) {struct p} : bool :=
  match p, s with
  | [], _ => true
  | x :: p', y :: s' => ci_eqb x y && ci_startswith s' p'
  | _ :: _, [] => false
  end.

(** [re.sub(r'^(Generated content:|Verified content:|Corrected version:)\s*',
            '', text, flags=re.IGNORECASE)]:
    one of the lead-ins at the very start goes, with the white space
    after it. *)
Definition lead_ins : list pystr :=
  [py "Generated content:"; py "Verified content:"; py "Corrected version:"].

Fixpoint strip_lead_in (text : pystr) (alternatives : list pystr) : pystr :=
  match alternatives with
  | [] => text
  | p :: rest =>
      if ci_startswith text p then lstrip_by isspace (skipn (length p) text)
      else strip_lead_in text rest
  end.

(** [.*] and [$]: the rest of the text is free of newlines, but for one newline at
    the very end, which [$] leaves alone.  Returns what stays after the
    match. *)
Fixpoint to_end_of_text (s : pystr) : option pystr :=
  match s with
  | [] => Some []
  | c :: s' =>
      if N.eqb c NL then match s' with [] => Some [NL] | _ :: _ => None end
      else to_end_of_text s'
  end.

Definition trailers : list pystr :=
  [py "Verification result:"; py "Reference Command:"; py "Note:";
   py "Verified Response:"].

Fixpoint trailer_alternatives (s : pystr) (alternatives : list pystr) : option pystr :=
  match alternatives with
  | [] => None
  | p :: rest =>
      if ci_startswith s p then
        match to_end_of_text (skipn (length p) s) with
        | Some remaining => Some remaining
        | None => trailer_alternatives s rest
        end
      else trailer_alternatives s rest
  end.

(** A match of the trailer pattern starting exactly here: white space, a
    trailer, and anything but a newline up to the end. *)
Definition trailer_match (s : pystr) : option pystr :=
  trailer_alternatives (lstrip_by isspace s) trailers.

(** The second [re.sub], with [re.IGNORECASE]: white space, one of the four
    trailers and the rest of the text, removed at the leftmost position at
    which the pattern matches; the match runs to the end of the text. *)
Fixpoint strip_trailer (text : pystr) : pystr :=
  match trailer_match text with
  | Some remaining => remaining
  | None =>
      match text with
      | [] => []
      | c :: rest => c :: strip_trailer rest
      end
  end.

(** [[A-Za-z_]] *)
Definition placeholder_char (c : N) : bool :=
  islower_char c || isupper_char c || N.eqb c (ch "_").

Fixpoint take_while (p : N -> bool) (s : pystr) : pystr :=
  match s with
  | c :: s' => if p c then c :: take_while p s' else []
  | [] => []
  end.

(** The longest prefix of [run], of length between 4 and [n], that ends in
    ["___"]: what the greedy [[A-Za-z_]+] keeps after giving characters
    back until the closing ["___"] fits. *)
Fixpoint longest_closing (run : pystr) (n : nat) : option nat :=
  match n with
  | O => None
  | S n' =>
      if (4 <=? n)%nat && endswith (firstn n run) (py "___") then Some n
      else longest_closing run n'
  end.

(** Length of a match of [___[A-Za-z_]+___] starting exactly here. *)
Definition placeholder_match (s : pystr) : option nat :=
  if startswith s (py "___") then
    let run := take_while placeholder_char (skipn 3 s) in
    match longest_closing run (length run) with
    | Some n => Some (3 + n)%nat
    | None => None
    end
  else None.

(** [re.sub(r'___[A-Za-z_]+___', '', text)]: [skip] characters of a match
    found earlier are still to be dropped. *)
Fixpoint remove_placeholders_from (skip : nat) (text : pystr) : pystr :=
  match text with
  | [] => []
  | c :: rest =>
      match skip with
      | S k => remove_placeholders_from k rest
      | O =>
          match placeholder_match text with
          | Some n => remove_placeholders_from (n - 1) rest
          | None => c :: remove_placeholders_from 0 rest
          end
      end
  end.

Definition remove_placeholders (text : pystr) : pystr :=
  remove_placeholders_from 0 text.

(** [if text and text[0].islower(): text = text[0].upper() + text[1:]] *)
Definition capitalize_first (text : pystr) : pystr :=
  match text with
  | c :: rest => if str_islower c then str_upper c ++ rest else text
  | [] => []
  end.

(** [text[-1]] *)
Definition last_char (text : pystr) : exn + N :=
  match rev text with
  | c :: _ => inr c
  | [] => inl IndexError
  end.

(** Lines 233-237 of [clean_generated_content]. *)
Definition end_punctuation (text : pystr) (is_question : bool) : exn + pystr :=
  if is_question && negb (endswith text (py "?")) then inr (text ++ py "?")
  else if negb is_question then
    match last_char text with
    | inl e => inl e
    | inr c =>
        if negb (existsb (N.eqb c) (py ".!?")) then inr (text ++ py ".")
        else inr text
    end
  else inr text.

Definition clean_generated_content (text : pystr) (is_question : bool) : exn + pystr :=
  let text := strip_lead_in text lead_ins in
  let text := strip_trailer text in
  let text := remove_placeholders text in
  let text := strip_chars [DQUOTE; SQUOTE] text in
  let text := strip text in
  let text := capitalize_first text in
  end_punctuation text is_question.

Definition question_words : list pystr :=
  [py "what"; py "when"; py "where"; py "who"; py "why"; py "how"; py "can";
   py "could"; py "would"; py "should"; py "is"; py "are"; py "do"; py "does";
   py "will"; py "may"].

Definition _is_question (text : pystr) : bool :=
  let text := lower (strip text) in
  endswith text (py "?") || startswith_any text question_words.

(** *** Sanity checks on the regular-expression models *)

Example clean_lead_in :
  clean_generated_content (py "generated CONTENT:   the sky is blue") false
  = inr (py "The sky is blue.").
Proof. vm_compute. reflexivity. Qed.

Example clean_trailer :
  clean_generated_content (py "It works!  Note: checked twice") false
  = inr (py "It works!").
Proof. vm_compute. reflexivity. Qed.

Example clean_placeholder :
  clean_generated_content (py "'Hello ___NAME___, how are ___you' ") true
  = inr (py "Hello , how are ___you'?").
Proof. vm_compute. reflexivity. Qed.

(** Outside ASCII: the long s is a case variant of [s] for [re], and the
    first letter is capitalised by the Unicode tables. *)
Example clean_long_s :
  clean_generated_content (py "Corrected ver" ++ [383%N] ++ py "ion:") false
  = inl IndexError.
Proof. vm_compute. reflexivity. Qed.

Example clean_capital_outside_ascii :
  clean_generated_content (233%N :: py "t" ++ [233%N]) false
    = inr (201%N :: py "t" ++ [233%N] ++ py ".") /\
  clean_generated_content (223%N :: py "x") true = inr (py "SSx?").
Proof. split; vm_compute; reflexivity. Qed.

Example clean_placeholder_backtrack :
  remove_placeholders (py "a___b___c___d__e") = py "ad__e".
Proof. vm_compute. reflexivity. Qed.

Example is_question_examples :
  _is_question (py "What is attention?") = true /\
  _is_question (py "  Is it so ") = true /\
  _is_question (py "Attention is all you need.") = false /\
  _is_question (py "   ") = false.
Proof. repeat split; vm_compute; reflexivity. Qed.

(** *** Totality of the question branch *)

Lemma end_punctuation_question (text : pystr) :
  exists out, end_punctuation text true = inr out /\ endswith out (py "?") = true.
Proof.
  unfold end_punctuation. simpl.
  destruct (endswith text (py "?")) eqn:E; simpl.
  - eauto.
  - eexists. split; [reflexivity|]. apply endswith_app.
Qed.

Lemma clean_question (text : pystr) :
  exists out, clean_generated_content text true = inr out /\
              endswith out (py "?") = true.
Proof. unfold clean_generated_content. apply end_punctuation_question. Qed.

Lemma end_punctuation_statement (text : pystr) :
  end_punctuation text false = inl IndexError <-> text = [].
Proof.
  unfold end_punctuation, last_char. simpl. split.
  - destruct (rev text) as [|c r] eqn:E.
    + intros _. apply (f_equal (@rev N)) in E. now rewrite rev_involutive in E.
    + destruct (negb _); discriminate.
  - intros ->. reflexivity.
Qed.

(** C9 (code defect).  For a statement ([is_question = False]) whose text is
    empty once the boilerplate, quotes and white space are stripped,
    [text[-1]] raises [IndexError]: the empty string, a blank string, a pair
    of quotes and a bare trailer all do so.  The capitalisation step two
    lines above guards the same access with [if text and ...]. *)
Theorem clean_statement_empty_raises :
  clean_generated_content [] false = inl IndexError /\
  clean_generated_content (py "   ") false = inl IndexError /\
  clean_generated_content [DQUOTE; DQUOTE] false = inl IndexError /\
  clean_generated_content (py "Note: nothing to add") false = inl IndexError /\
  clean_generated_content [] true = inr (py "?").
Proof. repeat split; vm_compute; reflexivity. Qed.

End Cleaner.

(* ===================================================================== *)
(** ** [DatasetExpander]: paraphrasing and expansion *)
(* ===================================================================== *)

Module Expander.
Import Validator Cleaner.

Definition conversation := list turn.

(** What a call of [ollama_interface.chat] is given.  The two messages of a
    call are fixed templates filled with these values, so the values
    determine the messages. *)
Inductive request : Type :=
| ParaphraseRequest (text : pystr) (reference_values : dict pystr)
    (is_question : bool)
| VerifyRequest (original paraphrased : pystr) (reference : dict pystr)
    (is_question : bool).

(** A turn with both canonical keys. *)
Definition canonical (t : turn) : Prop :=
  contains t k_from = true /\ contains t k_value = true.

(** [static_fields.get(source, False)] *)
Definition static_get (static_fields : dict bool) (source : pystr) : bool :=
  match get static_fields source with
  | Some b => b
  | None => false
  end.

(** [if static_fields is None: static_fields = {'human': False, 'gpt': False}] *)
Definition static_or_default (static_fields : option (dict bool)) : dict bool :=
  match static_fields with
  | Some d => d
  | None => [(human, false); (gpt, false)]
  end.

(** The loop of lines 69-71, with [reference_values] as built so far. *)
Fixpoint collect_reference_values (turns : conversation)
    (reference_fields : list pystr) (reference_values : dict pystr)
    : exn + dict pystr :=
  match turns with
  | [] => inr reference_values
  | t :: rest =>
      match getitem t k_from with
      | inl e => inl e
      | inr source =>
          if mem source reference_fields then
            match getitem t k_value with
            | inl e => inl e
            | inr value =>
                collect_reference_values rest reference_fields
                  (set reference_values source value)
            end
          else collect_reference_values rest reference_fields reference_values
      end
  end.

(** A backend that fails on every call, and one that answers every call
    with the same sentence. *)
Definition down_chat (_ : request) (st : unit) : option pystr * unit := (None, st).

Definition stub_chat (_ : request) (st : unit) : option pystr * unit :=
  (Some (py "Y is X, restated."), st).

Definition sample_conversation : conversation :=
  [ [(k_from, human); (k_value, py "What is X?")];
    [(k_from, gpt); (k_value, py "X is Y.")] ].

(** ['human': True, 'gpt': False] *)
Definition human_static : dict bool := [(human, true); (gpt, false)].

Section Backend.

(** The backend: its state, and a call that either yields the text of
    [response['message']['content']] or fails (an exception of
    [chat], or a response without that text). *)
Context {St : Type}.
Variable chat : request -> St -> option pystr * St.

(** A computation that may raise and that may call the backend. *)
Definition M (A : Type) : Type := St -> (exn + A) * St.

Definition ret {A : Type} (a : A) : M A := fun st => (inr a, st).

Definition raise {A : Type} (e : exn) : M A := fun st => (inl e, st).

Definition bind {A B : Type} (m : M A) (f : A -> M B) : M B :=
  fun st =>
    match m st with
    | (inl e, st') => (inl e, st')
    | (inr a, st') => f a st'
    end.

Definition lift {A : Type} (r : exn + A) : M A := fun st => (r, st).

Notation "x <- m ;; f" := (bind m (fun x => f))
  (at level 61, m at next level, right associativity).

(** Both branches of the [try] of [verify_paraphrase] return a string. *)
Definition verify_paraphrase (original paraphrased : pystr)
    (reference : dict pystr) (is_question : bool) : St -> pystr * St :=
  fun st =>
    match chat (VerifyRequest original paraphrased reference is_question) st with
    | (Some content, st') =>
        let verified_text := strip content in
        (if is_question && negb (endswith verified_text (py "?"))
         then verified_text ++ py "?"
         else if negb is_question && endswith verified_text (py "?")
         then removelast verified_text ++ py "."
         else verified_text, st')
    | (None, st') => (paraphrased, st')
    end.

(** [is_question = None] asks for detection.  Whatever is raised inside the
    [try], by the backend or by the cleaning, ends in [return text]. *)
Definition paraphrase_text (text : pystr) (reference_values : dict pystr)
    (is_question : option bool) : St -> pystr * St :=
  fun st =>
    match strip text with
    | [] => (text, st)
    | _ :: _ =>
        let is_question :=
          match is_question with
          | Some b => b
          | None => _is_question text
          end in
        match chat (ParaphraseRequest text reference_values is_question) st with
        | (Some content, st1) =>
            let paraphrased_text := strip content in
            let (verified_text, st2) :=
              verify_paraphrase text paraphrased_text reference_values
                is_question st1 in
            match clean_generated_content verified_text is_question with
            | inr cleaned_text => (cleaned_text, st2)
            | inl _ => (text, st2)
            end
        | (None, st1) => (text, st1)
        end
    end.

(** The body of the loop of lines 74-92 for one turn. *)
Definition expand_turn (static_fields : dict bool) (reference_values : dict pystr)
    (t : turn) : M turn :=
  source <- lift (getitem t k_from) ;;
  if static_get static_fields source then ret t
  else
    original_value <- lift (getitem t k_value) ;;
    fun st =>
      let (paraphrased_value, st') :=
        paraphrase_text original_value reference_values
          (Some (_is_question original_value)) st in
      (inr [(k_from, source); (k_value, paraphrased_value)], st').

Fixpoint expand_turns (static_fields : dict bool) (reference_values : dict pystr)
    (turns : conversation) (expanded_conversation : conversation)
    : M conversation :=
  match turns with
  | [] => ret expanded_conversation
  | t :: rest =>
      t' <- expand_turn static_fields reference_values t ;;
      expand_turns static_fields reference_values rest
        (expanded_conversation ++ [t'])
  end.

(** One pass of the [for j in range(expansion_factor)] loop. *)
Definition expand_variation (static_fields : dict bool)
    (reference_fields : list pystr) (c : conversation) : M conversation :=
  reference_values <- lift (collect_reference_values c reference_fields []) ;;
  expand_turns static_fields reference_values c [].

Fixpoint expand_repeat (n : nat) (static_fields : dict bool)
    (reference_fields : list pystr) (c : conversation)
    (expanded_conversations : list conversation) : M (list conversation) :=
  match n with
  | O => ret expanded_conversations
  | S n' =>
      e <- expand_variation static_fields reference_fields c ;;
      expand_repeat n' static_fields reference_fields c
        (expanded_conversations ++ [e])
  end.

Fixpoint expand_each (conversations : list conversation) (n : nat)
    (static_fields : dict bool) (reference_fields : list pystr)
    (expanded_conversations : list conversation) : M (list conversation) :=
  match conversations with
  | [] => ret expanded_conversations
  | c :: rest =>
      acc <- expand_repeat n static_fields reference_fields c
               expanded_conversations ;;
      expand_each rest n static_fields reference_fields acc
  end.

(** [range(expansion_factor)] has [Z.to_nat expansion_factor] elements. *)
Definition expand_conversation_dataset (conversations : list conversation)
    (expansion_factor : Z) (static_fields : option (dict bool))
    (reference_fields : option (list pystr)) : M (list conversation) :=
  let static_fields := static_or_default static_fields in
  let reference_fields :=
    match reference_fields with
    | Some l => l
    | None => []
    end in
  expand_each conversations (Z.to_nat expansion_factor) static_fields
    reference_fields [].

(** *** How an expanded turn derives from its original *)

(** [t'] stands where [t] stood: a static turn is the copy of [t]; any
    other turn keeps the role and carries what [paraphrase_text] returned
    for the text of [t], for some reference values and backend state. *)
Definition derived_turn (static_fields : dict bool) (t t' : turn) : Prop :=
  exists source value,
    get t k_from = Some source /\ get t k_value = Some value /\
    if static_get static_fields source then t' = t
    else exists reference_values st,
      t' = [(k_from, source);
            (k_value, fst (paraphrase_text value reference_values
                             (Some (_is_question value)) st))].

Lemma canonical_items (t : turn) :
  canonical t ->
  exists source value, get t k_from = Some source /\ get t k_value = Some value.
Proof.
  intros [Hf Hv]. apply contains_get in Hf as [source Hf].
  apply contains_get in Hv as [value Hv]. eauto.
Qed.

Lemma collect_reference_values_ok (turns : conversation) (rf : list pystr) :
  Forall canonical turns ->
  forall rv, exists rv', collect_reference_values turns rf rv = inr rv'.
Proof.
  induction 1 as [|t rest Ht _ IH]; intros rv; simpl; [eauto|].
  destruct (canonical_items t Ht) as (source & value & Hf & Hv).
  unfold getitem. rewrite Hf, Hv. destruct (mem source rf); apply IH.
Qed.

Lemma expand_turn_derived (static_fields : dict bool) (rv : dict pystr)
    (t : turn) (st : St) :
  canonical t ->
  exists t' st', expand_turn static_fields rv t st = (inr t', st') /\
                 derived_turn static_fields t t'.
Proof.
  intros Ht. destruct (canonical_items t Ht) as (source & value & Hf & Hv).
  unfold expand_turn, bind, lift, getitem, ret. rewrite Hf.
  destruct (static_get static_fields source) eqn:Es.
  - exists t, st. split; [reflexivity|].
    exists source, value. rewrite Es. auto.
  - rewrite Hv.
    destruct (paraphrase_text value rv (Some (_is_question value)) st)
      as [p st'] eqn:Ep.
    exists [(k_from, source); (k_value, p)], st'. split; [reflexivity|].
    exists source, value. rewrite Es. repeat split; auto.
    exists rv, st. now rewrite Ep.
Qed.

Lemma expand_turns_derived (static_fields : dict bool) (rv : dict pystr)
    (turns : conversation) :
  Forall canonical turns ->
  forall acc st, exists out st',
    expand_turns static_fields rv turns acc st = (inr (acc ++ out), st') /\
    Forall2 (derived_turn static_fields) turns out.
Proof.
  induction 1 as [|t rest Ht _ IH]; intros acc st; simpl.
  - exists [], st. rewrite app_nil_r. split; [reflexivity | constructor].
  - destruct (expand_turn_derived static_fields rv t st Ht) as (t' & st1 & E & D).
    destruct (IH (acc ++ [t']) st1) as (out & st2 & E2 & D2).
    exists (t' :: out), st2. unfold bind. rewrite E, E2.
    rewrite <- app_assoc. split; [reflexivity | now constructor].
Qed.

Lemma expand_variation_derived (static_fields : dict bool) (rf : list pystr)
    (c : conversation) (st : St) :
  Forall canonical c ->
  exists e st', expand_variation static_fields rf c st = (inr e, st') /\
                Forall2 (derived_turn static_fields) c e.
Proof.
  intros Hc. destruct (collect_reference_values_ok c rf Hc []) as (rv & Erv).
  destruct (expand_turns_derived static_fields rv c Hc [] st) as (out & st' & E & D).
  exists out, st'. unfold expand_variation, bind, lift. rewrite Erv. auto.
Qed.

Lemma expand_repeat_derived (static_fields : dict bool) (rf : list pystr)
    (c : conversation) (n : nat) :
  Forall canonical c ->
  forall acc st, exists out st',
    expand_repeat n static_fields rf c acc st = (inr (acc ++ out), st') /\
    Forall2 (Forall2 (derived_turn static_fields)) (repeat c n) out.
Proof.
  intros Hc. induction n as [|n IH]; intros acc st; simpl.
  - exists [], st. rewrite app_nil_r. split; [reflexivity | constructor].
  - destruct (expand_variation_derived static_fields rf c st Hc) as (e & st1 & E & D).
    destruct (IH (acc ++ [e]) st1) as (out & st2 & E2 & D2).
    exists (e :: out), st2. unfold bind. rewrite E, E2.
    rewrite <- app_assoc. split; [reflexivity | now constructor].
Qed.

Lemma expand_each_derived (static_fields : dict bool) (rf : list pystr)
    (n : nat) (conversations : list conversation) :
  Forall (Forall canonical) conversations ->
  forall acc st, exists out st',
    expand_each conversations n static_fields rf acc st
      = (inr (acc ++ out), st') /\
    Forall2 (Forall2 (derived_turn static_fields))
      (flat_map (fun c => repeat c n) conversations) out.
Proof.
  induction 1 as [|c rest Hc _ IH]; intros acc st; simpl.
  - exists [], st. rewrite app_nil_r. split; [reflexivity | constructor].
  - destruct (expand_repeat_derived static_fields rf c n Hc acc st)
      as (out1 & st1 & E1 & D1).
    destruct (IH (acc ++ out1) st1) as (out2 & st2 & E2 & D2).
    exists (out1 ++ out2), st2. unfold bind. rewrite E1, E2.
    rewrite <- app_assoc. split; [reflexivity | now apply Forall2_app].
Qed.

(** *** The fall-backs of the two backend calls *)

Lemma verify_paraphrase_fallback (original paraphrased : pystr)
    (reference : dict pystr) (q : bool) (st : St) :
  fst (chat (VerifyRequest original paraphrased reference q) st) = None ->
  fst (verify_paraphrase original paraphrased reference q st) = paraphrased.
Proof.
  unfold verify_paraphrase.
  destruct (chat _ st) as [[content|] st']; simpl; [discriminate | reflexivity].
Qed.

Lemma paraphrase_text_fallback (text : pystr) (rv : dict pystr)
    (is_question : option bool) (st : St) :
  (forall q, fst (chat (ParaphraseRequest text rv q) st) = None) ->
  fst (paraphrase_text text rv is_question st) = text.
Proof.
  intros H. unfold paraphrase_text. destruct (strip text); [reflexivity|].
  match goal with |- context [chat (ParaphraseRequest text rv ?q) st] =>
    specialize (H q); destruct (chat (ParaphraseRequest text rv q) st)
      as [[content|] st'] end;
    simpl in H; [discriminate | reflexivity].
Qed.

(** A detected question that reaches the cleaning step ends in ['?']. *)
Lemma paraphrase_text_question (text : pystr) (rv : dict pystr)
    (is_question : option bool) (st st1 : St) (content : pystr) :
  _is_question text = true ->
  is_question = None \/ is_question = Some true ->
  chat (ParaphraseRequest text rv true) st = (Some content, st1) ->
  endswith (fst (paraphrase_text text rv is_question st)) (py "?") = true.
Proof.
  intros Hq Hflag Hchat. unfold paraphrase_text.
  destruct (strip text) as [|c s] eqn:Es.
  - unfold _is_question in Hq. rewrite Es in Hq. discriminate.
  - assert (Eq : match is_question with Some b => b | None => _is_question text end
                 = true) by (destruct Hflag as [-> | ->]; auto).
    rewrite Eq, Hchat.
    destruct (verify_paraphrase text (strip content) rv true st1) as [v st2].
    destruct (clean_question v) as (out & -> & Hout). exact Hout.
Qed.

End Backend.

(** *** Indexing the expanded batch *)

Lemma length_flat_repeat {A : Type} (l : list A) (n : nat) :
  length (flat_map (fun c => repeat c n) l) = (length l * n)%nat.
Proof.
  induction l as [|c l IH]; simpl; [reflexivity|].
  now rewrite length_app, repeat_length, IH.
Qed.

Lemma nth_error_repeat_lt {A : Type} (c : A) (n j : nat) :
  (j < n)%nat -> nth_error (repeat c n) j = Some c.
Proof.
  revert j. induction n as [|n IH]; intros j Hj; [lia|].
  destruct j as [|j]; simpl; [reflexivity|]. apply IH. lia.
Qed.

Lemma nth_error_flat_repeat {A : Type} (l : list A) (n i j : nat) (c : A) :
  nth_error l i = Some c -> (j < n)%nat ->
  nth_error (flat_map (fun c => repeat c n) l) (i * n + j) = Some c.
Proof.
  revert i. induction l as [|x l IH]; intros i Hi Hj.
  - destruct i; discriminate.
  - destruct i as [|i]; simpl in *.
    + injection Hi as ->. rewrite nth_error_app1 by (rewrite repeat_length; lia).
      now apply nth_error_repeat_lt.
    + rewrite nth_error_app2 by (rewrite repeat_length; lia).
      rewrite repeat_length.
      replace (n + i * n + j - n)%nat with (i * n + j)%nat by lia.
      now apply IH.
Qed.

Lemma Forall2_nth_error {A B : Type} (R : A -> B -> Prop) (l : list A)
    (l' : list B) (i : nat) (x : A) :
  Forall2 R l l' -> nth_error l i = Some x ->
  exists y, nth_error l' i = Some y /\ R x y.
Proof.
  intros H. revert i. induction H as [|a b l l' Hab _ IH]; intros i Hi.
  - destruct i; discriminate.
  - destruct i as [|i]; simpl in *; [injection Hi as ->; eauto | auto].
Qed.

Lemma derived_turn_from {St : Type} (chat : request -> St -> option pystr * St)
    (static_fields : dict bool) (t t' : turn) :
  derived_turn chat static_fields t t' -> get t' k_from = get t k_from.
Proof.
  intros (source & value & Hf & Hv & H).
  destruct (static_get static_fields source).
  - now subst.
  - destruct H as (rv & st & ->). now rewrite Hf.
Qed.

(** The expanded batch, entry by entry. *)
Lemma expand_dataset_derived {St : Type}
    (chat : request -> St -> option pystr * St)
    (conversations : list conversation) (N : Z)
    (static_fields : option (dict bool))
    (reference_fields : option (list pystr)) (st : St) :
  Forall (Forall canonical) conversations ->
  0 < N ->
  exists out st',
    expand_conversation_dataset chat conversations N static_fields
      reference_fields st = (inr out, st') /\
    Z.of_nat (length out) = Z.of_nat (length conversations) * N /\
    forall i j c,
      nth_error conversations i = Some c -> (j < Z.to_nat N)%nat ->
      exists e,
        nth_error out (i * Z.to_nat N + j) = Some e /\
        Forall2 (derived_turn chat (static_or_default static_fields)) c e.
Proof.
  intros Hc HN. unfold expand_conversation_dataset.
  destruct (expand_each_derived chat (static_or_default static_fields)
              (match reference_fields with Some l => l | None => [] end)
              (Z.to_nat N) conversations Hc [] st) as (out & st' & E & D).
  exists out, st'. split; [exact E|]. split.
  - pose proof (Forall2_length D) as HL. rewrite length_flat_repeat in HL.
    unfold conversation in *. lia.
  - intros i j c Hi Hj.
    apply (Forall2_nth_error _ _ _ _ _ D).
    now apply nth_error_flat_repeat.
Qed.



(** C2.  When every backend call fails, [expand_conversation_dataset] still
    returns [len(conversations) * N] conversations, each with the turns of
    its original in order, same role and same text; a failed generation call
    makes [paraphrase_text] return its input, and a failed verification call
    makes [verify_paraphrase] return the paraphrase it was given. *)
Theorem backend_down_keeps_text :
  (forall (St : Type) (chat : request -> St -> option pystr * St)
          (conversations : list conversation) (N : Z)
          (static_fields : option (dict bool))
          (reference_fields : option (list pystr)) (st : St),
     (forall req s, fst (chat req s) = None) ->
     Forall (Forall canonical) conversations ->
     0 < N ->
     exists out st',
       expand_conversation_dataset chat conversations N static_fields
         reference_fields st = (inr out, st') /\
       Z.of_nat (length out) = Z.of_nat (length conversations) * N /\
       forall i j c,
         nth_error conversations i = Some c -> (j < Z.to_nat N)%nat ->
         exists e,
           nth_error out (i * Z.to_nat N + j) = Some e /\
           Forall2 (fun t t' => get t' k_from = get t k_from /\
                                get t' k_value = get t k_value) c e) /\
  (forall (St : Type) (chat : request -> St -> option pystr * St)
          text reference_values is_question st,
     (forall q, fst (chat (ParaphraseRequest text reference_values q) st) = None) ->
     fst (paraphrase_text chat text reference_values is_question st) = text) /\
  (forall (St : Type) (chat : request -> St -> option pystr * St)
          original paraphrased reference is_question st,
     fst (chat (VerifyRequest original paraphrased reference is_question) st)
       = None ->
     fst (verify_paraphrase chat original paraphrased reference is_question st)
       = paraphrased).
Proof.
  split; [|split].
  - intros St chat conversations N static_fields reference_fields st Hdown Hc HN.
    destruct (expand_dataset_derived chat conversations N static_fields
                reference_fields st Hc HN) as (out & st' & E & L & D).
    exists out, st'. repeat split; auto.
    intros i j c Hi Hj. destruct (D i j c Hi Hj) as (e & He & F).
    exists e. split; [exact He|].
    eapply Forall2_impl; [|exact F].
    intros t t' (source & value & Hf & Hv & H).
    destruct (static_get _ source).
    + subst. auto.
    + destruct H as (rv & s & ->).
      rewrite paraphrase_text_fallback by (intros q; apply Hdown).
      rewrite Hf, Hv. auto.
  - intros St chat. apply paraphrase_text_fallback.
  - intros St chat. apply verify_paraphrase_fallback.
Qed.

Lemma backend_down_keeps_text_witness :
  exists out st',
    expand_conversation_dataset down_chat [sample_conversation] 2 None None tt
      = (inr out, st') /\
    Z.of_nat (length out) = Z.of_nat (length [sample_conversation]) * 2 /\
    forall i j c,
      nth_error [sample_conversation] i = Some c -> (j < Z.to_nat 2)%nat ->
      exists e,
        nth_error out (i * Z.to_nat 2 + j) = Some e /\
        Forall2 (fun t t' => get t' k_from = get t k_from /\
                             get t' k_value = get t k_value) c e.
Proof.
  apply (proj1 backend_down_keeps_text unit down_chat [sample_conversation] 2
           None None tt).
  - intros req s. reflexivity.
  - repeat constructor.
  - lia.
Defined.

(** C3.  With the policy [{'human': True, 'gpt': False}] every variation of
    a conversation has as many turns as the original and the same role at
    every position, and each turn whose role is ['human'] is the original
    turn, text included.  A ['gpt'] turn may differ: with a backend that
    always answers "Y is X, restated." the answer "X is Y." is replaced.
    A role with no entry in the policy is paraphrased like a role mapped to
    [False]. *)
Theorem static_human_turns_unchanged :
  (forall (St : Type) (chat : request -> St -> option pystr * St)
          (conversations : list conversation) (N : Z)
          (reference_fields : option (list pystr)) (st : St),
     Forall (Forall canonical) conversations ->
     0 < N ->
     exists out st',
       expand_conversation_dataset chat conversations N (Some human_static)
         reference_fields st = (inr out, st') /\
       forall i j c,
         nth_error conversations i = Some c -> (j < Z.to_nat N)%nat ->
         exists e,
           nth_error out (i * Z.to_nat N + j) = Some e /\
           Forall2 (fun t t' => get t' k_from = get t k_from /\
                                (get t k_from = Some human -> t' = t)) c e) /\
  expand_conversation_dataset stub_chat [sample_conversation] 2
    (Some human_static) (Some [human]) tt
  = (inr [ [ [(k_from, human); (k_value, py "What is X?")];
             [(k_from, gpt); (k_value, py "Y is X, restated.")] ];
           [ [(k_from, human); (k_value, py "What is X?")];
             [(k_from, gpt); (k_value, py "Y is X, restated.")] ] ], tt) /\
  (forall (St : Type) (chat : request -> St -> option pystr * St)
          (static_fields : dict bool) reference_values t source value st,
     get t k_from = Some source -> get t k_value = Some value ->
     get static_fields source = None ->
     expand_turn chat static_fields reference_values t st =
       (inr [(k_from, source);
             (k_value, fst (paraphrase_text chat value reference_values
                              (Some (_is_question value)) st))],
        snd (paraphrase_text chat value reference_values
               (Some (_is_question value)) st))).
Proof.
  split; [|split].
  - intros St chat conversations N reference_fields st Hc HN.
    destruct (expand_dataset_derived chat conversations N
                (Some human_static) reference_fields st Hc HN)
      as (out & st' & E & L & D).
    exists out, st'. split; [exact E|].
    intros i j c Hi Hj. destruct (D i j c Hi Hj) as (e & He & F).
    exists e. split; [exact He|].
    eapply Forall2_impl; [|exact F].
    intros t t' Hd. split; [eapply derived_turn_from; eauto|].
    destruct Hd as (source & value & Hf & Hv & H).
    intros Hh. rewrite Hf in Hh. injection Hh as ->. exact H.
  - vm_compute. reflexivity.
  - intros St chat static_fields rv t source value st Hf Hv Hnone.
    unfold expand_turn, bind, lift, getitem, static_get.
    rewrite Hf, Hnone, Hv.
    destruct (paraphrase_text chat value rv (Some (_is_question value)) st).
    reflexivity.
Qed.

Lemma static_human_turns_unchanged_witness :
  exists out st',
    expand_conversation_dataset stub_chat [sample_conversation] 2
      (Some human_static) None tt = (inr out, st') /\
    forall i j c,
      nth_error [sample_conversation] i = Some c -> (j < Z.to_nat 2)%nat ->
      exists e,
        nth_error out (i * Z.to_nat 2 + j) = Some e /\
        Forall2 (fun t t' => get t' k_from = get t k_from /\
                             (get t k_from = Some human -> t' = t)) c e.
Proof.
  apply (proj1 static_human_turns_unchanged unit stub_chat
           [sample_conversation] 2 None tt).
  - repeat constructor.
  - lia.
Defined.

(** The detection in the words of the specification: the trimmed text ends
    in ['?'], or its lower-cased form starts with one of the lead words. *)
Lemma detected_as_question (text : pystr) :
  endswith (strip text) (py "?") = true \/
  (exists w, In w question_words /\ startswith (lower (strip text)) w = true) ->
  _is_question text = true.
Proof.
  unfold _is_question. intros [H|(w & Hw & H)]; apply orb_true_iff.
  - left. unfold endswith, lower in *. rewrite <- map_rev.
    destruct (rev (strip text)) as [|c r]; [discriminate|].
    change (rev (py "?")) with [QMARK] in *. cbn [startswith map] in *.
    apply andb_true_iff in H as [H _]. apply N.eqb_eq in H. subst c.
    reflexivity.
  - right. unfold startswith_any. apply existsb_exists. eauto.
Qed.

(** C6.  Let a text be detected as a question: trimmed of white space it
    ends in ['?'], or its trimmed, lower-cased form starts with one of the
    sixteen lead words.  Whenever the generation call yields a response, so
    that there is a paraphrase to clean, what [paraphrase_text] returns ends
    in ['?'], whatever the response is and whatever the verification call
    does.  This is so when [paraphrase_text] detects the question itself
    ([is_question] left at [None]) and when it is handed the outcome of
    [_is_question], as [expand_conversation_dataset] calls it. *)
Theorem paraphrase_question_mark {St : Type}
    (chat : request -> St -> option pystr * St)
    (text : pystr) (reference_values : dict pystr) (st st1 : St)
    (content : pystr) :
  endswith (strip text) (py "?") = true \/
  (exists w, In w question_words /\ startswith (lower (strip text)) w = true) ->
  chat (ParaphraseRequest text reference_values true) st = (Some content, st1) ->
  endswith (fst (paraphrase_text chat text reference_values None st))
    (py "?") = true /\
  endswith (fst (paraphrase_text chat text reference_values
                   (Some (_is_question text)) st))
    (py "?") = true.
Proof.
  intros Hq Hchat. apply detected_as_question in Hq. split.
  - eapply paraphrase_text_question; eauto.
  - rewrite Hq. eapply paraphrase_text_question; eauto.
Qed.

Lemma paraphrase_question_mark_witness :
  endswith (fst (paraphrase_text stub_chat (py "What is attention") [] None tt))
    (py "?") = true /\
  endswith (fst (paraphrase_text stub_chat (py "What is attention") []
                   (Some (_is_question (py "What is attention"))) tt))
    (py "?") = true.
Proof.
  apply (paraphrase_question_mark stub_chat (py "What is attention") [] tt tt
           (py "Y is X, restated.")).
  - right. exists (py "what"). split; [now left | reflexivity].
  - reflexivity.
Defined.

End Expander.

(* ===================================================================== *)
(** ** [convert_conversations_to_dataframe] *)
(* ===================================================================== *)

Module PairedView.
Import Validator Expander.

(** One row of the data frame. *)
Record row : Type := mk_row {
  instruction : pystr;
  input : pystr;
  output : pystr
}.

Definition fixed_instruction : pystr :=
  py "Answer the user's question about the research paper.".

(** [range(0, stop, 2)] *)
Definition range_step2 (stop : Z) : list nat :=
  map (fun k => 2 * k)%nat (seq 0 (Z.to_nat ((stop + 1) / 2))).

(** [conversation[i]] *)
Definition nth_turn (c : conversation) (i : nat) : exn + turn :=
  match nth_error c i with
  | Some t => inr t
  | None => inl IndexError
  end.

Definition bind {A B : Type} (r : exn + A) (f : A -> exn + B) : exn + B :=
  match r with
  | inl e => inl e
  | inr a => f a
  end.

Notation "x <- r ;; f" := (bind r (fun x => f))
  (at level 61, r at next level, right associativity).

(** The body of the loop over [i], with [data] as built so far. *)
Definition pair_at (c : conversation) (i : nat) (data : list row)
    : exn + list row :=
  if (Z.of_nat i + 1 <? Z.of_nat (length c)) then
    first <- nth_turn c i ;;
    first_from <- getitem first k_from ;;
    if eqb first_from human then
      second <- nth_turn c (i + 1) ;;
      second_from <- getitem second k_from ;;
      if eqb second_from gpt then
        question <- getitem first k_value ;;
        answer <- getitem second k_value ;;
        inr (data ++ [mk_row fixed_instruction question answer])
      else inr data
    else inr data
  else inr data.

Fixpoint pairs_loop (c : conversation) (indices : list nat) (data : list row)
    : exn + list row :=
  match indices with
  | [] => inr data
  | i :: rest => data' <- pair_at c i data ;; pairs_loop c rest data'
  end.

Fixpoint conversations_loop (conversations : list conversation)
    (data : list row) : exn + list row :=
  match conversations with
  | [] => inr data
  | c :: rest =>
      data' <- pairs_loop c (range_step2 (Z.of_nat (length c) - 1)) data ;;
      conversations_loop rest data'
  end.

(** The data frame is the list of its rows. *)
Definition convert_conversations_to_dataframe
    (conversations : list conversation) : exn + list row :=
  conversations_loop conversations [].

(** *** The paired view, in the specification's words *)

(** Cut the conversation into adjacent pairs, left to right; a pair gives a
    row exactly when its first role is ['human'] and its second is ['gpt'];
    a last turn without partner gives nothing. *)
Fixpoint paired_rows (c : conversation) : list row :=
  match c with
  | first :: second :: rest =>
      (if eqb (item first k_from) human && eqb (item second k_from) gpt
       then [mk_row fixed_instruction (item first k_value) (item second k_value)]
       else []) ++ paired_rows rest
  | _ => []
  end.

Definition odd_conversation : conversation :=
  [ [(k_from, human); (k_value, py "Q1")];
    [(k_from, gpt); (k_value, py "A1")];
    [(k_from, human); (k_value, py "Q2")] ].

Lemma range_step2_two (n : nat) :
  range_step2 (Z.of_nat (S (S n)) - 1)
  = 0%nat :: map (fun i => 2 + i)%nat (range_step2 (Z.of_nat n - 1)).
Proof.
  unfold range_step2.
  replace (Z.of_nat (S (S n)) - 1 + 1) with (Z.of_nat n - 1 + 1 + 1 * 2) by lia.
  rewrite Z.div_add by lia.
  assert (H : 0 <= (Z.of_nat n - 1 + 1) / 2) by (apply Z.div_pos; lia).
  rewrite Z2Nat.inj_add by lia.
  replace (Z.to_nat 1) with 1%nat by reflexivity.
  rewrite Nat.add_comm. simpl seq. simpl map.
  f_equal. rewrite <- seq_shift, !map_map.
  apply map_ext. intros k. lia.
Qed.

Lemma range_step2_short : range_step2 (0 - 1) = [] /\ range_step2 (1 - 1) = [].
Proof. split; reflexivity. Qed.

Lemma pair_at_shift (first second : turn) (rest : conversation) (i : nat)
    (data : list row) :
  pair_at (first :: second :: rest) (2 + i) data = pair_at rest i data.
Proof.
  unfold pair_at, nth_turn. simpl length.
  replace (Z.of_nat (2 + i) + 1 <? Z.of_nat (S (S (length rest))))
    with (Z.of_nat i + 1 <? Z.of_nat (length rest)).
  - reflexivity.
  - destruct (Z.ltb_spec (Z.of_nat i + 1) (Z.of_nat (length rest)));
      symmetry; [apply Z.ltb_lt | apply Z.ltb_ge]; lia.
Qed.

Lemma pairs_loop_shift (first second : turn) (rest : conversation)
    (indices : list nat) :
  forall data,
    pairs_loop (first :: second :: rest) (map (fun i => 2 + i)%nat indices) data
    = pairs_loop rest indices data.
Proof.
  induction indices as [|i indices IH]; intros data; cbn [map pairs_loop];
    [reflexivity|].
  rewrite pair_at_shift. unfold bind.
  destruct (pair_at rest i data); [reflexivity | apply IH].
Qed.

(** Induction over a list two elements at a time. *)
Lemma pair_induction {A : Type} (P : list A -> Prop) :
  P [] -> (forall x, P [x]) ->
  (forall x y l, P l -> P (x :: y :: l)) ->
  forall l, P l.
Proof.
  intros H0 H1 H2.
  assert (H : forall l, P l /\ forall x, P (x :: l)).
  { induction l as [|a l [IH1 IH2]]; split; auto. }
  intros l. apply H.
Qed.

Lemma pairs_loop_paired_rows (c : conversation) :
  Forall canonical c ->
  forall data,
    pairs_loop c (range_step2 (Z.of_nat (length c) - 1)) data
    = inr (data ++ paired_rows c).
Proof.
  induction c as [| t | first second rest IH] using pair_induction;
    intros Hc data.
  - simpl. now rewrite app_nil_r.
  - simpl. now rewrite app_nil_r.
  - inversion Hc as [|? ? H1 Hc']; subst.
    inversion Hc' as [|? ? H2 Hrest]; subst.
    destruct (canonical_items _ H1) as (s1 & v1 & Hf1 & Hv1).
    destruct (canonical_items _ H2) as (s2 & v2 & Hf2 & Hv2).
    change (length (first :: second :: rest)) with (S (S (length rest))).
    rewrite range_step2_two. cbn [pairs_loop].
    assert (E : pair_at (first :: second :: rest) 0 data
                = inr (data ++ (if eqb (item first k_from) human
                                   && eqb (item second k_from) gpt
                                then [mk_row fixed_instruction
                                        (item first k_value) (item second k_value)]
                                else []))).
    { unfold pair_at, nth_turn, getitem, item. simpl length.
      replace (Z.of_nat 0 + 1 <? Z.of_nat (S (S (length rest)))) with true
        by (symmetry; apply Z.ltb_lt; lia).
      simpl. rewrite Hf1, Hf2, Hv1, Hv2. simpl.
      destruct (eqb s1 human); simpl; [|now rewrite app_nil_r].
      destruct (eqb s2 gpt); simpl; [reflexivity | now rewrite app_nil_r]. }
    rewrite E. cbn [bind]. rewrite pairs_loop_shift, (IH Hrest).
    cbn [paired_rows].
    now rewrite app_assoc.
Qed.

Lemma conversations_loop_paired_rows (conversations : list conversation) :
  Forall (Forall canonical) conversations ->
  forall data,
    conversations_loop conversations data
    = inr (data ++ flat_map paired_rows conversations).
Proof.
  induction 1 as [|c rest Hc _ IH]; intros data; simpl.
  - now rewrite app_nil_r.
  - rewrite (pairs_loop_paired_rows c Hc). cbn [bind]. rewrite IH.
    now rewrite app_assoc.
Qed.

(** C8.  For conversations whose turns have a ['from'] and a ['value'] key,
    [convert_conversations_to_dataframe] returns, conversation after
    conversation, one row for each adjacent non-overlapping pair whose first
    role is exactly ['human'] and whose second is exactly ['gpt'], and
    nothing for any other pair or for a last turn without partner; the
    conversation human "Q1", gpt "A1", human "Q2" gives the one row pairing
    "Q1" with "A1". *)
Theorem dataframe_is_paired_view :
  (forall conversations,
     Forall (Forall canonical) conversations ->
     convert_conversations_to_dataframe conversations
     = inr (flat_map paired_rows conversations)) /\
  convert_conversations_to_dataframe [odd_conversation]
  = inr [mk_row fixed_instruction (py "Q1") (py "A1")].
Proof.
  split.
  - intros conversations Hc. unfold convert_conversations_to_dataframe.
    now rewrite conversations_loop_paired_rows.
  - vm_compute. reflexivity.
Qed.

Lemma dataframe_is_paired_view_witness :
  convert_conversations_to_dataframe [odd_conversation; sample_conversation]
  = inr (flat_map paired_rows [odd_conversation; sample_conversation]).
Proof.
  apply (proj1 dataframe_is_paired_view).
  repeat constructor.
Defined.

End PairedView.

(* ===================================================================== *)
(** ** [json.dumps] and [json.loads] on conversations *)
(* ===================================================================== *)

(** The two library calls of the persistence code, after CPython's [json]
    package and for the values the code passes: a conversation, that is a
    list of dictionaries from strings to strings.  [dumps] is [json.dumps]
    with its defaults ([ensure_ascii=True], separators [", "] and [": "]);
    [loads] is [json.loads] on texts that denote such a list. *)
Module Json.
Import Validator Expander.
Local Open Scope N_scope.

Definition DQ : N := 34.       (* the double quote *)
Definition BS : N := 92.       (* the backslash *)
Definition LBRACKET : N := 91.
Definition RBRACKET : N := 93.
Definition LBRACE : N := 123.
Definition RBRACE : N := 125.
Definition COMMA : N := 44.
Definition COLON : N := 58.
Definition SPACE : N := 32.
Definition LETTER_U : N := 117.

(** *** Encoding *)

(** One hexadecimal digit, lower case, as ['{:x}'] prints it. *)
Definition hex_digit (d : N) : N := if d <? 10 then 48 + d else 87 + d.

(** ['{0:04x}'.format(n)] for [n < 0x10000] *)
Definition hex4 (n : N) : pystr :=
  [hex_digit (n / 4096 mod 16); hex_digit (n / 256 mod 16);
   hex_digit (n / 16 mod 16); hex_digit (n mod 16)].

(** [0xd800 | ((n >> 10) & 0x3ff)] and [0xdc00 | (n & 0x3ff)], for
    [n = c - 0x10000]. *)
Definition high_surrogate (c : N) : N :=
  N.lor 55296 (N.land (N.shiftr (c - 65536) 10) 1023).

Definition low_surrogate (c : N) : N :=
  N.lor 56320 (N.land (c - 65536) 1023).

(** The replacement of one character by [py_encode_basestring_ascii]:
    its pattern picks the double quote, the backslash and everything
    outside the range from the space to the tilde. *)
Definition escape_char (c : N) : pystr :=
  if c =? DQ then [BS; DQ]
  else if c =? BS then [BS; BS]
  else if c =? 10 then [BS; 110]        (* \n *)
  else if c =? 13 then [BS; 114]        (* \r *)
  else if c =? 9 then [BS; 116]         (* \t *)
  else if c =? 8 then [BS; 98]          (* \b *)
  else if c =? 12 then [BS; 102]        (* \f *)
  else if (32 <=? c) && (c <=? 126) then [c]
  else if c <? 65536 then BS :: LETTER_U :: hex4 c
  else (BS :: LETTER_U :: hex4 (high_surrogate c))
         ++ (BS :: LETTER_U :: hex4 (low_surrogate c)).

Definition escape (s : pystr) : pystr := flat_map escape_char s.

Definition encode_string (s : pystr) : pystr := DQ :: escape s ++ [DQ].

(** [sep.join(parts)] *)
Fixpoint join (sep : pystr) (parts : list pystr) : pystr :=
  match parts with
  | [] => []
  | [x] => x
  | x :: rest => x ++ sep ++ join sep rest
  end.

Definition encode_item (kv : pystr * pystr) : pystr :=
  encode_string (fst kv) ++ [COLON; SPACE] ++ encode_string (snd kv).

Definition encode_dict (d : turn) : pystr :=
  LBRACE :: join [COMMA; SPACE] (map encode_item d) ++ [RBRACE].

(** [json.dumps(conversation)] *)
Definition dumps (c : conversation) : pystr :=
  LBRACKET :: join [COMMA; SPACE] (map encode_dict c) ++ [RBRACKET].

(** *** Decoding *)

(** JSON white space: [[ \t\n\r]]. *)
Definition is_ws (c : N) : bool :=
  (c =? 32) || (c =? 9) || (c =? 10) || (c =? 13).

Definition skip_ws (s : pystr) : pystr := lstrip_by is_ws s.

Definition hex_value (c : N) : option N :=
  if (48 <=? c) && (c <=? 57) then Some (c - 48)
  else if (97 <=? c) && (c <=? 102) then Some (c - 87)
  else if (65 <=? c) && (c <=? 70) then Some (c - 55)
  else None.

Definition hex4_value (a b c d : N) : option N :=
  match hex_value a, hex_value b, hex_value c, hex_value d with
  | Some x, Some y, Some z, Some w => Some (4096 * x + 256 * y + 16 * z + w)
  | _, _, _, _ => None
  end.

Definition is_high_surrogate (c : N) : bool := (55296 <=? c) && (c <=? 56319).
Definition is_low_surrogate (c : N) : bool := (56320 <=? c) && (c <=? 57343).

(** [0x10000 + (((uni - 0xd800) << 10) | (uni2 - 0xdc00))] *)
Definition join_surrogates (uni uni2 : N) : N :=
  65536 + N.lor (N.shiftl (uni - 55296) 10) (uni2 - 56320).

(** The escapes of one character after the backslash. *)
Definition simple_escape (e : N) : option N :=
  if e =? DQ then Some DQ
  else if e =? BS then Some BS
  else if e =? 47 then Some 47          (* / *)
  else if e =? 98 then Some 8
  else if e =? 102 then Some 12
  else if e =? 110 then Some 10
  else if e =? 114 then Some 13
  else if e =? 116 then Some 9
  else None.

(** What follows a high surrogate escape. *)
Inductive lookahead : Type :=
| NoPair              (* not a [\u] escape, or one that is no low surrogate *)
| Pair (uni2 : N)     (* the escape of a low surrogate *)
| BadEscape.          (* [\u] without four hexadecimal digits *)

Definition low_escape (s : pystr) : lookahead :=
  match s with
  | b :: s1 =>
      if b =? BS then
        match s1 with
        | u :: s2 =>
            if u =? LETTER_U then
              match s2 with
              | g1 :: g2 :: g3 :: g4 :: _ =>
                  match hex4_value g1 g2 g3 g4 with
                  | Some uni2 => if is_low_surrogate uni2 then Pair uni2 else NoPair
                  | None => BadEscape
                  end
              | _ => BadEscape
              end
            else NoPair
        | [] => NoPair
        end
      else NoPair
  | [] => NoPair
  end.

Definition cons_char (c : N) (r : option (pystr * pystr)) : option (pystr * pystr) :=
  match r with
  | Some (s, rest) => Some (c :: s, rest)
  | None => None
  end.

(** [scanstring] in strict mode, from just behind the opening quote: the
    string and what follows its closing quote. *)
Fixpoint scanstring (s : pystr) : option (pystr * pystr) :=
  match s with
  | [] => None
  | c :: rest =>
      if c =? DQ then Some ([], rest)
      else if c =? BS then
        match rest with
        | [] => None
        | e :: rest1 =>
            if e =? LETTER_U then
              match rest1 with
              | h1 :: h2 :: h3 :: h4 :: rest2 =>
                  match hex4_value h1 h2 h3 h4 with
                  | None => None
                  | Some uni =>
                      match (if is_high_surrogate uni then low_escape rest2
                             else NoPair) with
                      | NoPair => cons_char uni (scanstring rest2)
                      | BadEscape => None
                      | Pair uni2 =>
                          match rest2 with
                          | _ :: _ :: _ :: _ :: _ :: _ :: rest4 =>
                              cons_char (join_surrogates uni uni2) (scanstring rest4)
                          | _ => None
                          end
                      end
                  end
              | _ => None
              end
            else
              match simple_escape e with
              | Some c' => cons_char c' (scanstring rest1)
              | None => None
              end
        end
      else if c <? 32 then None
      else cons_char c (scanstring rest)
  end.

(** The loop of [JSONObject], from just behind the opening quote of a key,
    with the pairs read so far; [dict(pairs)] keeps the place of the first
    occurrence of a key and the value of the last.  A member value that is
    not a string is outside the texts modelled. *)
Fixpoint parse_members (fuel : nat) (s : pystr) (pairs : turn)
    : option (turn * pystr) :=
  match fuel with
  | O => None
  | S fuel' =>
      match scanstring s with
      | None => None
      | Some (key, s1) =>
          match skip_ws s1 with
          | c :: s2 =>
              if c =? COLON then
                match skip_ws s2 with
                | q :: s3 =>
                    if q =? DQ then
                      match scanstring s3 with
                      | None => None
                      | Some (value, s4) =>
                          let pairs' := set pairs key value in
                          match skip_ws s4 with
                          | n :: s5 =>
                              if n =? RBRACE then Some (pairs', s5)
                              else if n =? COMMA then
                                match skip_ws s5 with
                                | q2 :: s6 =>
                                    if q2 =? DQ then parse_members fuel' s6 pairs'
                                    else None
                                | [] => None
                                end
                              else None
                          | [] => None
                          end
                      end
                    else None
                | [] => None
                end
              else None
          | [] => None
          end
      end
  end.

(** [JSONObject], from just behind the opening brace. *)
Definition parse_object (fuel : nat) (s : pystr) : option (turn * pystr) :=
  match skip_ws s with
  | c :: s1 =>
      if c =? RBRACE then Some ([], s1)
      else if c =? DQ then parse_members fuel s1 []
      else None
  | [] => None
  end.

(** The loop of [JSONArray], at the start of an element, with the values
    read so far.  An element that is not an object is outside the texts
    modelled. *)
Fixpoint parse_elements (fuel : nat) (s : pystr) (values : conversation)
    : option (conversation * pystr) :=
  match fuel with
  | O => None
  | S fuel' =>
      match s with
      | c :: s1 =>
          if c =? LBRACE then
            match parse_object fuel' s1 with
            | None => None
            | Some (value, s2) =>
                let values' := values ++ [value] in
                match skip_ws s2 with
                | n :: s3 =>
                    if n =? RBRACKET then Some (values', s3)
                    else if n =? COMMA then parse_elements fuel' (skip_ws s3) values'
                    else None
                | [] => None
                end
            end
          else None
      | [] => None
      end
  end.

(** [JSONArray], from just behind the opening bracket. *)
Definition parse_array (fuel : nat) (s : pystr) : option (conversation * pystr) :=
  match skip_ws s with
  | c :: s1 =>
      if c =? RBRACKET then Some ([], s1)
      else parse_elements fuel (c :: s1) []
  | [] => None
  end.

(** [json.loads(s)]: white space, one value, white space, end of text.
    [None] stands for [JSONDecodeError], and also for a text denoting a
    value that is not a list of dictionaries of strings. *)
Definition loads (s : pystr) : option conversation :=
  match skip_ws s with
  | c :: s1 =>
      if c =? LBRACKET then
        match parse_array (length s) s1 with
        | Some (value, rest) =>
            match skip_ws rest with
            | [] => Some value
            | _ :: _ => None
            end
        | None => None
        end
      else None
  | [] => None
  end.

(** *** Well-formed strings, and the text of a conversation piece by piece *)

(** A character that [dumps] may write: between the space and the tilde. *)
Definition printable (c : N) : bool := (32 <=? c) && (c <=? 126).

(** A Python string holds code points below [0x110000].  A high surrogate
    directly followed by a low surrogate is what the decoder joins into one
    character. *)
Fixpoint no_surrogate_pair (s : pystr) : bool :=
  match s with
  | c :: rest =>
      match rest with
      | c2 :: _ => negb (is_high_surrogate c && is_low_surrogate c2)
      | [] => true
      end && no_surrogate_pair rest
  | [] => true
  end.

Definition code_points (s : pystr) : bool := forallb (fun c => c <? 1114112) s.

Definition wf_str (s : pystr) : bool := code_points s && no_surrogate_pair s.

(** The four shapes of [escape_char c]. *)
Inductive escaped (c : N) : pystr -> Prop :=
| esc_plain :
    printable c = true -> c <> DQ -> c <> BS -> escaped c [c]
| esc_short (e : N) :
    simple_escape e = Some c -> e <> LETTER_U -> printable e = true ->
    escaped c [BS; e]
| esc_u :
    c < 65536 -> escaped c (BS :: LETTER_U :: hex4 c)
| esc_pair :
    65536 <= c -> c < 1114112 ->
    escaped c ((BS :: LETTER_U :: hex4 (high_surrogate c))
                 ++ (BS :: LETTER_U :: hex4 (low_surrogate c))).

(** A dictionary has one entry per key. *)
Definition wf_turn (t : turn) : Prop :=
  NoDup (keys t) /\
  Forall (fun kv => wf_str (fst kv) = true /\ wf_str (snd kv) = true) t.

Definition wf_conversation (c : conversation) : Prop := Forall wf_turn c.

(** The text of the members of a dictionary from just behind the opening
    quote of the first key [fst kv], up to the closing brace, followed by
    [rest]. *)
Fixpoint members_text (kv : pystr * pystr) (more : turn) (rest : pystr) : pystr :=
  escape (fst kv) ++ DQ :: COLON :: SPACE :: DQ :: escape (snd kv) ++ DQ ::
    match more with
    | [] => RBRACE :: rest
    | kv' :: more' => COMMA :: SPACE :: DQ :: members_text kv' more' rest
    end.

Definition add_pair (pairs : turn) (kv : pystr * pystr) : turn :=
  set pairs (fst kv) (snd kv).

(** The text of the elements of a list from its first element [t] up to the
    closing bracket, followed by [rest]. *)
Fixpoint elements_text (t : turn) (more : conversation) (rest : pystr) : pystr :=
  encode_dict t ++
    match more with
    | [] => RBRACKET :: rest
    | t' :: more' => COMMA :: SPACE :: elements_text t' more' rest
    end.

(** *** Hexadecimal digits and surrogates *)

Lemma hex_digit_value (d : N) : d < 16 -> hex_value (hex_digit d) = Some d.
Proof.
  intros H.
  assert (E : d = 0 \/ d = 1 \/ d = 2 \/ d = 3 \/ d = 4 \/ d = 5 \/ d = 6 \/
              d = 7 \/ d = 8 \/ d = 9 \/ d = 10 \/ d = 11 \/ d = 12 \/
              d = 13 \/ d = 14 \/ d = 15) by lia.
  repeat (destruct E as [-> | E]; [reflexivity|]). subst. reflexivity.
Qed.

Lemma hex_digit_printable (d : N) : d < 16 -> printable (hex_digit d) = true.
Proof.
  intros H. unfold printable, hex_digit.
  destruct (N.ltb_spec d 10); apply andb_true_iff; split; apply N.leb_le; lia.
Qed.

Lemma mod16_lt (n : N) : n mod 16 < 16.
Proof. apply N.mod_lt. discriminate. Qed.

Lemma hex4_value_hex4 (n : N) :
  n < 65536 ->
  hex4_value (hex_digit (n / 4096 mod 16)) (hex_digit (n / 256 mod 16))
             (hex_digit (n / 16 mod 16)) (hex_digit (n mod 16)) = Some n.
Proof.
  intros H. unfold hex4_value.
  rewrite !hex_digit_value by apply mod16_lt. f_equal.
  pose proof (N.div_mod n 16 ltac:(discriminate)) as E0.
  pose proof (N.div_mod (n / 16) 16 ltac:(discriminate)) as E1.
  pose proof (N.div_mod (n / 16 / 16) 16 ltac:(discriminate)) as E2.
  assert (D2 : n / 256 = n / 16 / 16)
    by (rewrite N.Div0.div_div; reflexivity).
  assert (D3 : n / 4096 = n / 16 / 16 / 16)
    by (rewrite !N.Div0.div_div; reflexivity).
  assert (S3 : n / 16 / 16 / 16 < 16).
  { rewrite !N.Div0.div_div. apply N.Div0.div_lt_upper_bound. simpl. lia. }
  rewrite D2, D3. rewrite (N.mod_small _ _ S3).
  pose proof (N.div_mod (n / 16 / 16 / 16) 16 ltac:(discriminate)) as E3.
  pose proof (mod16_lt n). pose proof (mod16_lt (n / 16)).
  pose proof (mod16_lt (n / 16 / 16)).
  lia.
Qed.

Lemma hex4_printable (n : N) : forallb printable (hex4 n) = true.
Proof.
  unfold hex4. simpl. rewrite !hex_digit_printable by apply mod16_lt.
  reflexivity.
Qed.

Lemma land_shifted_small (a b k : N) : b < 2 ^ k -> N.land (a * 2 ^ k) b = 0.
Proof.
  intros Hb. apply N.bits_inj_0. intros n. rewrite N.land_spec.
  destruct (N.lt_ge_cases n k) as [Hn | Hn].
  - rewrite N.mul_pow2_bits_low by exact Hn. reflexivity.
  - rewrite <- (N.mod_small b (2 ^ k)) by exact Hb.
    rewrite N.mod_pow2_bits_high by exact Hn. apply andb_false_r.
Qed.

Lemma lor_shifted_small (a b k : N) :
  b < 2 ^ k -> N.lor (a * 2 ^ k) b = a * 2 ^ k + b.
Proof.
  intros Hb. pose proof (land_shifted_small a b k Hb) as H0.
  rewrite <- (N.lxor_lor _ _ H0). symmetry. now apply N.add_nocarry_lxor.
Qed.

Lemma high_surrogate_eq (c : N) :
  65536 <= c -> c < 1114112 ->
  high_surrogate c = 55296 + (c - 65536) / 1024.
Proof.
  intros H1 H2. unfold high_surrogate.
  rewrite N.shiftr_div_pow2. change (2 ^ 10) with 1024.
  change 1023 with (N.ones 10). rewrite N.land_ones. change (2 ^ 10) with 1024.
  assert (Hs : (c - 65536) / 1024 < 1024)
    by (apply N.Div0.div_lt_upper_bound; lia).
  rewrite (N.mod_small _ _ Hs).
  change 55296 with (54 * 2 ^ 10) at 1. rewrite lor_shifted_small by exact Hs.
  reflexivity.
Qed.

Lemma low_surrogate_eq (c : N) :
  low_surrogate c = 56320 + (c - 65536) mod 1024.
Proof.
  unfold low_surrogate.
  change 1023 with (N.ones 10). rewrite N.land_ones. change (2 ^ 10) with 1024.
  change 56320 with (55 * 2 ^ 10) at 1.
  rewrite lor_shifted_small by (apply N.mod_lt; discriminate).
  reflexivity.
Qed.

Lemma surrogates_of_char (c : N) :
  65536 <= c -> c < 1114112 ->
  is_high_surrogate (high_surrogate c) = true /\
  is_low_surrogate (low_surrogate c) = true /\
  high_surrogate c < 65536 /\ low_surrogate c < 65536 /\
  join_surrogates (high_surrogate c) (low_surrogate c) = c.
Proof.
  intros H1 H2. rewrite high_surrogate_eq, low_surrogate_eq by assumption.
  assert (Hs : (c - 65536) / 1024 < 1024)
    by (apply N.Div0.div_lt_upper_bound; lia).
  assert (Hm : (c - 65536) mod 1024 < 1024) by (apply N.mod_lt; discriminate).
  pose proof (N.div_mod (c - 65536) 1024 ltac:(discriminate)) as E.
  unfold is_high_surrogate, is_low_surrogate, join_surrogates.
  generalize dependent ((c - 65536) / 1024). intros q Hs E.
  generalize dependent ((c - 65536) mod 1024). intros m Hm E.
  repeat split.
  - apply andb_true_iff; split; apply N.leb_le; lia.
  - apply andb_true_iff; split; apply N.leb_le; lia.
  - lia.
  - lia.
  - replace (55296 + q - 55296) with q by lia.
    replace (56320 + m - 56320) with m by lia.
    rewrite N.shiftl_mul_pow2. rewrite lor_shifted_small by exact Hm.
    change (2 ^ 10) with 1024. lia.
Qed.

(** *** Strings as the encoder writes them *)

Lemma escape_char_escaped (c : N) : c < 1114112 -> escaped c (escape_char c).
Proof.
  intros Hc. unfold escape_char.
  destruct (N.eqb_spec c DQ) as [-> | HDQ];
    [apply (esc_short _ DQ); [reflexivity | discriminate | reflexivity]|].
  destruct (N.eqb_spec c BS) as [-> | HBS];
    [apply (esc_short _ BS); [reflexivity | discriminate | reflexivity]|].
  destruct (N.eqb_spec c 10) as [-> | H10];
    [apply (esc_short _ 110); [reflexivity | discriminate | reflexivity]|].
  destruct (N.eqb_spec c 13) as [-> | H13];
    [apply (esc_short _ 114); [reflexivity | discriminate | reflexivity]|].
  destruct (N.eqb_spec c 9) as [-> | H9];
    [apply (esc_short _ 116); [reflexivity | discriminate | reflexivity]|].
  destruct (N.eqb_spec c 8) as [-> | H8];
    [apply (esc_short _ 98); [reflexivity | discriminate | reflexivity]|].
  destruct (N.eqb_spec c 12) as [-> | H12];
    [apply (esc_short _ 102); [reflexivity | discriminate | reflexivity]|].
  destruct ((32 <=? c) && (c <=? 126)) eqn:Ep; [now apply esc_plain|].
  destruct (N.ltb_spec c 65536); [now apply esc_u | now apply esc_pair].
Qed.

Lemma escaped_printable (c : N) (e : pystr) :
  escaped c e -> forallb printable e = true.
Proof.
  intros [Hp _ _ | e' _ _ Hp | _ | _ _].
  - simpl. now rewrite Hp.
  - simpl. now rewrite Hp.
  - cbn [forallb]. now rewrite hex4_printable.
  - rewrite forallb_app. cbn [forallb]. now rewrite !hex4_printable.
Qed.

(** After the escape of a high surrogate that is not followed by a low
    surrogate, the decoder finds nothing to join. *)
Lemma low_escape_no_pair (c : N) (s rest : pystr) :
  is_high_surrogate c = true ->
  wf_str (c :: s) = true ->
  low_escape (escape s ++ DQ :: rest) = NoPair.
Proof.
  intros Hhigh Hwf. destruct s as [|c2 s]; [reflexivity|].
  unfold wf_str in Hwf. apply andb_true_iff in Hwf as [Hcp Hns].
  cbn [code_points forallb] in Hcp.
  apply andb_true_iff in Hcp as [_ Hcp]. apply andb_true_iff in Hcp as [Hc2 _].
  apply N.ltb_lt in Hc2.
  cbn [no_surrogate_pair] in Hns. apply andb_true_iff in Hns as [Hpair _].
  rewrite Hhigh in Hpair. simpl in Hpair. apply negb_true_iff in Hpair.
  unfold escape. cbn [flat_map]. rewrite <- app_assoc.
  destruct (escape_char_escaped c2 Hc2) as [Hp HDQ HBS | e He Hu Hp | Hlt | Hge Hlt].
  - cbn [app low_escape]. apply N.eqb_neq in HBS. now rewrite HBS.
  - cbn [app low_escape]. apply N.eqb_neq in Hu.
    replace (BS =? BS) with true by reflexivity. now rewrite Hu.
  - cbn [app low_escape hex4].
    replace (BS =? BS) with true by reflexivity.
    replace (LETTER_U =? LETTER_U) with true by reflexivity.
    rewrite hex4_value_hex4 by exact Hlt. now rewrite Hpair.
  - destruct (surrogates_of_char c2 Hge Hlt) as (Hh & _ & Hhlt & _).
    cbn [app low_escape hex4].
    replace (BS =? BS) with true by reflexivity.
    replace (LETTER_U =? LETTER_U) with true by reflexivity.
    rewrite hex4_value_hex4 by exact Hhlt.
    unfold is_high_surrogate in Hh. unfold is_low_surrogate.
    apply andb_true_iff in Hh as [_ Hh]. apply N.leb_le in Hh.
    replace (56320 <=? high_surrogate c2) with false
      by (symmetry; apply N.leb_gt; lia).
    reflexivity.
Qed.

Lemma wf_str_tail (c : N) (s : pystr) : wf_str (c :: s) = true -> wf_str s = true.
Proof.
  unfold wf_str. cbn [code_points forallb no_surrogate_pair].
  intros H. apply andb_true_iff in H as [H1 H2].
  apply andb_true_iff in H1 as [_ H1]. apply andb_true_iff in H2 as [_ H2].
  unfold code_points. now rewrite H1, H2.
Qed.

Lemma wf_str_head (c : N) (s : pystr) : wf_str (c :: s) = true -> c < 1114112.
Proof.
  unfold wf_str. cbn [code_points forallb].
  intros H. apply andb_true_iff in H as [H1 _].
  apply andb_true_iff in H1 as [H1 _]. now apply N.ltb_lt.
Qed.

(** Reading back an encoded string. *)
Lemma scanstring_escape (s rest : pystr) :
  wf_str s = true ->
  scanstring (escape s ++ DQ :: rest) = Some (s, rest).
Proof.
  induction s as [|c s IH]; intros Hwf; [reflexivity|].
  pose proof (wf_str_head _ _ Hwf) as Hc.
  specialize (IH (wf_str_tail _ _ Hwf)).
  unfold escape in *. cbn [flat_map]. rewrite <- app_assoc.
  destruct (escape_char_escaped c Hc) as [Hp HDQ HBS | e He Hu Hp | Hlt | Hge Hlt].
  - cbn [app scanstring].
    apply N.eqb_neq in HDQ, HBS. rewrite HDQ, HBS.
    unfold printable in Hp. apply andb_true_iff in Hp as [Hp _].
    apply N.leb_le in Hp.
    replace (c <? 32) with false by (symmetry; apply N.ltb_ge; exact Hp).
    now rewrite IH.
  - cbn [app scanstring].
    replace (BS =? DQ) with false by reflexivity.
    replace (BS =? BS) with true by reflexivity.
    apply N.eqb_neq in Hu. rewrite Hu, He. now rewrite IH.
  - cbn [app scanstring hex4].
    replace (BS =? DQ) with false by reflexivity.
    replace (BS =? BS) with true by reflexivity.
    replace (LETTER_U =? LETTER_U) with true by reflexivity.
    rewrite hex4_value_hex4 by exact Hlt.
    destruct (is_high_surrogate c) eqn:Hh.
    + fold (escape s). rewrite (low_escape_no_pair c s rest Hh Hwf).
      unfold escape. now rewrite IH.
    + now rewrite IH.
  - destruct (surrogates_of_char c Hge Hlt) as (Hh & Hl & Hhlt & Hllt & Hj).
    cbn [app scanstring hex4].
    replace (BS =? DQ) with false by reflexivity.
    replace (BS =? BS) with true by reflexivity.
    replace (LETTER_U =? LETTER_U) with true by reflexivity.
    rewrite hex4_value_hex4 by exact Hhlt. rewrite Hh.
    cbn [low_escape].
    replace (BS =? BS) with true by reflexivity.
    replace (LETTER_U =? LETTER_U) with true by reflexivity.
    rewrite hex4_value_hex4 by exact Hllt. rewrite Hl, Hj. now rewrite IH.
Qed.

(** *** Reading back an encoded conversation *)

Lemma join_items_text (kv : pystr * pystr) (more : turn) (rest : pystr) :
  join [COMMA; SPACE] (map encode_item (kv :: more)) ++ RBRACE :: rest
  = DQ :: members_text kv more rest.
Proof.
  revert kv. induction more as [|kv' more IH]; intros kv.
  - cbn [map join members_text]. unfold encode_item, encode_string.
    cbn [app]. rewrite <- !app_assoc. cbn [app]. rewrite <- !app_assoc.
    reflexivity.
  - change (join [COMMA; SPACE] (map encode_item (kv :: kv' :: more)))
      with (encode_item kv ++ [COMMA; SPACE]
              ++ join [COMMA; SPACE] (map encode_item (kv' :: more))).
    rewrite <- !app_assoc. rewrite IH. cbn [members_text].
    unfold encode_item, encode_string.
    cbn [app]. rewrite <- !app_assoc. cbn [app]. rewrite <- !app_assoc.
    reflexivity.
Qed.

Lemma encode_dict_text (t : turn) (rest : pystr) :
  encode_dict t ++ rest
  = LBRACE :: match t with
              | [] => RBRACE :: rest
              | kv :: more => DQ :: members_text kv more rest
              end.
Proof.
  unfold encode_dict. destruct t as [|kv more]; [reflexivity|].
  cbn [app]. rewrite <- app_assoc. cbn [app]. now rewrite join_items_text.
Qed.

Lemma members_text_length (kv : pystr * pystr) (more : turn) (rest : pystr) :
  (length rest <= length (members_text kv more rest))%nat.
Proof.
  revert kv. induction more as [|kv' more IH]; intros kv;
    cbn [members_text]; rewrite length_app; cbn [length];
    rewrite length_app; cbn [length]; [lia|].
  specialize (IH kv'). lia.
Qed.

Lemma parse_members_text (more : turn) :
  forall kv rest pairs fuel,
    Forall (fun kv => wf_str (fst kv) = true /\ wf_str (snd kv) = true)
      (kv :: more) ->
    (length (members_text kv more rest) <= fuel)%nat ->
    parse_members fuel (members_text kv more rest) pairs
    = Some (fold_left add_pair (kv :: more) pairs, rest).
Proof.
  induction more as [|kv' more IH]; intros kv rest pairs fuel Hwf Hfuel;
    inversion Hwf as [|? ? [Hk Hv] Hmore]; subst.
  - destruct fuel as [|fuel];
      [cbn [members_text] in Hfuel; rewrite length_app in Hfuel;
       simpl in Hfuel; lia|].
    cbn [members_text parse_members].
    rewrite (scanstring_escape _ _ Hk). cbn.
    rewrite (scanstring_escape _ _ Hv). cbn. reflexivity.
  - destruct fuel as [|fuel];
      [cbn [members_text] in Hfuel; rewrite length_app in Hfuel;
       simpl in Hfuel; lia|].
    cbn [members_text parse_members].
    rewrite (scanstring_escape _ _ Hk). cbn.
    rewrite (scanstring_escape _ _ Hv). cbn.
    rewrite (IH kv' rest _ fuel Hmore); [reflexivity|].
    cbn [members_text] in Hfuel. rewrite !length_app in Hfuel.
    cbn [length] in Hfuel. rewrite !length_app in Hfuel.
    cbn [length] in Hfuel. lia.
Qed.

Lemma fold_add_pair_fresh (t : turn) :
  forall pairs,
    NoDup (keys pairs ++ keys t) -> fold_left add_pair t pairs = pairs ++ t.
Proof.
  induction t as [|[k v] t IH]; intros pairs Hnd; simpl.
  - now rewrite app_nil_r.
  - unfold add_pair at 2. cbn [fst snd].
    assert (Hfresh : ~ In k (keys pairs)).
    { cbn [keys map fst] in Hnd. apply NoDup_remove_2 in Hnd.
      intros Hin. apply Hnd. apply in_or_app. now left. }
    rewrite (set_fresh pairs k v Hfresh). rewrite IH.
    + rewrite <- app_assoc. reflexivity.
    + unfold keys in *. rewrite map_app. cbn [map fst].
      rewrite <- app_assoc. exact Hnd.
Qed.

Lemma parse_object_text (t : turn) (rest : pystr) (fuel : nat) :
  wf_turn t ->
  (length (encode_dict t ++ rest) <= S fuel)%nat ->
  parse_object fuel (match t with
                     | [] => RBRACE :: rest
                     | kv :: more => DQ :: members_text kv more rest
                     end)
  = Some (t, rest).
Proof.
  intros [Hnd Hwf] Hfuel. rewrite encode_dict_text in Hfuel.
  destruct t as [|kv more]; [reflexivity|].
  unfold parse_object. cbn.
  rewrite parse_members_text; [|exact Hwf|cbn [length] in Hfuel; lia].
  now rewrite (fold_add_pair_fresh (kv :: more) [] Hnd).
Qed.

Lemma join_dicts_text (t : turn) (more : conversation) (rest : pystr) :
  join [COMMA; SPACE] (map encode_dict (t :: more)) ++ RBRACKET :: rest
  = elements_text t more rest.
Proof.
  revert t. induction more as [|t' more IH]; intros t.
  - reflexivity.
  - change (join [COMMA; SPACE] (map encode_dict (t :: t' :: more)))
      with (encode_dict t ++ [COMMA; SPACE]
              ++ join [COMMA; SPACE] (map encode_dict (t' :: more))).
    rewrite <- !app_assoc. rewrite IH. reflexivity.
Qed.

Lemma parse_elements_text (more : conversation) :
  forall t rest values fuel,
    wf_conversation (t :: more) ->
    (length (elements_text t more rest) <= fuel)%nat ->
    parse_elements fuel (elements_text t more rest) values
    = Some (values ++ t :: more, rest).
Proof.
  induction more as [|t' more IH]; intros t rest values fuel Hwf Hfuel;
    inversion Hwf as [|? ? Ht Hmore]; subst.
  - cbn [elements_text] in *. rewrite encode_dict_text in *.
    destruct fuel as [|fuel]; [cbn [length] in Hfuel; lia|].
    cbn [parse_elements].
    replace (LBRACE =? LBRACE) with true by reflexivity.
    rewrite parse_object_text;
      [|exact Ht|rewrite encode_dict_text; exact Hfuel].
    reflexivity.
  - cbn [elements_text] in *. rewrite encode_dict_text in *.
    destruct fuel as [|fuel]; [cbn [length] in Hfuel; lia|].
    cbn [parse_elements].
    replace (LBRACE =? LBRACE) with true by reflexivity.
    rewrite parse_object_text;
      [|exact Ht|rewrite encode_dict_text; exact Hfuel].
    change (skip_ws (COMMA :: SPACE :: elements_text t' more rest))
      with (COMMA :: SPACE :: elements_text t' more rest).
    cbv iota beta.
    replace (COMMA =? RBRACKET) with false by reflexivity.
    replace (COMMA =? COMMA) with true by reflexivity.
    change (skip_ws (SPACE :: elements_text t' more rest))
      with (skip_ws (elements_text t' more rest)).
    assert (Hskip : skip_ws (elements_text t' more rest)
                    = elements_text t' more rest).
    { destruct more; cbn [elements_text]; rewrite encode_dict_text; reflexivity. }
    rewrite Hskip.
    rewrite (IH t' rest _ fuel Hmore).
    + now rewrite <- app_assoc.
    + clear - Hfuel.
      destruct t as [|kv kvs]; cbn [length] in Hfuel; [lia|].
      pose proof (members_text_length kv kvs
                    (COMMA :: SPACE :: elements_text t' more rest)) as HL.
      cbn [length] in HL. lia.
Qed.

(** [json.loads(json.dumps(c)) == c] for a well-formed conversation. *)
Lemma loads_dumps (c : conversation) :
  wf_conversation c -> loads (dumps c) = Some c.
Proof.
  intros Hwf. unfold loads, dumps.
  cbn [skip_ws lstrip_by is_ws N.eqb Pos.eqb orb LBRACKET].
  replace (91 =? 91) with true by reflexivity.
  destruct c as [|t more]; [reflexivity|].
  rewrite <- (app_nil_r [RBRACKET]).
  change ([RBRACKET] ++ []) with (RBRACKET :: []).
  rewrite join_dicts_text.
  unfold parse_array.
  assert (Hskip : skip_ws (elements_text t more []) = elements_text t more []).
  { destruct more; cbn [elements_text]; rewrite encode_dict_text; reflexivity. }
  rewrite Hskip.
  assert (Hhead : exists s1, elements_text t more [] = LBRACE :: s1).
  { destruct more; cbn [elements_text]; rewrite encode_dict_text; eauto. }
  destruct Hhead as (s1 & Hs1). rewrite Hs1.
  replace (LBRACE =? RBRACKET) with false by reflexivity.
  rewrite <- Hs1.
  rewrite (parse_elements_text more t [] [] _ Hwf); [reflexivity|].
  cbn [length]. lia.
Qed.

End Json.

(* ===================================================================== *)
(** ** [save_conversations_to_jsonl] and [load_conversations_from_jsonl] *)
(* ===================================================================== *)

Module Persistence.
Import Validator Expander Json.

(** The files, by path: the text each one holds.  Opening a file for
    writing succeeds and empties it; a line ends in ['\n'] on disk. *)
Definition filesystem := dict pystr.

(** [os.path.join(a, b)] (POSIX) *)
Definition os_path_join (a b : pystr) : pystr :=
  if startswith b (py "/") then b
  else if match a with [] => true | _ :: _ => endswith a (py "/") end then a ++ b
  else a ++ py "/" ++ b.

(** The [for conversation in conversations: f.write(...)] loop, with the
    text written so far. *)
Fixpoint write_lines (conversations : list conversation) (written : pystr)
    : pystr :=
  match conversations with
  | [] => written
  | c :: rest => write_lines rest (written ++ (dumps c ++ [NL]))
  end.

(** Returns the path written to, and the files afterwards. *)
Definition save_conversations_to_jsonl (output_dir : pystr)
    (conversations : list conversation) (filename : pystr) (fs : filesystem)
    : pystr * filesystem :=
  let output_path := os_path_join output_dir (filename ++ py ".jsonl") in
  (output_path, set fs output_path (write_lines conversations [])).

(** [for line in f], the file being open in text mode with universal
    newlines: ['\n'], ['\r\n'] and ['\r'] all end a line and read as
    ['\n']; [current] is the line read so far. *)
Fixpoint split_lines (text : pystr) (current : pystr) : list pystr :=
  match text with
  | [] => match current with [] => [] | _ :: _ => [current] end
  | c :: rest =>
      if N.eqb c NL then (current ++ [NL]) :: split_lines rest []
      else if N.eqb c CR then
        match rest with
        | c2 :: rest2 =>
            if N.eqb c2 NL then (current ++ [NL]) :: split_lines rest2 []
            else (current ++ [NL]) :: split_lines rest []
        | [] => [current ++ [NL]]
        end
      else split_lines rest (current ++ [c])
  end.

(** The loop over the lines, with the conversations read so far.  A line
    that is not the JSON text of a conversation ends the loop with
    [JSONDecodeError]. *)
Fixpoint read_lines (lines : list pystr) (conversations : list conversation)
    : exn + list conversation :=
  match lines with
  | [] => inr conversations
  | line :: rest =>
      match loads (strip line) with
      | Some conversation => read_lines rest (conversations ++ [conversation])
      | None => inl JSONDecodeError
      end
  end.

Definition load_conversations_from_jsonl (file_path : pystr) (fs : filesystem)
    : exn + list conversation :=
  match get fs file_path with
  | Some text => read_lines (split_lines text []) []
  | None => inl FileNotFoundError
  end.

(** A text of two code points, the surrogates D83D and DE00, which
    [json.dumps] writes as two escapes and [json.loads] reads as the one
    character 1F600. *)
Definition surrogate_batch : list conversation :=
  [ [ [(k_from, human); (k_value, [55357; 56832]%N)] ] ].

(** *** What [dumps] writes *)

Lemma forallb_join (p : N -> bool) (sep : pystr) (parts : list pystr) :
  forallb p sep = true ->
  Forall (fun x => forallb p x = true) parts ->
  forallb p (join sep parts) = true.
Proof.
  intros Hsep. induction 1 as [|x rest Hx Hrest IH]; [reflexivity|].
  destruct rest as [|y rest]; [exact Hx|].
  change (join sep (x :: y :: rest)) with (x ++ sep ++ join sep (y :: rest)).
  now rewrite !forallb_app, Hx, Hsep, IH.
Qed.

Lemma escape_printable (s : pystr) :
  code_points s = true -> forallb printable (escape s) = true.
Proof.
  induction s as [|c s IH]; [reflexivity|].
  cbn [code_points forallb]. intros H. apply andb_true_iff in H as [Hc Hs].
  apply N.ltb_lt in Hc. unfold escape. cbn [flat_map].
  rewrite forallb_app. rewrite (escaped_printable c _ (escape_char_escaped c Hc)).
  now apply IH.
Qed.

Lemma wf_str_code_points (s : pystr) : wf_str s = true -> code_points s = true.
Proof. unfold wf_str. intros H. now apply andb_true_iff in H as [H _]. Qed.

Lemma encode_dict_printable (t : turn) :
  wf_turn t -> forallb printable (encode_dict t) = true.
Proof.
  intros [_ Hwf]. unfold encode_dict. cbn [forallb].
  rewrite forallb_app. cbn [forallb]. rewrite forallb_join; [reflexivity..|].
  apply Forall_map. eapply Forall_impl; [|exact Hwf].
  intros [k v] [Hk Hv]. unfold encode_item, encode_string. cbn [fst snd] in *.
  cbn [forallb app]. rewrite !forallb_app. cbn [forallb].
  rewrite !forallb_app. cbn [forallb].
  now rewrite !escape_printable by now apply wf_str_code_points.
Qed.

Lemma dumps_printable (c : conversation) :
  wf_conversation c -> forallb printable (dumps c) = true.
Proof.
  intros Hwf. unfold dumps. cbn [forallb].
  rewrite forallb_app. cbn [forallb]. rewrite forallb_join; [reflexivity..|].
  apply Forall_map. eapply Forall_impl; [|exact Hwf].
  intros t. apply encode_dict_printable.
Qed.

Lemma split_lines_printable (line : pystr) :
  forallb printable line = true ->
  forall current rest,
    split_lines (line ++ NL :: rest) current
    = (current ++ line ++ [NL]) :: split_lines rest [].
Proof.
  induction line as [|c line IH]; intros Hp current rest.
  - reflexivity.
  - cbn [forallb] in Hp. apply andb_true_iff in Hp as [Hc Hp].
    unfold printable in Hc. apply andb_true_iff in Hc as [Hc _].
    apply N.leb_le in Hc. cbn [app split_lines].
    replace (N.eqb c NL) with false
      by (symmetry; apply N.eqb_neq; unfold NL; lia).
    replace (N.eqb c CR) with false
      by (symmetry; apply N.eqb_neq; unfold CR; lia).
    rewrite (IH Hp). now rewrite <- app_assoc.
Qed.

Lemma rstrip_by_keep (p : N -> bool) (s : pystr) (c : N) :
  p c = false -> rstrip_by p (s ++ [c]) = s ++ [c].
Proof.
  intros H. unfold rstrip_by. rewrite rev_app_distr. cbn [rev app lstrip_by].
  rewrite H. cbn [rev]. now rewrite rev_involutive.
Qed.

Lemma rstrip_by_drop (p : N -> bool) (s : pystr) (c : N) :
  p c = true -> rstrip_by p (s ++ [c]) = rstrip_by p s.
Proof.
  intros H. unfold rstrip_by. rewrite rev_app_distr. cbn [rev app lstrip_by].
  now rewrite H.
Qed.

Lemma strip_line (a b : N) (middle : pystr) :
  isspace a = false -> isspace b = false ->
  strip ((a :: middle ++ [b]) ++ [NL]) = a :: middle ++ [b].
Proof.
  intros Ha Hb. unfold strip, strip_by.
  cbn [app lstrip_by]. rewrite Ha.
  change (a :: (middle ++ [b]) ++ [NL]) with ((a :: middle ++ [b]) ++ [NL]).
  rewrite rstrip_by_drop by reflexivity.
  change (a :: middle ++ [b]) with ((a :: middle) ++ [b]).
  now apply rstrip_by_keep.
Qed.

Lemma strip_dumps_line (c : conversation) : strip (dumps c ++ [NL]) = dumps c.
Proof. unfold dumps. apply strip_line; reflexivity. Qed.

Lemma read_written_lines (conversations : list conversation) :
  Forall wf_conversation conversations ->
  forall read,
    read_lines (split_lines (write_lines conversations []) []) read
    = inr (read ++ conversations).
Proof.
  assert (W : forall cs written,
            write_lines cs written = written ++ write_lines cs []).
  { induction cs as [|c cs IH]; intros written; cbn [write_lines].
    - now rewrite app_nil_r.
    - rewrite IH, (IH ([] ++ _)). cbn [app]. now rewrite <- app_assoc. }
  induction 1 as [|c rest Hc _ IH]; intros read.
  - cbn. now rewrite app_nil_r.
  - cbn [write_lines app]. rewrite W. rewrite <- app_assoc. cbn [app].
    rewrite (split_lines_printable _ (dumps_printable c Hc)).
    cbn [app read_lines]. rewrite strip_dumps_line, (loads_dumps c Hc).
    rewrite IH. now rewrite <- app_assoc.
Qed.

(** C7, as stated, fails for a string that holds a high surrogate directly
    followed by a low surrogate: the batch read back has one character
    where the batch saved had two. *)
Lemma jsonl_round_trip_joins_surrogates :
  load_conversations_from_jsonl (py "./output/batch.jsonl")
    (snd (save_conversations_to_jsonl (py "./output") surrogate_batch
            (py "batch") []))
  = inr [ [ [(k_from, human); (k_value, [128512]%N)] ] ] /\
  [ [ [(k_from, human); (k_value, [128512]%N)] ] ] <> surrogate_batch.
Proof. split; [vm_compute; reflexivity | discriminate]. Qed.

(** C7, amended.  For every batch of conversations whose strings hold no
    high surrogate directly followed by a low surrogate (every batch of
    Unicode text is such), for every output directory, file name and prior
    state of the files, loading the file that
    [save_conversations_to_jsonl] wrote gives back the batch itself: the
    same conversations in the same order, every turn with the same keys and
    values. *)
Theorem jsonl_round_trip (output_dir filename : pystr) (fs : filesystem)
    (conversations : list conversation) :
  Forall wf_conversation conversations ->
  load_conversations_from_jsonl
    (fst (save_conversations_to_jsonl output_dir conversations filename fs))
    (snd (save_conversations_to_jsonl output_dir conversations filename fs))
  = inr conversations.
Proof.
  intros Hwf. unfold save_conversations_to_jsonl, load_conversations_from_jsonl.
  cbn [fst snd]. rewrite get_set_same.
  now rewrite (read_written_lines conversations Hwf []).
Qed.

Lemma jsonl_round_trip_witness :
  load_conversations_from_jsonl
    (fst (save_conversations_to_jsonl (py "./output")
            [sample_conversation; []] (py "batch") []))
    (snd (save_conversations_to_jsonl (py "./output")
            [sample_conversation; []] (py "batch") []))
  = inr [sample_conversation; []].
Proof.
  apply (jsonl_round_trip (py "./output") (py "batch") []
           [sample_conversation; []]).
  repeat constructor; simpl; intuition discriminate.
Defined.

End Persistence.

(* ===================================================================== *)
(** ** More on [_validate_conversation_format] *)
(* ===================================================================== *)

Module ValidatorFacts.
Import Validator.

(** A turn as the validator leaves it: a role out of the two, and a text. *)
Definition canonical_turn (t : turn) : Prop :=
  (get t k_from = Some human \/ get t k_from = Some gpt) /\
  contains t k_value = true.

(** The text the validator settles on: ['value'], else ['content'], else
    ['message'], else ['text']. *)
Definition resolved_value (t : turn) : option pystr :=
  match get t k_value with
  | Some v => Some v
  | None =>
      match get t (py "content") with
      | Some v => Some v
      | None =>
          match get t (py "message") with
          | Some v => Some v
          | None => get t (py "text")
          end
      end
  end.

Definition two_turns : list turn :=
  [ [(k_from, human); (k_value, py "Hi")];
    [(k_from, gpt); (k_value, py "Hello")] ].

Lemma set_same {V : Type} (d : dict V) (k : pystr) (v : V) :
  get d k = Some v -> set d k v = d.
Proof.
  induction d as [|[k' v'] d IH]; simpl; [discriminate|].
  destruct (eqb k k') eqn:E.
  - now intros [= ->].
  - intros H. now rewrite IH.
Qed.

Lemma validate_turn_canonical (i : nat) (t : turn) :
  canonical_turn t -> validate_turn i (ADict t) = inr t.
Proof.
  intros [Hf Hv]. unfold validate_turn, normalize_value_key, normalize_from_key.
  assert (Hc : contains t k_from = true)
    by (destruct Hf as [Hf|Hf]; eapply get_contains; eauto).
  rewrite Hc, Hv. f_equal.
  unfold normalize_from_value, ensure_role.
  destruct Hf as [Hf|Hf]; rewrite (item_get _ _ _ Hf).
  - replace (mem (lower human) [py "assistant"; py "ai"; py "bot"; py "claude"])
      with false by reflexivity.
    replace (mem (lower human) [py "user"; py "human"; py "person"])
      with true by reflexivity.
    rewrite (set_same _ _ _ Hf), (item_get _ _ _ Hf). reflexivity.
  - replace (mem (lower gpt) [py "assistant"; py "ai"; py "bot"; py "claude"])
      with false by reflexivity.
    replace (mem (lower gpt) [py "user"; py "human"; py "person"])
      with false by reflexivity.
    rewrite (item_get _ _ _ Hf). reflexivity.
Qed.

Lemma validate_from_canonical (ts : list turn) :
  Forall canonical_turn ts ->
  forall i, validate_from i (map ADict ts) = inr ts.
Proof.
  induction 1 as [|t ts Ht _ IH]; intros i; simpl; [reflexivity|].
  fold (validate_turn i (ADict t)).
  now rewrite (validate_turn_canonical i t Ht), IH.
Qed.

Lemma validated_canonical (t t' : turn) : validated t t' -> canonical_turn t'.
Proof. intros (Hf & Hv & _). now split. Qed.

(** X1.  A conversation whose turns already have ['from'] equal to
    ['human'] or ['gpt'] and a ['value'] key passes the validator unchanged;
    hence validating what the validator returned changes nothing. *)
Theorem validate_idempotent :
  (forall ts, Forall canonical_turn ts ->
     _validate_conversation_format (AList (map ADict ts)) = inr ts) /\
  (forall c out, _validate_conversation_format c = inr out ->
     _validate_conversation_format (AList (map ADict out)) = inr out).
Proof.
  assert (A : forall ts, Forall canonical_turn ts ->
            _validate_conversation_format (AList (map ADict ts)) = inr ts).
  { intros ts H. unfold _validate_conversation_format.
    now apply validate_from_canonical. }
  split; [exact A|].
  intros [turns|] out H; [|discriminate]. apply A.
  apply validate_from_validated in H.
  induction H as [|tl t' turns out (t & _ & Hv) _ IH]; constructor; auto.
  eapply validated_canonical; eauto.
Qed.

Lemma validate_idempotent_witness :
  _validate_conversation_format (AList (map ADict two_turns)) = inr two_turns.
Proof.
  apply (proj1 validate_idempotent two_turns).
  constructor; [split; [left; reflexivity | reflexivity]|].
  constructor; [split; [right; reflexivity | reflexivity]|].
  constructor.
Defined.

Lemma resolved_value_first_alias (i : nat) (t t2 : turn) :
  get t k_value = None ->
  first_value_alias i t [py "content"; py "message"; py "text"] = inr t2 ->
  get t2 k_value = resolved_value t.
Proof.
  intros Hv. unfold resolved_value, first_value_alias, contains, item.
  rewrite Hv.
  destruct (get t (py "content")) as [v|];
    [intros [= <-]; apply get_set_same|].
  destruct (get t (py "message")) as [v|];
    [intros [= <-]; apply get_set_same|].
  destruct (get t (py "text")) as [v|];
    [intros [= <-]; apply get_set_same | discriminate].
Qed.

Lemma k_from_neq_value : k_from <> k_value.
Proof. intros H. vm_compute in H. discriminate. Qed.

(** X3.  In an accepted turn the text under ['value'] is the one the input
    had under ['value'], or else under ['content'], or else under
    ['message'], or else under ['text']: an existing ['value'] is never
    overwritten by an alias, and ['content'] wins over ['message'], which
    wins over ['text']. *)
Theorem validate_value_priority (i : nat) (t t' : turn) :
  validate_turn i (ADict t) = inr t' ->
  get t' k_value = resolved_value t.
Proof.
  unfold validate_turn.
  destruct (normalize_value_key i (normalize_from_key i t)) as [e|t2] eqn:E;
    [discriminate|].
  intros [= <-].
  destruct (role_steps_keys i t2) as (_ & _ & R). rewrite R by apply k_value_neq_from.
  destruct (normalize_from_key_spec i t) as (_ & _ & F).
  assert (Hres : resolved_value (normalize_from_key i t) = resolved_value t).
  { unfold resolved_value.
    rewrite !F; [reflexivity | ..]; intros H; vm_compute in H; discriminate. }
  rewrite <- Hres. unfold normalize_value_key in E.
  destruct (contains (normalize_from_key i t) k_value) eqn:Ec.
  - injection E as <-. apply contains_get in Ec as (v & Hv).
    unfold resolved_value. now rewrite Hv.
  - apply contains_false in Ec. eapply resolved_value_first_alias; eauto.
Qed.

Lemma validate_value_priority_witness :
  get [(py "text", py "c"); (py "content", py "a"); (k_from, human);
       (k_value, py "a")] k_value
  = resolved_value [(py "text", py "c"); (py "content", py "a")].
Proof.
  apply (validate_value_priority 0 [(py "text", py "c"); (py "content", py "a")]).
  vm_compute. reflexivity.
Defined.

End ValidatorFacts.

(* ===================================================================== *)
(** ** [_validate_conversation_format] on values of any type *)
(* ===================================================================== *)

Module UntypedValidator.
Import Validator.

Section Values.

(** The validator is handed what [json.loads] made of the reply of the
    model, so the value under a key need not be a string.  A value that is
    not a string (a number, a boolean, [None], a list, a dictionary) is
    equal to no string and has no method [lower]. *)
Context {other : Type}.

Inductive value : Type :=
| Str (s : pystr)
| NotStr (o : other).

Definition raw_turn := dict value.

Inductive raw_turn_like : Type :=
| RawDict (d : raw_turn)
| RawNotADict.

Inductive raw_conversation_like : Type :=
| RawList (turns : list raw_turn_like)
| RawNotAList.

(** [v in words], for a list [words] of strings *)
Definition is_in (v : value) (words : list pystr) : bool :=
  match v with
  | Str s => mem s words
  | NotStr _ => false
  end.

(** [v.lower()] *)
Definition lower_of (v : value) : exn + pystr :=
  match v with
  | Str s => inr (lower s)
  | NotStr _ => inl AttributeError
  end.

(** The value of [turn[key]] for a key known to be present. *)
Definition raw_item (t : raw_turn) (key : pystr) : value :=
  match get t key with Some v => v | None => Str [] end.

(** Lines 202-209. *)
Definition raw_normalize_from_key (i : nat) (t : raw_turn) : raw_turn :=
  if contains t k_from then t
  else if contains t k_role then
    set t k_from
      (Str (if is_in (raw_item t k_role) [py "user"; py "human"] then human else gpt))
  else if contains t k_speaker then
    set t k_from
      (Str (if is_in (raw_item t k_speaker) [py "user"; py "human"] then human else gpt))
  else set t k_from (Str (positional i)).

Fixpoint raw_first_value_alias (i : nat) (t : raw_turn) (aliases : list pystr)
    : exn + raw_turn :=
  match aliases with
  | [] => inl (ValueError "Turn is missing 'value' or equivalent field")
  | key :: rest =>
      if contains t key then inr (set t k_value (raw_item t key))
      else raw_first_value_alias i t rest
  end.

(** Lines 212-218. *)
Definition raw_normalize_value_key (i : nat) (t : raw_turn) : exn + raw_turn :=
  if contains t k_value then inr t
  else raw_first_value_alias i t [py "content"; py "message"; py "text"].

(** Lines 221-224: [turn['from'].lower()] raises [AttributeError] on a value
    that is not a string. *)
Definition raw_normalize_from_value (t : raw_turn) : exn + raw_turn :=
  match lower_of (raw_item t k_from) with
  | inl e => inl e
  | inr lowered =>
      if mem lowered [py "assistant"; py "ai"; py "bot"; py "claude"]
      then inr (set t k_from (Str gpt))
      else if mem lowered [py "user"; py "human"; py "person"]
      then inr (set t k_from (Str human))
      else inr t
  end.

(** Lines 227-228. *)
Definition raw_ensure_role (i : nat) (t : raw_turn) : raw_turn :=
  if is_in (raw_item t k_from) [human; gpt] then t
  else set t k_from (Str (positional i)).

(** The body of the loop for the turn at position [i]. *)
Definition raw_validate_turn (i : nat) (tl : raw_turn_like) : exn + raw_turn :=
  match tl with
  | RawNotADict => inl (ValueError "Turn is not a dictionary")
  | RawDict t =>
      match raw_normalize_value_key i (raw_normalize_from_key i t) with
      | inl e => inl e
      | inr t2 =>
          match raw_normalize_from_value t2 with
          | inl e => inl e
          | inr t3 => inr (raw_ensure_role i t3)
          end
      end
  end.

Fixpoint raw_validate_from (i : nat) (turns : list raw_turn_like)
    : exn + list raw_turn :=
  match turns with
  | [] => inr []
  | tl :: rest =>
      match raw_validate_turn i tl with
      | inl e => inl e
      | inr t =>
          match raw_validate_from (S i) rest with
          | inl e => inl e
          | inr ts => inr (t :: ts)
          end
      end
  end.

(** [_validate_conversation_format], the turns as they stand afterwards. *)
Definition raw_validate_conversation_format (c : raw_conversation_like)
    : exn + list raw_turn :=
  match c with
  | RawNotAList => inl (ValueError "Conversation is not a list")
  | RawList turns => raw_validate_from 0 turns
  end.

(** One of the keys the validator can take the text from. *)
Definition has_text_key (t : raw_turn) : bool :=
  contains t k_value || contains t (py "content") ||
  contains t (py "message") || contains t (py "text").

(** Whatever is stored under ['from'] is a string. *)
Definition from_is_str (t : raw_turn) : bool :=
  match get t k_from with
  | Some (NotStr _) => false
  | _ => true
  end.

(** A turn the validator gets through. *)
Definition acceptable (tl : raw_turn_like) : Prop :=
  exists t, tl = RawDict t /\ has_text_key t = true /\ from_is_str t = true.

(** A conversation all of whose values are strings. *)
Definition of_turn (t : turn) : raw_turn := map (fun kv => (fst kv, Str (snd kv))) t.

Definition of_turn_like (tl : turn_like) : raw_turn_like :=
  match tl with
  | ADict t => RawDict (of_turn t)
  | NotADict => RawNotADict
  end.

Definition of_conversation (c : conversation_like) : raw_conversation_like :=
  match c with
  | AList turns => RawList (map of_turn_like turns)
  | NotAList => RawNotAList
  end.

Definition of_result (r : exn + list turn) : exn + list raw_turn :=
  match r with
  | inl e => inl e
  | inr out => inr (map of_turn out)
  end.

Lemma raw_from_key_spec (i : nat) (t : raw_turn) :
  (forall k, k <> k_from -> get (raw_normalize_from_key i t) k = get t k) /\
  from_is_str (raw_normalize_from_key i t) = from_is_str t /\
  (exists v, get (raw_normalize_from_key i t) k_from = Some v).
Proof.
  assert (A : forall s, get t k_from = None ->
    (forall k, k <> k_from -> get (set t k_from (Str s)) k = get t k) /\
    from_is_str (set t k_from (Str s)) = from_is_str t /\
    (exists v, get (set t k_from (Str s)) k_from = Some v)).
  { intros s Ef. repeat split.
    - intros k Hk. apply get_set_other. congruence.
    - unfold from_is_str. now rewrite get_set_same, Ef.
    - rewrite get_set_same. eauto. }
  unfold raw_normalize_from_key, contains.
  destruct (get t k_from) as [v|] eqn:Ef; [repeat split; eauto|].
  destruct (get t k_role); [now apply A|].
  destruct (get t k_speaker); now apply A.
Qed.

Lemma has_text_key_after_from (i : nat) (t : raw_turn) :
  has_text_key (raw_normalize_from_key i t) = has_text_key t.
Proof.
  unfold has_text_key, contains. destruct (raw_from_key_spec i t) as (H & _ & _).
  rewrite !H; [reflexivity | ..]; intros E; vm_compute in E; discriminate.
Qed.

Lemma raw_value_key_cases (i : nat) (t : raw_turn) :
  (has_text_key t = false ->
   exists msg, raw_normalize_value_key i t = inl (ValueError msg)) /\
  (has_text_key t = true ->
   exists t2, raw_normalize_value_key i t = inr t2 /\
              get t2 k_from = get t k_from).
Proof.
  assert (A : forall v, get (set t k_value v) k_from = get t k_from)
    by (intros v; apply get_set_other, k_value_neq_from).
  unfold raw_normalize_value_key, has_text_key, raw_first_value_alias.
  destruct (contains t k_value); cbn [orb]; [split; [discriminate | eauto]|].
  destruct (contains t (py "content")); cbn [orb];
    [split; [discriminate | eauto]|].
  destruct (contains t (py "message")); cbn [orb];
    [split; [discriminate | eauto]|].
  destruct (contains t (py "text")); cbn [orb];
    [split; [discriminate | eauto]|].
  split; [eauto | discriminate].
Qed.

Lemma raw_validate_turn_cases (i : nat) (t : raw_turn) :
  (has_text_key t = false ->
   exists msg, raw_validate_turn i (RawDict t) = inl (ValueError msg)) /\
  (has_text_key t = true -> from_is_str t = false ->
   raw_validate_turn i (RawDict t) = inl AttributeError) /\
  (has_text_key t = true -> from_is_str t = true ->
   exists t', raw_validate_turn i (RawDict t) = inr t').
Proof.
  cbn [raw_validate_turn].
  destruct (raw_from_key_spec i t) as (_ & Hs & (v & Hv)).
  destruct (raw_value_key_cases i (raw_normalize_from_key i t)) as [V0 V1].
  rewrite has_text_key_after_from in V0, V1.
  rewrite <- Hs. unfold from_is_str. rewrite Hv.
  split; [|split].
  - intros H. destruct (V0 H) as (msg & ->). eauto.
  - intros H Hf. destruct (V1 H) as (t2 & -> & Ht2).
    unfold raw_normalize_from_value, raw_item. rewrite Ht2, Hv.
    destruct v; [discriminate | reflexivity].
  - intros H Hf. destruct (V1 H) as (t2 & -> & Ht2).
    unfold raw_normalize_from_value, raw_item. rewrite Ht2, Hv.
    destruct v as [s|o]; [|discriminate]. cbn [lower_of].
    destruct (mem _ _); [eauto|]. destruct (mem _ _); eauto.
Qed.

(** A turn is accepted, or rejected with one of two exceptions. *)
Lemma raw_validate_turn_result (i : nat) (tl : raw_turn_like) :
  match raw_validate_turn i tl with
  | inr _ => acceptable tl
  | inl e =>
      ~ acceptable tl /\
      ((exists msg, e = ValueError msg) \/
       (e = AttributeError /\
        exists t, tl = RawDict t /\ has_text_key t = true /\
                  from_is_str t = false))
  end.
Proof.
  destruct tl as [t|].
  - destruct (raw_validate_turn_cases i t) as (A & B & C).
    destruct (has_text_key t) eqn:Hk; [destruct (from_is_str t) eqn:Hf|].
    + destruct (C eq_refl eq_refl) as (t' & ->). exists t. auto.
    + rewrite (B eq_refl eq_refl). split.
      * intros (t0 & [= <-] & _ & H). congruence.
      * right. split; [reflexivity|]. eauto.
    + destruct (A eq_refl) as (msg & ->). split.
      * intros (t0 & [= <-] & H & _). congruence.
      * left. eauto.
  - cbn. split; [intros (t0 & H & _); discriminate | left; eauto].
Qed.

Lemma raw_validate_from_accepts (turns : list raw_turn_like) :
  forall i,
    (exists out, raw_validate_from i turns = inr out) <->
    Forall acceptable turns.
Proof.
  induction turns as [|tl rest IH]; intros i; cbn [raw_validate_from].
  - split; [constructor | eauto].
  - pose proof (raw_validate_turn_result i tl) as Ht. specialize (IH (S i)).
    destruct (raw_validate_turn i tl) as [e|t'].
    + split; [intros (out & H); discriminate|].
      intros H. inversion H; subst. now destruct Ht.
    + destruct (raw_validate_from (S i) rest) as [e|ts].
      * split; [intros (out & H); discriminate|].
        intros H. inversion H as [|? ? _ H2]; subst.
        apply IH in H2 as (out & H2). discriminate.
      * split; [|eauto]. intros _. constructor; [exact Ht|].
        apply IH. eauto.
Qed.

Lemma raw_validate_from_error (turns : list raw_turn_like) :
  forall i e, raw_validate_from i turns = inl e ->
    (exists msg, e = ValueError msg) \/
    (e = AttributeError /\
     exists t, In (RawDict t) turns /\ has_text_key t = true /\
               from_is_str t = false).
Proof.
  induction turns as [|tl rest IH]; intros i e; cbn [raw_validate_from];
    [discriminate|].
  pose proof (raw_validate_turn_result i tl) as Ht.
  destruct (raw_validate_turn i tl) as [e'|t'].
  - intros [= <-]. destruct Ht as [_ [H|(-> & t & -> & H)]]; [now left|].
    right. split; [reflexivity|]. exists t. split; [now left | exact H].
  - destruct (raw_validate_from (S i) rest) as [e'|ts] eqn:E'; [|discriminate].
    intros [= <-]. destruct (IH _ _ E') as [H|(-> & t & Hin & H)]; [now left|].
    right. split; [reflexivity|]. exists t. split; [now right | exact H].
Qed.

(** *** Values that are all strings *)

Lemma get_of_turn (t : turn) (k : pystr) :
  get (of_turn t) k = option_map Str (get t k).
Proof.
  induction t as [|[k' v] t IH]; [reflexivity|].
  cbn [of_turn map get fst snd]. destruct (eqb k k'); [reflexivity | exact IH].
Qed.

Lemma set_of_turn (t : turn) (k v : pystr) :
  set (of_turn t) k (Str v) = of_turn (set t k v).
Proof.
  induction t as [|[k' v'] t IH]; [reflexivity|].
  cbn [of_turn map set fst snd]. destruct (eqb k k'); [reflexivity|].
  cbn [map fst snd]. f_equal. exact IH.
Qed.

Lemma contains_of_turn (t : turn) (k : pystr) :
  contains (of_turn t) k = contains t k.
Proof. unfold contains. rewrite get_of_turn. now destruct (get t k). Qed.

Lemma item_of_turn (t : turn) (k : pystr) : raw_item (of_turn t) k = Str (item t k).
Proof. unfold raw_item, item. rewrite get_of_turn. now destruct (get t k). Qed.

Lemma raw_validate_turn_of (i : nat) (tl : turn_like) :
  raw_validate_turn i (of_turn_like tl)
  = match validate_turn i tl with
    | inl e => inl e
    | inr t' => inr (of_turn t')
    end.
Proof.
  destruct tl as [t|]; [|reflexivity]. cbn [of_turn_like raw_validate_turn validate_turn].
  assert (F : raw_normalize_from_key i (of_turn t) = of_turn (normalize_from_key i t)).
  { unfold raw_normalize_from_key, normalize_from_key.
    rewrite !contains_of_turn, !item_of_turn. cbn [is_in].
    destruct (contains t k_from); [reflexivity|].
    destruct (contains t k_role); [apply set_of_turn|].
    destruct (contains t k_speaker); apply set_of_turn. }
  rewrite F.
  assert (V : forall u, raw_normalize_value_key i (of_turn u)
              = match normalize_value_key i u with
                | inl e => inl e
                | inr t2 => inr (of_turn t2)
                end).
  { intros u. unfold raw_normalize_value_key, normalize_value_key,
      raw_first_value_alias, first_value_alias.
    rewrite !contains_of_turn, !item_of_turn, !set_of_turn.
    repeat (match goal with |- context [if ?b then _ else _] => destruct b end;
            try reflexivity). }
  rewrite V. destruct (normalize_value_key i (normalize_from_key i t)) as [e|t2];
    [reflexivity|].
  unfold raw_normalize_from_value, normalize_from_value.
  rewrite item_of_turn. cbn [lower_of]. rewrite !set_of_turn.
  assert (E : forall u, raw_ensure_role i (of_turn u) = of_turn (ensure_role i u)).
  { intros u. unfold raw_ensure_role, ensure_role. rewrite item_of_turn.
    cbn [is_in]. destruct (mem _ _); [reflexivity | apply set_of_turn]. }
  destruct (mem _ _); [now rewrite E|]. destruct (mem _ _); now rewrite E.
Qed.

(** On a conversation whose values are all strings the validator does what
    [Validator._validate_conversation_format] says. *)
Lemma raw_validate_of_conversation (c : conversation_like) :
  raw_validate_conversation_format (of_conversation c)
  = of_result (_validate_conversation_format c).
Proof.
  destruct c as [turns|]; [|reflexivity].
  cbn [of_conversation raw_validate_conversation_format
       _validate_conversation_format].
  generalize 0%nat. induction turns as [|tl rest IH]; intros i; [reflexivity|].
  cbn [map raw_validate_from validate_from]. rewrite raw_validate_turn_of.
  destruct (validate_turn i tl) as [e|t']; [reflexivity|].
  rewrite IH. now destruct (validate_from (S i) rest).
Qed.

(** X2.  The validator accepts its argument exactly when it is a list of
    dictionaries each of which has one of the keys ['value'], ['content'],
    ['message'], ['text'] and holds nothing but a string under ['from'], if
    it has that key; what the keys ['role'] and ['speaker'] hold never makes
    it fail.  In every other case it raises [ValueError], or else
    [AttributeError], and this only for a dictionary with a text key whose
    ['from'] is not a string. *)
Theorem validate_accepts_iff (c : raw_conversation_like) :
  ((exists out, raw_validate_conversation_format c = inr out) <->
   (exists turns, c = RawList turns /\ Forall acceptable turns)) /\
  (forall e, raw_validate_conversation_format c = inl e ->
     (exists msg, e = ValueError msg) \/
     (e = AttributeError /\
      exists turns t, c = RawList turns /\ In (RawDict t) turns /\
                      has_text_key t = true /\ from_is_str t = false)).
Proof.
  destruct c as [turns|]; cbn [raw_validate_conversation_format]; split.
  - rewrite (raw_validate_from_accepts turns 0). split.
    + intros H. eauto.
    + intros (turns' & [= <-] & H). exact H.
  - intros e H. destruct (raw_validate_from_error _ _ _ H) as [E|(-> & t & E)];
      [now left|].
    right. split; [reflexivity|]. exists turns, t. split; [reflexivity | exact E].
  - split; [intros (out & H); discriminate
           | intros (turns & H & _); discriminate].
  - intros e [= <-]. left. eauto.
Qed.

End Values.

Arguments value : clear implicits.
Arguments raw_turn : clear implicits.
Arguments raw_turn_like : clear implicits.
Arguments raw_conversation_like : clear implicits.

(** [{'from': None, 'value': 'a'}] raises [AttributeError]; without the
    ['value'] the missing text is found first. *)
Example from_none :
  raw_validate_conversation_format
    (RawList [RawDict [(k_from, NotStr tt); (k_value, Str (py "a"))]])
    = inl AttributeError /\
  raw_validate_conversation_format (RawList [RawDict [(k_from, NotStr tt)]])
    = inl (ValueError "Turn is missing 'value' or equivalent field").
Proof. split; reflexivity. Qed.

Lemma validate_accepts_iff_witness :
  exists out,
    raw_validate_conversation_format
      (RawList [RawDict [(k_role, NotStr 7%Z); (py "text", Str (py "hi"))];
                RawDict [(k_from, Str (py "Bot")); (py "message", NotStr 0%Z)]])
    = inr out.
Proof.
  apply (proj2 (proj1 (validate_accepts_iff
           (RawList [RawDict [(k_role, NotStr 7%Z); (py "text", Str (py "hi"))];
                     RawDict [(k_from, Str (py "Bot"));
                              (py "message", NotStr 0%Z)]])))).
  eexists. split; [reflexivity|].
  constructor; [eexists; repeat split; reflexivity|].
  constructor; [eexists; repeat split; reflexivity|].
  constructor.
Defined.

End UntypedValidator.

(* ===================================================================== *)
(** ** More on [chunk_text] *)
(* ===================================================================== *)

Module ChunkerFacts.
Import Chunker.

(** [sub in s] *)
Fixpoint has_sub (s sub : pystr) : bool :=
  startswith s sub ||
  match s with
  | [] => false
  | _ :: s' => has_sub s' sub
  end.

(** A text in which none of the five boundaries occurs. *)
Definition boundary_free (content : pystr) : bool :=
  forallb (fun b => negb (has_sub content b)) boundaries.

(** [content[j * step : j * step + chunk_size]] *)
Definition window (content : pystr) (chunk_size step : Z) (j : nat) : pystr :=
  slice content (Z.of_nat j * step) (Z.of_nat j * step + chunk_size).

Lemma adjust_index_inside (i n : Z) : 0 <= i <= n -> adjust_index i n = i.
Proof.
  intros H. unfold adjust_index.
  destruct (Z.ltb_spec i 0); lia.
Qed.

Lemma adjust_index_beyond (i n : Z) : 0 <= n <= i -> adjust_index i n = n.
Proof.
  intros H. unfold adjust_index.
  destruct (Z.ltb_spec i 0); lia.
Qed.

Lemma len_nonneg (s : pystr) : 0 <= len s.
Proof. unfold len. lia. Qed.

Lemma slice_inside (s : pystr) (a b : Z) :
  0 <= a <= b -> b <= len s ->
  slice s a b = firstn (Z.to_nat (b - a)) (skipn (Z.to_nat a) s).
Proof.
  intros Hab Hb. unfold slice.
  rewrite !adjust_index_inside by lia.
  destruct (Z.ltb_spec a b); [reflexivity|].
  replace (b - a) with 0 by lia. reflexivity.
Qed.

Lemma slice_to_end (s : pystr) (a b : Z) :
  0 <= a <= len s -> len s <= b -> slice s a b = slice_from s a.
Proof.
  intros Ha Hb. unfold slice, slice_from.
  rewrite (adjust_index_inside a) by lia.
  rewrite (adjust_index_beyond b) by (pose proof (len_nonneg s); lia).
  destruct (Z.ltb_spec a (len s)).
  - apply firstn_all2. rewrite length_skipn. unfold len in *. lia.
  - symmetry. apply skipn_all2. unfold len in *. lia.
Qed.

Lemma firstn_add {A : Type} (a k : nat) (s : list A) :
  firstn (a + k) s = firstn a s ++ firstn k (skipn a s).
Proof.
  revert s. induction a as [|a IH]; intros s; [reflexivity|].
  destruct s as [|x s]; simpl.
  - now rewrite firstn_nil.
  - now rewrite IH.
Qed.

Lemma firstn_slice (s : pystr) (a b : Z) :
  0 <= a <= b -> b <= len s ->
  firstn (Z.to_nat a) s ++ slice s a b = firstn (Z.to_nat b) s.
Proof.
  intros Hab Hb. rewrite slice_inside by assumption.
  rewrite <- firstn_add. f_equal. lia.
Qed.

Lemma len_slice (s : pystr) (a b : Z) :
  0 <= a <= b -> b <= len s -> len (slice s a b) = b - a.
Proof.
  intros Hab Hb. rewrite slice_inside by assumption.
  unfold len in *. rewrite length_firstn, length_skipn. lia.
Qed.

Lemma rfind_down_bound (s sub : pystr) (lo k : nat) :
  rfind_down s sub lo k = -1 \/
  (Z.of_nat lo <= rfind_down s sub lo k < Z.of_nat (lo + k)).
Proof.
  induction k as [|k IH]; simpl; [now left|].
  destruct (startswith (skipn (lo + k) s) sub).
  - right. lia.
  - destruct IH as [IH|IH]; [now left | right; lia].
Qed.

Lemma rfind_bound (s sub : pystr) (start stop : Z) :
  0 <= start <= stop -> stop <= len s ->
  rfind s sub start stop = -1 \/
  (start <= rfind s sub start stop /\ rfind s sub start stop + len sub <= stop).
Proof.
  intros H1 H2. unfold rfind. rewrite !adjust_index_inside by lia.
  destruct (Z.ltb_spec (stop - start) (len sub)); [now left|].
  destruct (rfind_down_bound s sub (Z.to_nat start)
              (Z.to_nat (stop - start - len sub + 1))) as [E|E].
  - now left.
  - right. pose proof (len_nonneg sub). lia.
Qed.

Lemma boundary_end_bound (content : pystr) (start stop : Z) (bs : list pystr) :
  0 <= start < stop -> stop <= len content ->
  start < boundary_end content start stop bs <= stop.
Proof.
  intros H1 H2. induction bs as [|b bs IH]; simpl; [lia|].
  destruct (Z.gtb_spec (rfind content b start stop) start) as [Hgt|Hle];
    [|exact IH].
  destruct (rfind_bound content b start stop) as [E|E]; try lia.
  pose proof (len_nonneg b). lia.
Qed.

Lemma has_sub_skipn (s sub : pystr) :
  has_sub s sub = false -> forall i, startswith (skipn i s) sub = false.
Proof.
  induction s as [|c s IH]; intros H i.
  - simpl in H. apply orb_false_iff in H as [H _]. now rewrite skipn_nil.
  - simpl in H. apply orb_false_iff in H as [H1 H2].
    destruct i as [|i]; [exact H1 | simpl; now apply IH].
Qed.

Lemma rfind_absent (s sub : pystr) (start stop : Z) :
  has_sub s sub = false -> rfind s sub start stop = -1.
Proof.
  intros H. unfold rfind. destruct (_ <? _); [reflexivity|].
  generalize (Z.to_nat (adjust_index start (len s))).
  generalize (Z.to_nat
    (adjust_index stop (len s) - adjust_index start (len s) - len sub + 1)).
  intros k lo. induction k as [|k IH]; simpl; [reflexivity|].
  now rewrite (has_sub_skipn s sub H).
Qed.

Lemma boundary_end_absent (content : pystr) (start stop : Z) (bs : list pystr) :
  0 <= start ->
  forallb (fun b => negb (has_sub content b)) bs = true ->
  boundary_end content start stop bs = stop.
Proof.
  intros Hs. induction bs as [|b bs IH]; simpl; [reflexivity|].
  intros H. apply andb_true_iff in H as [Hb Hbs]. apply negb_true_iff in Hb.
  rewrite (rfind_absent content b start stop Hb).
  destruct (Z.gtb_spec (-1) start); [lia | now apply IH].
Qed.

(** The loop, as a rule: from a state satisfying [P], with every pass that
    goes on moving [start] forward and keeping [P], the loop ends within
    [len(content) - start] passes in a list satisfying [Q]. *)
Lemma chunk_loop_rule (content : pystr) (chunk_size overlap : Z)
    (P : Z -> list pystr -> Prop) (Q : list pystr -> Prop) :
  (forall start chunks,
     P start chunks -> 0 <= start < len content ->
     start + chunk_size >= len content ->
     Q (chunks ++ [slice_from content start])) ->
  (forall start chunks,
     P start chunks -> 0 <= start < len content ->
     start + chunk_size < len content ->
     start < boundary_end content start (start + chunk_size) boundaries - overlap /\
     P (boundary_end content start (start + chunk_size) boundaries - overlap)
       (chunks ++
          [slice content start
             (boundary_end content start (start + chunk_size) boundaries)])) ->
  (forall start chunks, P start chunks -> len content <= start -> Q chunks) ->
  forall fuel start chunks,
    0 <= start -> P start chunks ->
    (Z.to_nat (len content - start) < fuel)%nat ->
    exists r,
      chunk_loop fuel content chunk_size overlap start chunks = Some r /\ Q r.
Proof.
  intros Hbreak Hnext Hexit.
  induction fuel as [|fuel IH]; intros start chunks Hs HP Hfuel; [lia|].
  cbn [chunk_loop]. destruct (Z.ltb_spec start (len content)) as [Hlt|Hge].
  - unfold chunk_iter.
    destruct (Z.geb_spec (start + chunk_size) (len content)) as [Hb|Hn].
    + eexists. split; [reflexivity|]. apply Hbreak; auto; lia.
    + destruct (Hnext start chunks HP ltac:(lia) ltac:(lia)) as [Hadv HP'].
      apply IH; [lia | exact HP' | lia].
  - eexists. split; [reflexivity|]. now apply (Hexit start).
Qed.

Lemma chunk_loop_more_fuel (content : pystr) (chunk_size overlap : Z) :
  forall fuel start chunks r,
    chunk_loop fuel content chunk_size overlap start chunks = Some r ->
    forall fuel', (fuel <= fuel')%nat ->
      chunk_loop fuel' content chunk_size overlap start chunks = Some r.
Proof.
  induction fuel as [|fuel IH]; intros start chunks r H fuel' Hle;
    [discriminate|].
  destruct fuel' as [|fuel']; [lia|].
  cbn [chunk_loop] in *. destruct (start <? len content); [|exact H].
  destruct (chunk_iter content chunk_size overlap start) as [c|c start'];
    [exact H|].
  apply (IH _ _ _ H). lia.
Qed.

(** X4.  With [overlap = 0] and a positive [chunk_size], [chunk_text] ends
    for every text, within [len(content) + 1] passes of its loop; the
    chunks, put end to end, are the text itself, and none is longer than
    [chunk_size]. *)
Theorem chunk_text_partition (content : pystr) (chunk_size : Z) :
  0 < chunk_size ->
  exists chunks,
    (forall fuel, (length content < fuel)%nat ->
       chunk_text fuel content chunk_size 0 = Some chunks) /\
    concat chunks = content /\
    Forall (fun c => len c <= chunk_size) chunks.
Proof.
  intros Hcs. unfold chunk_text.
  destruct (Z.leb_spec (len content) chunk_size) as [Hshort|Hlong].
  - exists [content]. repeat split.
    + simpl. apply app_nil_r.
    + constructor; [exact Hshort | constructor].
  - destruct (chunk_loop_rule content chunk_size 0
                (fun start chunks =>
                   start <= len content /\
                   concat chunks = firstn (Z.to_nat start) content /\
                   Forall (fun c => len c <= chunk_size) chunks)
                (fun r => concat r = content /\
                          Forall (fun c => len c <= chunk_size) r))
      with (fuel := S (length content)) (start := 0) (chunks := @nil pystr)
      as (r & Hr & Hc & Hf).
    + intros start chunks (Hle & Hcat & Hall) Hs Hend. split.
      * rewrite concat_app, Hcat. cbn [concat]. rewrite app_nil_r.
        unfold slice_from. rewrite adjust_index_inside by lia.
        apply firstn_skipn.
      * apply Forall_app. split; [exact Hall|]. constructor; [|constructor].
        unfold slice_from. rewrite adjust_index_inside by lia.
        unfold len in *. rewrite length_skipn. lia.
    + intros start chunks (Hle & Hcat & Hall) Hs Hend.
      pose proof (boundary_end_bound content start (start + chunk_size)
                    boundaries ltac:(lia) ltac:(lia)) as Hb.
      rewrite Z.sub_0_r. split; [lia|]. split; [lia|]. split.
      * rewrite concat_app, Hcat. cbn [concat]. rewrite app_nil_r.
        apply firstn_slice; lia.
      * apply Forall_app. split; [exact Hall|]. constructor; [|constructor].
        rewrite len_slice by lia. lia.
    + intros start chunks (Hle & Hcat & Hall) Hge. split; [|exact Hall].
      rewrite Hcat. apply firstn_all2. unfold len in *. lia.
    + lia.
    + repeat split; [apply len_nonneg | constructor].
    + unfold len. lia.
    + exists r. repeat split; auto.
      intros fuel Hfuel. eapply chunk_loop_more_fuel; [exact Hr | lia].
Qed.

Lemma chunk_text_partition_witness :
  exists chunks,
    (forall fuel, (length (py "One. Two. Three.") < fuel)%nat ->
       chunk_text fuel (py "One. Two. Three.") 7 0 = Some chunks) /\
    concat chunks = py "One. Two. Three." /\
    Forall (fun c => len c <= 7) chunks.
Proof.
  apply (chunk_text_partition (py "One. Two. Three.") 7). lia.
Defined.

Lemma seq_snoc (k : nat) : seq 0 (S k) = seq 0 k ++ [k].
Proof. now rewrite seq_S. Qed.

(** X5.  A text in which no boundary occurs (no newline, and no ['. '],
    ['? '] or ['! ']) is cut, for [0 <= overlap < chunk_size], into
    windows of [chunk_size] characters that start [chunk_size - overlap]
    apart: [chunk_text] ends and returns the windows number [0] to [m],
    where window [m] is the first to reach the end of the text. *)
Theorem chunk_text_windows (content : pystr) (chunk_size overlap : Z) :
  boundary_free content = true ->
  0 <= overlap < chunk_size ->
  exists m,
    (forall fuel, (length content < fuel)%nat ->
       chunk_text fuel content chunk_size overlap
       = Some (map (window content chunk_size (chunk_size - overlap))
                 (seq 0 (S m)))) /\
    len content <= Z.of_nat m * (chunk_size - overlap) + chunk_size /\
    (forall j, (j < m)%nat ->
       Z.of_nat j * (chunk_size - overlap) + chunk_size < len content).
Proof.
  intros Hfree Hov. unfold chunk_text.
  set (step := chunk_size - overlap). assert (Hstep : 0 < step) by (unfold step; lia).
  destruct (Z.leb_spec (len content) chunk_size) as [Hshort|Hlong].
  - exists 0%nat. repeat split.
    + intros fuel _. simpl. unfold window. simpl.
      rewrite slice_to_end by (pose proof (len_nonneg content); lia).
      unfold slice_from.
      rewrite adjust_index_inside by (pose proof (len_nonneg content); lia).
      reflexivity.
    + simpl. lia.
    + intros j Hj. lia.
  - destruct (chunk_loop_rule content chunk_size overlap
                (fun start chunks =>
                   exists k, start = Z.of_nat k * step /\
                     chunks = map (window content chunk_size step) (seq 0 k) /\
                     forall j, (j < k)%nat ->
                       Z.of_nat j * step + chunk_size < len content)
                (fun r =>
                   exists m, r = map (window content chunk_size step)
                                   (seq 0 (S m)) /\
                     len content <= Z.of_nat m * step + chunk_size /\
                     forall j, (j < m)%nat ->
                       Z.of_nat j * step + chunk_size < len content))
      with (fuel := S (length content)) (start := 0) (chunks := @nil pystr)
      as (r & Hr & m & Hm & Hreach & Hbefore).
    + intros start chunks (k & -> & -> & Hk) Hs Hend.
      exists k. split; [|split; [lia | exact Hk]].
      rewrite seq_snoc, map_app. cbn [map]. unfold window.
      rewrite slice_to_end by lia. reflexivity.
    + intros start chunks (k & -> & -> & Hk) Hs Hend.
      rewrite (boundary_end_absent content _ _ boundaries) by (lia || exact Hfree).
      split; [lia|]. exists (S k). split; [|split].
      * unfold step. lia.
      * rewrite seq_snoc, map_app. reflexivity.
      * intros j Hj. destruct (Nat.eq_dec j k) as [->|Hne]; [lia|].
        apply Hk. lia.
    + intros start chunks (k & -> & -> & Hk) Hge.
      destruct k as [|k]; [simpl in Hge; lia|].
      specialize (Hk k ltac:(lia)). lia.
    + lia.
    + exists 0%nat. split; [lia|]. split; [reflexivity|]. intros j Hj. lia.
    + unfold len. lia.
    + exists m. repeat split; auto.
      intros fuel Hfuel. rewrite <- Hm.
      eapply chunk_loop_more_fuel; [exact Hr | lia].
Qed.

Lemma chunk_text_windows_witness :
  exists m,
    (forall fuel, (length (py "abcdefghij") < fuel)%nat ->
       chunk_text fuel (py "abcdefghij") 4 1
       = Some (map (window (py "abcdefghij") 4 (4 - 1)) (seq 0 (S m)))) /\
    len (py "abcdefghij") <= Z.of_nat m * (4 - 1) + 4 /\
    (forall j, (j < m)%nat -> Z.of_nat j * (4 - 1) + 4 < len (py "abcdefghij")).
Proof.
  apply (chunk_text_windows (py "abcdefghij") 4 1).
  - vm_compute. reflexivity.
  - lia.
Defined.

End ChunkerFacts.

(* ===================================================================== *)
(** ** More on [clean_generated_content] and [_is_question] *)
(* ===================================================================== *)

Module CleanerFacts.
Import Cleaner.

(** What is left of the text when the punctuation step is reached, before
    the first letter is capitalised. *)
Definition stripped_core (text : pystr) : pystr :=
  strip (strip_chars [DQUOTE; SQUOTE]
           (remove_placeholders (strip_trailer (strip_lead_in text lead_ins)))).

(** No character of [p] at the front, respectively at the back. *)
Definition head_ok (p : N -> bool) (s : pystr) : Prop :=
  match s with
  | [] => True
  | c :: _ => p c = false
  end.

Definition last_ok (p : N -> bool) (s : pystr) : Prop :=
  forall r c, s = r ++ [c] -> p c = false.

Definition blank (s : pystr) : bool := forallb isspace s.

(** The white space of [str.isspace], and [a] to [z], as ranges. *)
Definition avoided : list (N * N) :=
  [(9, 13); (28, 32); (133, 133); (160, 160); (5760, 5760); (8192, 8202);
   (8232, 8232); (8233, 8233); (8239, 8239); (8287, 8287); (12288, 12288);
   (97, 122)]%N.

Definition within (c : N) (r : N * N) : bool :=
  ((fst r <=? c) && (c <=? snd r))%N.

Definition apart (first last : N) (r : N * N) : bool :=
  ((snd r <? first) || (last <? fst r))%N.

(** Neither white space nor one of [a] to [z]. *)
Definition plain (c : N) : bool := negb (isspace c) && negb (islower_char c).

(** The upper case of a run, respectively of a character with an upper case
    of several characters, is plain. *)
Definition run_plain (r : N * N * N * N) : bool :=
  let '(first, last, _, upper) := r in
  forallb (apart upper (upper + (last - first))) avoided.

Definition special_plain (e : N * pystr) : bool :=
  match snd e with
  | [] => false
  | _ :: _ => forallb plain (snd e)
  end.

Ltac decide_tests :=
  repeat match goal with
    | |- context [N.leb ?a ?b] =>
        first [ replace (N.leb a b) with true by (symmetry; apply N.leb_le; lia)
              | replace (N.leb a b) with false by (symmetry; apply N.leb_gt; lia) ]
    | |- context [N.eqb ?a ?b] =>
        replace (N.eqb a b) with false by (symmetry; apply N.eqb_neq; lia)
    end.

Lemma lstrip_head_ok (p : N -> bool) (s : pystr) : head_ok p (lstrip_by p s).
Proof.
  induction s as [|c s IH]; simpl; [exact I|].
  destruct (p c) eqn:E; [exact IH | exact E].
Qed.

Lemma lstrip_fix (p : N -> bool) (s : pystr) : head_ok p s -> lstrip_by p s = s.
Proof. destruct s as [|c s]; simpl; [reflexivity | now intros ->]. Qed.

Lemma lstrip_suffix (p : N -> bool) (s : pystr) :
  exists pre, s = pre ++ lstrip_by p s /\ forallb p pre = true.
Proof.
  induction s as [|c s (pre & IH & Hp)]; simpl; [now exists []|].
  destruct (p c) eqn:E.
  - exists (c :: pre). simpl. rewrite E. split; [now f_equal | exact Hp].
  - now exists [].
Qed.

Lemma rstrip_last_ok (p : N -> bool) (s : pystr) : last_ok p (rstrip_by p s).
Proof.
  unfold rstrip_by. intros r c H.
  apply (f_equal (@rev N)) in H. rewrite rev_involutive, rev_app_distr in H.
  simpl in H. pose proof (lstrip_head_ok p (rev s)) as Hh. now rewrite H in Hh.
Qed.

Lemma rstrip_fix (p : N -> bool) (s : pystr) : last_ok p s -> rstrip_by p s = s.
Proof.
  intros H. unfold rstrip_by. rewrite lstrip_fix; [apply rev_involutive|].
  destruct (rev s) as [|c r] eqn:E; [exact I|]. simpl.
  apply (H (rev r) c). apply (f_equal (@rev N)) in E.
  rewrite rev_involutive in E. exact E.
Qed.

Lemma rstrip_prefix (p : N -> bool) (s : pystr) :
  exists post, s = rstrip_by p s ++ post /\ forallb p post = true.
Proof.
  unfold rstrip_by. destruct (lstrip_suffix p (rev s)) as (pre & H & Hp).
  exists (rev pre). split.
  - rewrite <- rev_app_distr, <- H. symmetry. apply rev_involutive.
  - rewrite forallb_forall in *. intros x Hx. apply Hp. now apply in_rev.
Qed.

Lemma rstrip_head_ok (p : N -> bool) (s : pystr) :
  head_ok p s -> head_ok p (rstrip_by p s).
Proof.
  intros H. destruct (rstrip_prefix p s) as (post & E & _).
  destruct (rstrip_by p s) as [|c r]; [exact I|].
  rewrite E in H. exact H.
Qed.

Lemma strip_ends (s : pystr) :
  head_ok isspace (strip s) /\ last_ok isspace (strip s).
Proof.
  unfold strip, strip_by. split.
  - apply rstrip_head_ok, lstrip_head_ok.
  - apply rstrip_last_ok.
Qed.

Lemma strip_fix (s : pystr) :
  head_ok isspace s -> last_ok isspace s -> strip s = s.
Proof.
  intros H1 H2. unfold strip, strip_by. rewrite (lstrip_fix _ _ H1).
  now apply rstrip_fix.
Qed.

Lemma snoc_cases (s : pystr) : s = [] \/ exists r c, s = r ++ [c].
Proof.
  destruct s as [|x s] using rev_ind; [now left | right; eauto].
Qed.

Lemma within_single (c a : N) : within c (a, a) = N.eqb c a.
Proof.
  unfold within. cbn [fst snd].
  destruct (N.eqb c a) eqn:E.
  - apply N.eqb_eq in E. subst. now rewrite N.leb_refl.
  - apply N.eqb_neq in E. apply andb_false_iff.
    destruct (N.leb a c) eqn:E1; [right | now left].
    apply N.leb_le in E1. apply N.leb_gt. lia.
Qed.

Lemma plain_within (c : N) : plain c = negb (existsb (within c) avoided).
Proof.
  unfold plain. rewrite <- negb_orb. f_equal.
  unfold avoided. cbn [existsb]. rewrite !within_single, orb_false_r.
  unfold isspace, islower_char, within. cbn [fst snd].
  rewrite !orb_assoc. reflexivity.
Qed.

Lemma apart_within (l : list (N * N)) (first last c : N) :
  forallb (apart first last) l = true -> (first <= c <= last)%N ->
  existsb (within c) l = false.
Proof.
  intros H Hc. induction l as [|[a b] l IH]; [reflexivity|].
  cbn [forallb existsb] in *. apply andb_true_iff in H as [Ha Hl].
  rewrite (IH Hl), orb_false_r. unfold apart, within in *. cbn [fst snd] in *.
  apply orb_true_iff in Ha. apply andb_false_iff.
  destruct Ha as [Ha|Ha]; apply N.ltb_lt in Ha; [right | left];
    apply N.leb_gt; lia.
Qed.

Lemma plain_spec (c : N) :
  plain c = true -> isspace c = false /\ islower_char c = false.
Proof.
  unfold plain. intros H. apply andb_true_iff in H as [H1 H2].
  now apply negb_true_iff in H1, H2.
Qed.

Lemma in_run_bounds (c first last step : N) :
  in_run c first last step = true -> (first <= c <= last)%N.
Proof.
  unfold in_run. intros H. apply andb_true_iff in H as [H _].
  apply andb_true_iff in H as [H1 H2]. apply N.leb_le in H1, H2. lia.
Qed.

Lemma in_run_ascii (c : N) : in_run c 97 122 1 = islower_char c.
Proof.
  unfold in_run, islower_char. rewrite N.mod_1_r. cbn [N.eqb].
  apply andb_true_r.
Qed.

Lemma str_islower_ascii (c : N) : islower_char c = true -> str_islower c = true.
Proof.
  intros H. unfold str_islower, lowercase_runs. cbn [existsb].
  now rewrite in_run_ascii, H.
Qed.

Lemma upper_runs_plain : forallb run_plain upper_runs = true.
Proof. vm_compute. reflexivity. Qed.

Lemma upper_special_plain : forallb special_plain upper_special = true.
Proof. vm_compute. reflexivity. Qed.

(** The upper case of a character that is not white space is not empty and
    holds neither white space nor one of [a] to [z]. *)
Lemma str_upper_plain (c : N) :
  isspace c = false ->
  exists d u, str_upper c = d :: u /\ forallb plain (d :: u) = true.
Proof.
  intros Hs. unfold str_upper.
  destruct (find _ upper_runs) as [[[[first last] step] upper]|] eqn:F.
  - apply find_some in F as [Hin Hrun]. apply in_run_bounds in Hrun.
    pose proof upper_runs_plain as P. rewrite forallb_forall in P.
    specialize (P _ Hin). cbn [run_plain] in P.
    do 2 eexists. split; [reflexivity|]. cbn [forallb].
    rewrite plain_within, (apart_within _ _ _ _ P); [reflexivity | lia].
  - destruct (find _ upper_special) as [[k u]|] eqn:G.
    + apply find_some in G as [Hin _].
      pose proof upper_special_plain as P. rewrite forallb_forall in P.
      specialize (P _ Hin). unfold special_plain in P. cbn [snd] in P.
      destruct u as [|d u]; [discriminate|]. eauto.
    + do 2 eexists. split; [reflexivity|]. cbn [forallb].
      rewrite andb_true_r. unfold plain. rewrite Hs. cbn [negb andb].
      apply negb_true_iff. rewrite <- in_run_ascii.
      apply (find_none _ _ F (97, 122, 1, 65)%N). now left.
Qed.

Lemma capitalize_ends (s : pystr) :
  head_ok isspace s -> last_ok isspace s ->
  head_ok isspace (capitalize_first s) /\ last_ok isspace (capitalize_first s) /\
  head_ok islower_char (capitalize_first s) /\
  (capitalize_first s = [] <-> s = []).
Proof.
  intros H1 H2. destruct s as [|c s]; [simpl; repeat split; auto|].
  cbn [capitalize_first]. destruct (str_islower c) eqn:E.
  - destruct (str_upper_plain c H1) as (d & u & -> & Hp).
    pose proof Hp as Hd. cbn [forallb] in Hd.
    apply andb_true_iff in Hd as [Hd _]. apply plain_spec in Hd as [D1 D2].
    split; [exact D1|]. split; [|split; [exact D2 | split; discriminate]].
    intros r c' Hr. destruct (snoc_cases s) as [->|(s' & z & ->)].
    + rewrite app_nil_r in Hr. rewrite forallb_forall in Hp.
      apply (plain_spec c'), Hp. rewrite Hr. apply in_or_app. right. now left.
    + rewrite app_assoc in Hr. apply app_inj_tail in Hr as [_ <-].
      apply (H2 (c :: s') z). reflexivity.
  - repeat split; try assumption; try discriminate.
    cbn [head_ok]. destruct (islower_char c) eqn:L; [|reflexivity].
    now rewrite (str_islower_ascii c L) in E.
Qed.

Lemma last_char_snoc (r : pystr) (c : N) : last_char (r ++ [c]) = inr c.
Proof. unfold last_char. now rewrite rev_app_distr. Qed.

Lemma endswith_snoc (r : pystr) (c d : N) :
  endswith (r ++ [c]) [d] = N.eqb d c.
Proof.
  unfold endswith. rewrite rev_app_distr. simpl. apply andb_true_r.
Qed.

Lemma snoc_ends (p : N -> bool) (s : pystr) (c : N) :
  head_ok p s -> p c = false ->
  head_ok p (s ++ [c]) /\ last_ok p (s ++ [c]).
Proof.
  intros H Hc. split.
  - destruct s; simpl; auto.
  - intros r c' E. apply app_inj_tail in E as [_ <-]. exact Hc.
Qed.

(** The shape of a cleaned text. *)
Definition well_ended (is_question : bool) (out : pystr) : Prop :=
  exists r c, out = r ++ [c] /\
    if is_question then c = QMARK
    else c = ch "." \/ c = ch "!" \/ c = ch "?".

Lemma end_punctuation_shape (core : pystr) (q : bool) (out : pystr) :
  head_ok isspace core -> last_ok isspace core -> head_ok islower_char core ->
  end_punctuation core q = inr out ->
  strip out = out /\ head_ok islower_char out /\ well_ended q out.
Proof.
  intros H1 H2 H3. unfold end_punctuation.
  destruct q; simpl.
  - destruct (endswith core (py "?")) eqn:E; simpl; intros [= <-].
    + destruct (snoc_cases core) as [->|(r & c & ->)]; [discriminate|].
      change (py "?") with [QMARK] in E. rewrite endswith_snoc in E.
      apply N.eqb_eq in E. subst c.
      split; [now apply strip_fix|]. split; [exact H3|].
      exists r, QMARK. split; reflexivity.
    + change (py "?") with [QMARK].
      destruct (snoc_ends isspace core QMARK H1 eq_refl) as [A B].
      split; [now apply strip_fix|]. split.
      * destruct core; simpl; auto.
      * exists core, QMARK. split; reflexivity.
  - destruct (snoc_cases core) as [->|(r & c & ->)]; [discriminate|].
    rewrite last_char_snoc.
    destruct (negb _) eqn:E; intros [= <-]; [|apply negb_false_iff in E].
    2: { split; [now apply strip_fix|]. split; [exact H3|].
         exists r, c. split; [reflexivity|].
         simpl in E. rewrite !orb_true_iff in E.
         destruct E as [E|[E|[E|E]]]; try discriminate;
           apply N.eqb_eq in E; auto. }
    + change (py ".") with [ch "."].
      destruct (snoc_ends isspace (r ++ [c]) (ch ".") H1 eq_refl) as [A B].
      split; [now apply strip_fix|]. split.
      * destruct (r ++ [c]) eqn:Er; [destruct r; discriminate|]. exact H3.
      * exists (r ++ [c]), (ch "."). split; [reflexivity | now left].
Qed.

(** X6.  Whatever [clean_generated_content] returns has no white space at
    either end, does not start with one of the letters [a] to [z], and ends
    in ['?'] for a question and in ['.'], ['!'] or ['?'] for a statement.
    For a question it always returns; for a statement it raises exactly
    when nothing is left of the text after the stripping steps, and then
    [IndexError].  This holds for every text, whatever characters it is
    made of. *)
Theorem clean_result_shape (text : pystr) :
  (forall q out, clean_generated_content text q = inr out ->
     strip out = out /\ head_ok islower_char out /\ well_ended q out) /\
  (exists out, clean_generated_content text true = inr out) /\
  (forall e, clean_generated_content text false = inl e <->
             e = IndexError /\ stripped_core text = []).
Proof.
  assert (Hcore : clean_generated_content text
                  = end_punctuation (capitalize_first (stripped_core text)))
    by reflexivity.
  destruct (strip_ends (strip_chars [DQUOTE; SQUOTE]
              (remove_placeholders (strip_trailer (strip_lead_in text lead_ins)))))
    as [S1 S2].
  fold (stripped_core text) in S1, S2.
  destruct (capitalize_ends _ S1 S2) as (C1 & C2 & C3 & C4).
  rewrite Hcore. split; [|split].
  - intros q out. now apply end_punctuation_shape.
  - destruct (end_punctuation_question (capitalize_first (stripped_core text)))
      as (out & H & _). eauto.
  - intros e. split.
    + intros H. assert (e = IndexError).
      { unfold end_punctuation, last_char in H. simpl in H.
        destruct (rev _); [now injection H | destruct (negb _); discriminate]. }
      subst e. split; [reflexivity|].
      apply end_punctuation_statement in H. now apply C4.
    + intros [-> H]. apply end_punctuation_statement. now apply C4.
Qed.

Lemma clean_result_shape_witness :
  strip (py "The sky is blue.") = py "The sky is blue." /\
  head_ok islower_char (py "The sky is blue.") /\
  well_ended false (py "The sky is blue.").
Proof.
  apply (proj1 (clean_result_shape (py "generated CONTENT:   the sky is blue"))
           false).
  vm_compute. reflexivity.
Defined.

End CleanerFacts.

(* ===================================================================== *)
(** ** More on [_is_question] *)
(* ===================================================================== *)

Module QuestionFacts.
Import Cleaner CleanerFacts.

Lemma isspace_lower_char (c : N) : isspace (lower_char c) = isspace c.
Proof.
  unfold lower_char. destruct (isupper_char c) eqn:E; [|reflexivity].
  unfold isupper_char in E. apply andb_true_iff in E as [H1 H2].
  apply N.leb_le in H1, H2. unfold isspace. decide_tests. reflexivity.
Qed.

Lemma lower_char_idem (c : N) : lower_char (lower_char c) = lower_char c.
Proof.
  unfold lower_char at 2. destruct (isupper_char c) eqn:E; [|now unfold lower_char; rewrite E].
  unfold isupper_char in E. apply andb_true_iff in E as [H1 H2].
  apply N.leb_le in H1, H2. unfold lower_char, isupper_char.
  decide_tests. reflexivity.
Qed.

Lemma lower_char_qmark (c : N) : lower_char c = QMARK <-> c = QMARK.
Proof.
  unfold lower_char, QMARK, ch. simpl.
  destruct (isupper_char c) eqn:E; [|tauto].
  unfold isupper_char in E. apply andb_true_iff in E as [H1 H2].
  apply N.leb_le in H1, H2. lia.
Qed.

Lemma lstrip_lower (s : pystr) :
  lstrip_by isspace (lower s) = lower (lstrip_by isspace s).
Proof.
  induction s as [|c s IH]; [reflexivity|]. unfold lower in *. simpl.
  rewrite isspace_lower_char. destruct (isspace c); [exact IH | reflexivity].
Qed.

Lemma strip_lower (s : pystr) : strip (lower s) = lower (strip s).
Proof.
  unfold strip, strip_by, rstrip_by. rewrite lstrip_lower.
  unfold lower at 1. rewrite <- map_rev. fold (lower (rev (lstrip_by isspace s))).
  rewrite lstrip_lower. unfold lower. now rewrite map_rev.
Qed.

Lemma lower_idem (s : pystr) : lower (lower s) = lower s.
Proof.
  unfold lower. rewrite map_map. apply map_ext. apply lower_char_idem.
Qed.

Lemma lstrip_blank (p : N -> bool) (s : pystr) :
  forallb p s = true -> lstrip_by p s = [].
Proof.
  induction s as [|c s IH]; simpl; [reflexivity|].
  intros H. apply andb_true_iff in H as [Hc Hs]. rewrite Hc. now apply IH.
Qed.

Lemma lstrip_blank_app (p : N -> bool) (pre s : pystr) :
  forallb p pre = true -> lstrip_by p (pre ++ s) = lstrip_by p s.
Proof.
  induction pre as [|c pre IH]; simpl; [reflexivity|].
  intros H. apply andb_true_iff in H as [Hc Hs]. rewrite Hc. now apply IH.
Qed.

Lemma forallb_rev (p : N -> bool) (s : pystr) :
  forallb p s = true -> forallb p (rev s) = true.
Proof.
  rewrite !forallb_forall. intros H x Hx. apply H. now apply in_rev.
Qed.

Lemma rstrip_app_blank (p : N -> bool) (s post : pystr) :
  forallb p post = true -> rstrip_by p (s ++ post) = rstrip_by p s.
Proof.
  intros H. unfold rstrip_by. rewrite rev_app_distr.
  now rewrite lstrip_blank_app by now apply forallb_rev.
Qed.

Lemma strip_blank_around (pre s post : pystr) :
  blank pre = true -> blank post = true ->
  strip (pre ++ s ++ post) = strip s.
Proof.
  unfold blank. intros Hpre Hpost. unfold strip, strip_by.
  rewrite (lstrip_blank_app _ _ _ Hpre).
  destruct (lstrip_suffix isspace s) as (lead & Hs & Hlead).
  rewrite Hs at 1. rewrite <- app_assoc, (lstrip_blank_app _ _ _ Hlead).
  pose proof (lstrip_head_ok isspace s) as Hh.
  destruct (lstrip_by isspace s) as [|c r].
  - simpl. now rewrite (lstrip_blank _ _ Hpost).
  - simpl in Hh. cbn [app lstrip_by]. rewrite Hh.
    change (c :: r ++ post) with ((c :: r) ++ post).
    now apply rstrip_app_blank.
Qed.

Lemma strip_of_blank (s : pystr) : blank s = true -> strip s = [].
Proof.
  intros H. unfold strip, strip_by. now rewrite (lstrip_blank _ _ H).
Qed.

Lemma is_question_lower (s : pystr) : _is_question (lower s) = _is_question s.
Proof. unfold _is_question. now rewrite strip_lower, lower_idem. Qed.

(** X7.  [_is_question] does not depend on white space around the text nor
    on the case of its ASCII letters; a blank text is never a question, and
    a text whose last character, white space aside, is ['?'] always is. *)
Theorem is_question_insensitive :
  (forall pre s post, blank pre = true -> blank post = true ->
     _is_question (pre ++ s ++ post) = _is_question s) /\
  (forall a b, lower a = lower b -> _is_question a = _is_question b) /\
  (forall s, blank s = true -> _is_question s = false) /\
  (forall s, endswith (strip s) (py "?") = true -> _is_question s = true).
Proof.
  split; [|split; [|split]].
  - intros pre s post Hpre Hpost. unfold _is_question.
    now rewrite strip_blank_around.
  - intros a b H. rewrite <- (is_question_lower a), <- (is_question_lower b).
    now rewrite H.
  - intros s H. unfold _is_question. now rewrite (strip_of_blank s H).
  - intros s H. unfold _is_question.
    destruct (snoc_cases (strip s)) as [E|(r & c & E)]; rewrite E in *;
      [discriminate|].
    change (py "?") with [QMARK] in *. rewrite endswith_snoc in H.
    apply N.eqb_eq in H. subst c.
    unfold lower. rewrite map_app. cbn [map].
    replace (lower_char QMARK) with QMARK by reflexivity.
    now rewrite endswith_app.
Qed.

Lemma is_question_insensitive_witness :
  _is_question (py "  " ++ py "is it so" ++ py " ") = _is_question (py "is it so") /\
  _is_question (py "IS IT SO") = _is_question (py "is it so").
Proof.
  split.
  - apply (proj1 is_question_insensitive); reflexivity.
  - apply (proj1 (proj2 is_question_insensitive)). reflexivity.
Defined.

End QuestionFacts.

(* ===================================================================== *)
(** ** More on the expansion *)
(* ===================================================================== *)

Module ExpanderFacts.
Import Validator Cleaner CleanerFacts Expander.

(** The text of the last turn of [turns] whose role is [role]. *)
Fixpoint last_value_of (role : pystr) (turns : conversation) : option pystr :=
  match turns with
  | [] => None
  | t :: rest =>
      match last_value_of role rest with
      | Some v => Some v
      | None => if eqb (item t k_from) role then get t k_value else None
      end
  end.

(** A turn that the policy keeps as it is. *)
Definition static_turn (static_fields : dict bool) (t : turn) : Prop :=
  canonical t /\ static_get static_fields (item t k_from) = true.

(** ['human': True, 'gpt': True] *)
Definition all_static : dict bool := [(human, true); (gpt, true)].

Section Backend.

Context {St : Type}.
Variable chat : request -> St -> option pystr * St.

Lemma expand_turn_static (static_fields : dict bool) (rv : dict pystr)
    (t : turn) (st : St) :
  static_turn static_fields t ->
  expand_turn chat static_fields rv t st = (inr t, st).
Proof.
  intros [Hc Hs]. destruct (canonical_items t Hc) as (source & value & Hf & Hv).
  unfold expand_turn, bind, lift, getitem, ret. rewrite Hf.
  rewrite (item_get _ _ _ Hf) in Hs. now rewrite Hs.
Qed.

Lemma expand_turns_static (static_fields : dict bool) (rv : dict pystr)
    (turns : conversation) :
  Forall (static_turn static_fields) turns ->
  forall acc st,
    expand_turns chat static_fields rv turns acc st = (inr (acc ++ turns), st).
Proof.
  induction 1 as [|t rest Ht _ IH]; intros acc st; simpl.
  - unfold ret. now rewrite app_nil_r.
  - unfold bind. rewrite (expand_turn_static _ _ _ _ Ht), IH.
    now rewrite <- app_assoc.
Qed.

Lemma expand_variation_static (static_fields : dict bool) (rf : list pystr)
    (c : conversation) (st : St) :
  Forall (static_turn static_fields) c ->
  expand_variation chat static_fields rf c st = (inr c, st).
Proof.
  intros Hc. assert (Hcan : Forall canonical c)
    by (eapply Forall_impl; [|exact Hc]; now intros t [H _]).
  destruct (collect_reference_values_ok c rf Hcan []) as (rv & Erv).
  unfold expand_variation, bind, lift. rewrite Erv.
  now rewrite expand_turns_static.
Qed.

Lemma expand_repeat_static (static_fields : dict bool) (rf : list pystr)
    (c : conversation) (n : nat) :
  Forall (static_turn static_fields) c ->
  forall acc st,
    expand_repeat chat n static_fields rf c acc st
    = (inr (acc ++ repeat c n), st).
Proof.
  intros Hc. induction n as [|n IH]; intros acc st; simpl.
  - unfold ret. now rewrite app_nil_r.
  - unfold bind. rewrite (expand_variation_static _ _ _ _ Hc), IH.
    now rewrite <- app_assoc.
Qed.

Lemma expand_each_static (static_fields : dict bool) (rf : list pystr)
    (n : nat) (conversations : list conversation) :
  Forall (Forall (static_turn static_fields)) conversations ->
  forall acc st,
    expand_each chat conversations n static_fields rf acc st
    = (inr (acc ++ flat_map (fun c => repeat c n) conversations), st).
Proof.
  induction 1 as [|c rest Hc _ IH]; intros acc st; simpl.
  - unfold ret. now rewrite app_nil_r.
  - unfold bind. rewrite (expand_repeat_static _ _ _ _ Hc), IH.
    now rewrite <- app_assoc.
Qed.

Lemma expand_each_zero (static_fields : dict bool) (rf : list pystr)
    (conversations : list conversation) :
  forall acc st,
    expand_each chat conversations 0 static_fields rf acc st = (inr acc, st).
Proof.
  induction conversations as [|c rest IH]; intros acc st; simpl; [reflexivity|].
  unfold bind, ret. apply IH.
Qed.

Lemma collect_missing_from (rf : list pystr) (before after : conversation)
    (t : turn) :
  Forall canonical before -> get t k_from = None ->
  forall rv,
    collect_reference_values (before ++ t :: after) rf rv
    = inl (KeyError k_from).
Proof.
  intros Hb Ht. induction Hb as [|b before Hbc _ IH]; intros rv; simpl.
  - unfold getitem. now rewrite Ht.
  - destruct (canonical_items b Hbc) as (source & value & Hf & Hv).
    unfold getitem. rewrite Hf, Hv. destruct (mem source rf); apply IH.
Qed.

Lemma collect_last_wins (rf : list pystr) (turns : conversation) :
  Forall canonical turns ->
  forall rv, exists rv',
    collect_reference_values turns rf rv = inr rv' /\
    forall role,
      get rv' role =
      match (if mem role rf then last_value_of role turns else None) with
      | Some v => Some v
      | None => get rv role
      end.
Proof.
  induction 1 as [|t rest Ht _ IH]; intros rv; simpl.
  - exists rv. split; [reflexivity|]. intros role. now destruct (mem role rf).
  - destruct (canonical_items t Ht) as (source & value & Hf & Hv).
    unfold getitem. rewrite Hf, Hv, (item_get _ _ _ Hf).
    destruct (mem source rf) eqn:Es.
    + destruct (IH (set rv source value)) as (rv' & E & Hget).
      exists rv'. split; [exact E|]. intros role. rewrite Hget.
      destruct (mem role rf) eqn:Er; [|destruct (eqb source role) eqn:Eq].
      * destruct (last_value_of role rest); [reflexivity|].
        destruct (eqb source role) eqn:Eq.
        -- apply eqb_eq in Eq. subst. apply get_set_same.
        -- apply eqb_neq in Eq. now apply get_set_other.
      * apply eqb_eq in Eq. subst. congruence.
      * apply eqb_neq in Eq. now apply get_set_other.
    + destruct (IH rv) as (rv' & E & Hget).
      exists rv'. split; [exact E|]. intros role. rewrite Hget.
      destruct (mem role rf) eqn:Er; [|reflexivity].
      destruct (last_value_of role rest); [reflexivity|].
      destruct (eqb source role) eqn:Eq; [|reflexivity].
      apply eqb_eq in Eq. subst. congruence.
Qed.

Lemma expand_each_app (static_fields : dict bool) (rf : list pystr) (n : nat)
    (first rest : list conversation) :
  forall acc st,
    expand_each chat (first ++ rest) n static_fields rf acc st =
    match expand_each chat first n static_fields rf acc st with
    | (inl e, st') => (inl e, st')
    | (inr acc', st') => expand_each chat rest n static_fields rf acc' st'
    end.
Proof.
  induction first as [|c first IH]; intros acc st; [reflexivity|].
  cbn [app expand_each]. unfold bind.
  destruct (expand_repeat chat n static_fields rf c acc st) as [[e|acc'] st'];
    [reflexivity | apply IH].
Qed.

Lemma clean_nonblank (text : pystr) (q : bool) (out : pystr) :
  clean_generated_content text q = inr out -> strip out <> [].
Proof.
  intros H.
  destruct (strip_ends (strip_chars [DQUOTE; SQUOTE]
              (remove_placeholders (strip_trailer (strip_lead_in text lead_ins)))))
    as [S1 S2].
  destruct (capitalize_ends _ S1 S2) as (C1 & C2 & C3 & _).
  destruct (end_punctuation_shape _ q out C1 C2 C3 H) as (E & _ & r & c & -> & _).
  rewrite E. now destruct r.
Qed.

End Backend.

(** X8.  Whenever the verification call returns, the text that
    [verify_paraphrase] hands back ends in ['?'] if [is_question] holds and
    does not end in ['?'] otherwise. *)
Theorem verify_paraphrase_mark {St : Type}
    (chat : request -> St -> option pystr * St)
    (original paraphrased : pystr) (reference : dict pystr) (is_question : bool)
    (st st' : St) (content : pystr) :
  chat (VerifyRequest original paraphrased reference is_question) st
    = (Some content, st') ->
  endswith (fst (verify_paraphrase chat original paraphrased reference
                   is_question st)) (py "?") = is_question.
Proof.
  intros H. unfold verify_paraphrase. rewrite H.
  destruct is_question; cbn [andb negb fst].
  - destruct (endswith (strip content) (py "?")) eqn:E; cbn [negb]; [exact E|].
    apply endswith_app.
  - destruct (endswith (strip content) (py "?")) eqn:E; [|exact E].
    change (py ".") with [ch "."]. change (py "?") with [ch "?"].
    now rewrite endswith_snoc.
Qed.

Lemma verify_paraphrase_mark_witness :
  endswith (fst (verify_paraphrase stub_chat (py "X is Y.") (py "Y is X.") []
                   true tt)) (py "?") = true.
Proof.
  apply (verify_paraphrase_mark stub_chat (py "X is Y.") (py "Y is X.") [] true
           tt tt (py "Y is X, restated.")).
  reflexivity.
Defined.

(** X9.  When the policy maps the role of every turn to [True], the
    expansion is plain replication: every conversation is returned
    [expansion_factor] times, unchanged, and the backend is never called. *)
Theorem expand_all_static {St : Type}
    (chat : request -> St -> option pystr * St)
    (conversations : list conversation) (N : Z) (static_fields : dict bool)
    (reference_fields : option (list pystr)) (st : St) :
  Forall (Forall (static_turn static_fields)) conversations ->
  expand_conversation_dataset chat conversations N (Some static_fields)
    reference_fields st
  = (inr (flat_map (fun c => repeat c (Z.to_nat N)) conversations), st).
Proof.
  intros H. unfold expand_conversation_dataset. cbn [static_or_default].
  now rewrite expand_each_static.
Qed.

Lemma expand_all_static_witness :
  expand_conversation_dataset down_chat [sample_conversation] 2
    (Some all_static) None tt
  = (inr (flat_map (fun c => repeat c (Z.to_nat 2)) [sample_conversation]), tt).
Proof.
  apply (expand_all_static down_chat [sample_conversation] 2 all_static None tt).
  repeat constructor.
Defined.

(** X10.  With an [expansion_factor] of zero or less nothing is expanded:
    the result is the empty list and the backend is not called, whatever
    the conversations are. *)
Theorem expand_nonpositive_factor {St : Type}
    (chat : request -> St -> option pystr * St)
    (conversations : list conversation) (N : Z)
    (static_fields : option (dict bool))
    (reference_fields : option (list pystr)) (st : St) :
  N <= 0 ->
  expand_conversation_dataset chat conversations N static_fields
    reference_fields st = (inr [], st).
Proof.
  intros H. unfold expand_conversation_dataset.
  replace (Z.to_nat N) with 0%nat by lia. apply expand_each_zero.
Qed.

Lemma expand_nonpositive_factor_witness :
  expand_conversation_dataset stub_chat [sample_conversation; [[]]] 0 None None tt
  = (inr [], tt).
Proof.
  apply (expand_nonpositive_factor stub_chat [sample_conversation; [[]]] 0
           None None tt).
  lia.
Defined.

(** X11.  A turn without a ['from'] key makes the whole call fail: for a
    positive [expansion_factor], when the conversations before it are well
    formed and so are the turns before it in its conversation,
    [expand_conversation_dataset] raises [KeyError('from')]; what was
    expanded up to there is not returned. *)
Theorem expand_missing_from_aborts {St : Type}
    (chat : request -> St -> option pystr * St)
    (done todo : list conversation) (before after : conversation) (t : turn)
    (N : Z) (static_fields : option (dict bool))
    (reference_fields : option (list pystr)) (st : St) :
  Forall (Forall canonical) done ->
  Forall canonical before ->
  get t k_from = None ->
  0 < N ->
  exists st',
    expand_conversation_dataset chat
      (done ++ (before ++ t :: after) :: todo) N static_fields
      reference_fields st
    = (inl (KeyError k_from), st').
Proof.
  intros Hdone Hbefore Ht HN. unfold expand_conversation_dataset.
  rewrite expand_each_app.
  destruct (expand_each_derived chat (static_or_default static_fields)
              (match reference_fields with Some l => l | None => [] end)
              (Z.to_nat N) done Hdone [] st) as (out & st1 & E & _).
  rewrite E. exists st1.
  destruct (Z.to_nat N) as [|n] eqn:En; [lia|].
  cbn [expand_each expand_repeat]. unfold bind, expand_variation, lift.
  now rewrite (collect_missing_from _ before after t Hbefore Ht).
Qed.

Lemma expand_missing_from_aborts_witness :
  exists st',
    expand_conversation_dataset stub_chat
      ([sample_conversation]
         ++ ([[(k_from, human); (k_value, py "Hi")]]
               ++ [(k_value, py "no role")] :: []) :: [])
      1 None None tt
    = (inl (KeyError k_from), st').
Proof.
  apply (expand_missing_from_aborts stub_chat [sample_conversation] []
           [[(k_from, human); (k_value, py "Hi")]] []
           [(k_value, py "no role")] 1 None None tt).
  - repeat constructor.
  - repeat constructor.
  - reflexivity.
  - lia.
Defined.

(** X12.  The reference values gathered for a conversation hold, for each
    role listed in [reference_fields] that occurs in it, the text of the
    last turn with that role, and nothing for any other role. *)
Theorem reference_values_last_wins (reference_fields : list pystr)
    (turns : conversation) :
  Forall canonical turns ->
  exists reference_values,
    collect_reference_values turns reference_fields [] = inr reference_values /\
    forall role,
      get reference_values role =
      if mem role reference_fields then last_value_of role turns else None.
Proof.
  intros H. destruct (collect_last_wins reference_fields turns H [])
    as (rv & E & Hget).
  exists rv. split; [exact E|]. intros role. rewrite Hget.
  destruct (mem role reference_fields); [|reflexivity].
  now destruct (last_value_of role turns).
Qed.

Lemma reference_values_last_wins_witness :
  exists reference_values,
    collect_reference_values
      (sample_conversation ++ [[(k_from, human); (k_value, py "And Z?")]])
      [human] [] = inr reference_values /\
    forall role,
      get reference_values role =
      if mem role [human]
      then last_value_of role
             (sample_conversation ++ [[(k_from, human); (k_value, py "And Z?")]])
      else None.
Proof.
  apply (reference_values_last_wins [human]
           (sample_conversation ++ [[(k_from, human); (k_value, py "And Z?")]])).
  repeat constructor.
Defined.

(** X13.  [paraphrase_text] returns a blank text as it is, without calling
    the backend, and never turns a text that is not blank into a blank one,
    whatever the backend answers. *)
Theorem paraphrase_keeps_substance {St : Type}
    (chat : request -> St -> option pystr * St)
    (text : pystr) (reference_values : dict pystr)
    (is_question : option bool) (st : St) :
  (strip text = [] ->
   paraphrase_text chat text reference_values is_question st = (text, st)) /\
  (strip text <> [] ->
   strip (fst (paraphrase_text chat text reference_values is_question st))
     <> []).
Proof.
  unfold paraphrase_text. split.
  - now intros ->.
  - intros H. destruct (strip text) as [|c r] eqn:E; [congruence|].
    destruct (chat _ st) as [[content|] st1]; [|cbn [fst]; congruence].
    destruct (verify_paraphrase chat text (strip content) reference_values _ st1)
      as [v st2].
    destruct (clean_generated_content v _) as [e|cleaned] eqn:Ec;
      cbn [fst]; [congruence|].
    eapply clean_nonblank; eauto.
Qed.

Lemma paraphrase_keeps_substance_witness :
  paraphrase_text stub_chat (py "   ") [] None tt = (py "   ", tt).
Proof.
  apply (proj1 (paraphrase_keeps_substance stub_chat (py "   ") [] None tt)).
  reflexivity.
Defined.

End ExpanderFacts.

(* ===================================================================== *)
(** ** More on [convert_conversations_to_dataframe] *)
(* ===================================================================== *)

Module PairedViewFacts.
Import Validator Expander PairedView.

(** The conversation human [q1], gpt [a1], human [q2], gpt [a2], ... *)
Definition alternating (qa : list (pystr * pystr)) : conversation :=
  flat_map (fun p => [ [(k_from, human); (k_value, fst p)];
                       [(k_from, gpt); (k_value, snd p)] ]) qa.

Definition row_of (p : pystr * pystr) : row :=
  mk_row fixed_instruction (fst p) (snd p).

Lemma alternating_canonical (qa : list (pystr * pystr)) :
  Forall canonical (alternating qa).
Proof.
  induction qa as [|p qa IH]; [constructor|].
  cbn [alternating flat_map app]. repeat constructor. exact IH.
Qed.

Lemma paired_rows_alternating (qa : list (pystr * pystr)) :
  paired_rows (alternating qa) = map row_of qa.
Proof.
  induction qa as [|p qa IH]; [reflexivity|].
  cbn [alternating flat_map app paired_rows map].
  fold (alternating qa). now rewrite IH.
Qed.

Lemma paired_rows_shifted (qa : list (pystr * pystr)) :
  forall t, item t k_from = gpt -> paired_rows (t :: alternating qa) = [].
Proof.
  induction qa as [|p qa IH]; intros t Ht; [reflexivity|].
  cbn [alternating flat_map app paired_rows]. fold (alternating qa).
  rewrite Ht. replace (eqb gpt human) with false by reflexivity.
  cbn [andb app]. now apply IH.
Qed.

(** X14.  A conversation that alternates human, gpt, human, gpt, ...
    gives one row per exchange, in order, the human text as [input] and the
    gpt text as [output].  The same conversation behind one leading gpt
    turn gives no row at all: every pair then starts with a gpt turn. *)
Theorem paired_view_alignment :
  (forall qas : list (list (pystr * pystr)),
     convert_conversations_to_dataframe (map alternating qas)
     = inr (flat_map (map row_of) qas)) /\
  (forall (greeting : pystr) (qa : list (pystr * pystr)),
     convert_conversations_to_dataframe
       [ [(k_from, gpt); (k_value, greeting)] :: alternating qa ]
     = inr []).
Proof.
  split.
  - intros qas. unfold convert_conversations_to_dataframe.
    rewrite conversations_loop_paired_rows.
    + cbn [app]. f_equal. induction qas as [|qa qas IH]; [reflexivity|].
      cbn [map flat_map]. now rewrite paired_rows_alternating, IH.
    + apply Forall_map. apply Forall_forall. intros qa _.
      apply alternating_canonical.
  - intros greeting qa. unfold convert_conversations_to_dataframe.
    rewrite conversations_loop_paired_rows.
    + cbn [flat_map app]. now rewrite paired_rows_shifted.
    + repeat constructor. apply alternating_canonical.
Qed.

End PairedViewFacts.

(* ===================================================================== *)
(** ** More on the line-delimited file *)
(* ===================================================================== *)

Module PersistenceFacts.
Import Validator Expander Json Persistence.

(** Strings of code points; surrogates may stand anywhere. *)
Definition valid_turn (t : turn) : Prop :=
  Forall (fun kv => code_points (fst kv) = true /\ code_points (snd kv) = true) t.

(** How a line of a text file may end. *)
Inductive eol : Type := LF | CRLF | CR_only.

Definition eol_text (e : eol) : pystr :=
  match e with
  | LF => [NL]
  | CRLF => [CR; NL]
  | CR_only => [CR]
  end.

(** A file of conversations, one per line, each line ended in its own way,
    the last possibly not ended at all. *)
Fixpoint lines_text (ended : list (conversation * eol))
    (unended : option conversation) : pystr :=
  match ended with
  | [] => match unended with Some c => dumps c | None => [] end
  | (c, e) :: rest => dumps c ++ eol_text e ++ lines_text rest unended
  end.

Definition conversations_of (ended : list (conversation * eol))
    (unended : option conversation) : list conversation :=
  map fst ended ++ match unended with Some c => [c] | None => [] end.

Lemma encode_dict_ascii (t : turn) :
  valid_turn t -> forallb printable (encode_dict t) = true.
Proof.
  intros Hwf. unfold encode_dict. cbn [forallb].
  rewrite forallb_app. cbn [forallb]. rewrite forallb_join; [reflexivity..|].
  apply Forall_map. eapply Forall_impl; [|exact Hwf].
  intros [k v] [Hk Hv]. unfold encode_item, encode_string. cbn [fst snd] in *.
  cbn [forallb app]. rewrite !forallb_app. cbn [forallb].
  rewrite !forallb_app. cbn [forallb].
  now rewrite !escape_printable by assumption.
Qed.

Lemma dumps_ascii (c : conversation) :
  Forall valid_turn c -> forallb printable (dumps c) = true.
Proof.
  intros Hwf. unfold dumps. cbn [forallb].
  rewrite forallb_app. cbn [forallb]. rewrite forallb_join; [reflexivity..|].
  apply Forall_map. eapply Forall_impl; [|exact Hwf].
  intros t. apply encode_dict_ascii.
Qed.

Lemma write_lines_app (cs : list conversation) :
  forall written, write_lines cs written = written ++ write_lines cs [].
Proof.
  induction cs as [|c cs IH]; intros written; cbn [write_lines].
  - now rewrite app_nil_r.
  - rewrite IH, (IH ([] ++ _)). cbn [app]. now rewrite <- app_assoc.
Qed.

Lemma written_lines (conversations : list conversation) :
  Forall (Forall valid_turn) conversations ->
  split_lines (write_lines conversations []) []
  = map (fun c => dumps c ++ [NL]) conversations /\
  forallb (fun ch => printable ch || N.eqb ch NL)
    (write_lines conversations []) = true.
Proof.
  induction 1 as [|c rest Hc _ [IH1 IH2]]; [split; reflexivity|].
  cbn [write_lines app]. rewrite write_lines_app. split.
  - rewrite <- app_assoc. cbn [app].
    rewrite (split_lines_printable _ (dumps_ascii c Hc)). cbn [app map].
    now rewrite IH1.
  - assert (Hd : forallb (fun ch => printable ch || N.eqb ch NL) (dumps c) = true).
    { pose proof (dumps_ascii c Hc) as Hp. rewrite forallb_forall in *.
      intros x Hx. now rewrite (Hp x Hx). }
    rewrite !forallb_app, IH2, Hd. reflexivity.
Qed.

(** X15.  The file that [save_conversations_to_jsonl] writes has exactly
    one line per conversation, in order, each the [json.dumps] text of its
    conversation followed by a newline, and holds nothing but ASCII
    characters between the space and the tilde and those newlines, whatever
    characters the conversations contain. *)
Theorem jsonl_file_shape (output_dir filename : pystr) (fs : filesystem)
    (conversations : list conversation) :
  Forall (Forall valid_turn) conversations ->
  exists text,
    get (snd (save_conversations_to_jsonl output_dir conversations filename fs))
        (fst (save_conversations_to_jsonl output_dir conversations filename fs))
    = Some text /\
    split_lines text [] = map (fun c => dumps c ++ [NL]) conversations /\
    forallb (fun ch => printable ch || N.eqb ch NL) text = true.
Proof.
  intros H. exists (write_lines conversations []).
  unfold save_conversations_to_jsonl. cbn [fst snd].
  split; [apply get_set_same | now apply written_lines].
Qed.

Lemma jsonl_file_shape_witness :
  exists text,
    get (snd (save_conversations_to_jsonl (py "out") surrogate_batch (py "b") []))
        (fst (save_conversations_to_jsonl (py "out") surrogate_batch (py "b") []))
    = Some text /\
    split_lines text [] = map (fun c => dumps c ++ [NL]) surrogate_batch /\
    forallb (fun ch => printable ch || N.eqb ch NL) text = true.
Proof.
  apply (jsonl_file_shape (py "out") (py "b") [] surrogate_batch).
  repeat constructor.
Defined.





Lemma split_lines_run (line : pystr) :
  forallb printable line = true ->
  forall current tail,
    split_lines (line ++ tail) current = split_lines tail (current ++ line).
Proof.
  induction line as [|c line IH]; intros Hp current tail.
  - now rewrite app_nil_r.
  - cbn [forallb] in Hp. apply andb_true_iff in Hp as [Hc Hp].
    unfold printable in Hc. apply andb_true_iff in Hc as [Hc _].
    apply N.leb_le in Hc. cbn [app split_lines].
    replace (N.eqb c NL) with false
      by (symmetry; apply N.eqb_neq; unfold NL; lia).
    replace (N.eqb c CR) with false
      by (symmetry; apply N.eqb_neq; unfold CR; lia).
    rewrite (IH Hp). now rewrite <- app_assoc.
Qed.

Lemma lines_text_head (ended : list (conversation * eol))
    (unended : option conversation) :
  lines_text ended unended = [] \/
  exists tail, lines_text ended unended = LBRACKET :: tail.
Proof.
  destruct ended as [|[c e] rest]; cbn [lines_text].
  - destruct unended as [c|]; [right | now left]. unfold dumps. eauto.
  - right. unfold dumps. cbn [app]. eauto.
Qed.

Lemma strip_dumps (c : conversation) : strip (dumps c) = dumps c.
Proof.
  unfold dumps, strip, strip_by. cbn [lstrip_by].
  replace (isspace LBRACKET) with false by reflexivity.
  change (LBRACKET :: join [COMMA; SPACE] (map encode_dict c) ++ [RBRACKET])
    with ((LBRACKET :: join [COMMA; SPACE] (map encode_dict c)) ++ [RBRACKET]).
  now apply rstrip_by_keep.
Qed.

Lemma split_lines_text (ended : list (conversation * eol))
    (unended : option conversation) :
  Forall (fun ce => wf_conversation (fst ce)) ended ->
  match unended with Some c => wf_conversation c | None => True end ->
  forall read,
    read_lines (split_lines (lines_text ended unended) []) read
    = inr (read ++ conversations_of ended unended).
Proof.
  intros Hended Hun. induction Hended as [|[c e] rest Hc _ IH]; intros read.
  - cbn [lines_text conversations_of map app].
    destruct unended as [c|]; [|cbn; now rewrite app_nil_r].
    rewrite <- (app_nil_r (dumps c)) at 1.
    rewrite (split_lines_run _ (dumps_printable c Hun)). cbn [app].
    assert (Hl : split_lines [] (dumps c) = [dumps c])
      by (unfold dumps; reflexivity).
    rewrite Hl. cbn [read_lines]. now rewrite strip_dumps, (loads_dumps c Hun).
  - cbn [fst] in Hc. cbn [lines_text].
    rewrite (split_lines_run _ (dumps_printable c Hc)). cbn [app].
    assert (Hline : split_lines (eol_text e ++ lines_text rest unended) (dumps c)
                    = (dumps c ++ [NL])
                        :: split_lines (lines_text rest unended) []).
    { destruct e; cbn [eol_text app split_lines]; try reflexivity.
      replace (N.eqb CR NL) with false by reflexivity.
      replace (N.eqb CR CR) with true by reflexivity.
      destruct (lines_text_head rest unended) as [E|(tail & E)]; rewrite E.
      - reflexivity.
      - now replace (N.eqb LBRACKET NL) with false by reflexivity. }
    rewrite Hline. cbn [read_lines].
    rewrite strip_dumps_line, (loads_dumps c Hc), IH.
    unfold conversations_of. cbn [map fst app]. now rewrite <- app_assoc.
Qed.

(** X17.  [load_conversations_from_jsonl] reads a file of [json.dumps]
    lines whether a line ends in ['\n'], ['\r\n'] or ['\r'], and whether or
    not the last line is ended: it returns the conversations of the lines,
    in order.  The conversations are such as [json] gives back unchanged:
    none of their strings holds a high surrogate directly followed by a low
    one. *)
Theorem load_tolerates_line_ends (file_path : pystr) (fs : filesystem)
    (ended : list (conversation * eol)) (unended : option conversation) :
  Forall (fun ce => wf_conversation (fst ce)) ended ->
  match unended with Some c => wf_conversation c | None => True end ->
  get fs file_path = Some (lines_text ended unended) ->
  load_conversations_from_jsonl file_path fs
  = inr (conversations_of ended unended).
Proof.
  intros H1 H2 H. unfold load_conversations_from_jsonl. rewrite H.
  now rewrite (split_lines_text ended unended H1 H2 []).
Qed.

Lemma load_tolerates_line_ends_witness :
  load_conversations_from_jsonl (py "f")
    [(py "f", lines_text [([], CRLF); ([], CR_only); ([], LF)] (Some []))]
  = inr (conversations_of [([], CRLF); ([], CR_only); ([], LF)] (Some [])).
Proof.
  apply (load_tolerates_line_ends (py "f") _
           [([], CRLF); ([], CR_only); ([], LF)] (Some [])).
  - repeat constructor.
  - constructor.
  - reflexivity.
Defined.

End PersistenceFacts.

(* ===================================================================== *)
(** ** [save_conversations_to_parquet] and [convert_to_multi_format] *)
(* ===================================================================== *)

Module MultiFormat.
Import Validator Expander PairedView Json Persistence.

(** One record of the table written to the Parquet file. *)
Record parquet_record : Type := mk_record {
  conversation_id : Z;
  conversation_json : pystr
}.

(** The [for i, conversation in enumerate(conversations)] loop of
    [save_conversations_to_parquet], from index [i] on, with [data] as
    built so far. *)
Fixpoint parquet_data (conversations : list conversation) (i : Z)
    (data : list parquet_record) : list parquet_record :=
  match conversations with
  | [] => data
  | c :: rest => parquet_data rest (i + 1) (data ++ [mk_record i (dumps c)])
  end.

(** What [convert_to_multi_format] stores under a format name: a path, or
    the data frame itself. *)
Inductive output : Type :=
| Path (p : pystr)
| Frame (df : list row).

Definition f_jsonl := py "jsonl".
Definition f_parquet := py "parquet".
Definition f_csv := py "csv".
Definition f_df := py "df".

Section Writers.

(** What pandas writes for a table: the bytes of [df.to_parquet] and the
    text of [df.to_csv(index=False)]. *)
Variable to_parquet : list parquet_record -> pystr.
Variable to_csv : list row -> pystr.

Definition save_conversations_to_parquet (output_dir : pystr)
    (conversations : list conversation) (filename : pystr) (fs : filesystem)
    : pystr * filesystem :=
  let data := parquet_data conversations 0 [] in
  let output_path := os_path_join output_dir (filename ++ py ".parquet") in
  (output_path, set fs output_path (to_parquet data)).

(** Lines 418-426: the data frame, and the CSV file if asked for. *)
Definition frame_formats (output_dir : pystr)
    (conversations : list conversation) (base_filename : pystr)
    (formats : list pystr) (output_files : dict output) (fs : filesystem)
    : (exn + dict output) * filesystem :=
  if mem f_df formats || mem f_csv formats then
    match convert_conversations_to_dataframe conversations with
    | inl e => (inl e, fs)
    | inr df =>
        let output_files := set output_files f_df (Frame df) in
        if mem f_csv formats then
          let csv_path := os_path_join output_dir (base_filename ++ py ".csv") in
          (inr (set output_files f_csv (Path csv_path)),
           set fs csv_path (to_csv df))
        else (inr output_files, fs)
    end
  else (inr output_files, fs).

Definition convert_to_multi_format (output_dir : pystr)
    (conversations : list conversation) (base_filename : pystr)
    (formats : list pystr) (fs : filesystem)
    : (exn + dict output) * filesystem :=
  let output_files : dict output := [] in
  let (output_files, fs) :=
    if mem f_jsonl formats then
      let (path, fs') :=
        save_conversations_to_jsonl output_dir conversations base_filename fs in
      (set output_files f_jsonl (Path path), fs')
    else (output_files, fs) in
  let (output_files, fs) :=
    if mem f_parquet formats then
      let (path, fs') :=
        save_conversations_to_parquet output_dir conversations base_filename fs in
      (set output_files f_parquet (Path path), fs')
    else (output_files, fs) in
  frame_formats output_dir conversations base_filename formats output_files fs.

End Writers.

(** The files [convert_to_multi_format] may write. *)
Definition jsonl_path (output_dir base : pystr) : pystr :=
  os_path_join output_dir (base ++ py ".jsonl").
Definition parquet_path (output_dir base : pystr) : pystr :=
  os_path_join output_dir (base ++ py ".parquet").
Definition csv_path (output_dir base : pystr) : pystr :=
  os_path_join output_dir (base ++ py ".csv").

(** The effect of [convert_to_multi_format] when the data frame can be
    built, format by format. *)
Definition files_after (to_parquet : list parquet_record -> pystr)
    (to_csv : list row -> pystr) (output_dir : pystr)
    (conversations : list conversation) (base : pystr) (formats : list pystr)
    (fs : filesystem) : filesystem :=
  let fs := if mem f_jsonl formats
            then set fs (jsonl_path output_dir base) (write_lines conversations [])
            else fs in
  let fs := if mem f_parquet formats
            then set fs (parquet_path output_dir base)
                   (to_parquet (parquet_data conversations 0 []))
            else fs in
  if mem f_csv formats
  then set fs (csv_path output_dir base)
         (to_csv (flat_map paired_rows conversations))
  else fs.

Definition outputs_after (output_dir : pystr)
    (conversations : list conversation) (base : pystr) (formats : list pystr)
    : dict output :=
  let out : dict output := [] in
  let out := if mem f_jsonl formats
             then set out f_jsonl (Path (jsonl_path output_dir base)) else out in
  let out := if mem f_parquet formats
             then set out f_parquet (Path (parquet_path output_dir base))
             else out in
  let out := if mem f_df formats || mem f_csv formats
             then set out f_df (Frame (flat_map paired_rows conversations))
             else out in
  if mem f_csv formats
  then set out f_csv (Path (csv_path output_dir base)) else out.

Lemma last_app_cons {A : Type} (l l' : list A) (x d : A) :
  last (l ++ x :: l') d = last (x :: l') d.
Proof.
  induction l as [|y l IH]; [reflexivity|].
  cbn [app]. rewrite <- IH. destruct (l ++ x :: l') eqn:E; [|reflexivity].
  destruct l; discriminate.
Qed.

Lemma os_path_join_suffix (a b : pystr) : exists pre, os_path_join a b = pre ++ b.
Proof.
  unfold os_path_join. destruct (startswith b (py "/")); [now exists []|].
  destruct (match a with [] => true | _ :: _ => endswith a (py "/") end).
  - now exists a.
  - exists (a ++ py "/"). now rewrite <- app_assoc.
Qed.

Lemma path_last (a base : pystr) (x : N) (ext : pystr) :
  last (os_path_join a (base ++ x :: ext)) 0%N = last (x :: ext) 0%N.
Proof.
  destruct (os_path_join_suffix a (base ++ x :: ext)) as (pre & ->).
  rewrite app_assoc. apply last_app_cons.
Qed.

Lemma paths_distinct (output_dir base : pystr) :
  jsonl_path output_dir base <> parquet_path output_dir base /\
  jsonl_path output_dir base <> csv_path output_dir base /\
  parquet_path output_dir base <> csv_path output_dir base.
Proof.
  unfold jsonl_path, parquet_path, csv_path.
  repeat split; intros H; apply (f_equal (fun p => last p 0%N)) in H;
    change (py ".jsonl") with (46%N :: py "jsonl") in H;
    change (py ".parquet") with (46%N :: py "parquet") in H;
    change (py ".csv") with (46%N :: py "csv") in H;
    rewrite !path_last in H; vm_compute in H; discriminate.
Qed.

Lemma parquet_data_ids (conversations : list conversation) :
  forall i data,
    map conversation_id (parquet_data conversations i data)
    = map conversation_id data
        ++ map (fun k => i + Z.of_nat k) (seq 0 (length conversations)).
Proof.
  induction conversations as [|c rest IH]; intros i data; cbn [parquet_data].
  - cbn. now rewrite app_nil_r.
  - rewrite IH, map_app, <- app_assoc. cbn [map conversation_id app length seq].
    rewrite Z.add_0_r. do 2 f_equal.
    rewrite <- seq_shift, map_map. apply map_ext. intros k. lia.
Qed.

Lemma parquet_data_jsons (conversations : list conversation) :
  forall i data,
    map conversation_json (parquet_data conversations i data)
    = map conversation_json data ++ map dumps conversations.
Proof.
  induction conversations as [|c rest IH]; intros i data; cbn [parquet_data].
  - cbn. now rewrite app_nil_r.
  - rewrite IH, map_app, <- app_assoc. reflexivity.
Qed.

Lemma contains_set {V : Type} (d : dict V) (k k' : pystr) (v : V) :
  contains (set d k v) k' = eqb k k' || contains d k'.
Proof.
  unfold contains. destruct (eqb k k') eqn:E.
  - apply eqb_eq in E. subst. now rewrite get_set_same.
  - apply eqb_neq in E. now rewrite get_set_other.
Qed.

Lemma convert_to_multi_format_effects
    (to_parquet : list parquet_record -> pystr) (to_csv : list row -> pystr)
    (output_dir : pystr) (conversations : list conversation) (base : pystr)
    (formats : list pystr) (fs : filesystem) :
  Forall (Forall canonical) conversations ->
  convert_to_multi_format to_parquet to_csv output_dir conversations base
    formats fs
  = (inr (outputs_after output_dir conversations base formats),
     files_after to_parquet to_csv output_dir conversations base formats fs).
Proof.
  intros Hc.
  unfold convert_to_multi_format, frame_formats, outputs_after, files_after,
    save_conversations_to_jsonl, save_conversations_to_parquet,
    convert_conversations_to_dataframe, jsonl_path, parquet_path, csv_path.
  rewrite (conversations_loop_paired_rows conversations Hc []). cbn [app].
  destruct (mem f_jsonl formats), (mem f_parquet formats),
    (mem f_df formats), (mem f_csv formats); reflexivity.
Qed.

(** X18.  The table that [save_conversations_to_parquet] hands to pandas
    has one record per conversation, numbered 0, 1, 2, ... in batch order.
    For conversations none of whose strings holds a high surrogate directly
    followed by a low one, the [conversation] column of a record decodes, by
    [json.loads], to the conversation it was made from. *)
Theorem parquet_records (conversations : list conversation) :
  map conversation_id (parquet_data conversations 0 [])
    = map Z.of_nat (seq 0 (length conversations)) /\
  (Forall wf_conversation conversations ->
   map (fun r => loads (conversation_json r)) (parquet_data conversations 0 [])
     = map Some conversations).
Proof.
  split.
  - rewrite parquet_data_ids. cbn [map app]. apply map_ext. intros k. lia.
  - intros H. rewrite <- (map_map conversation_json loads).
    rewrite parquet_data_jsons. cbn [map app]. rewrite map_map.
    induction H as [|c rest Hc _ IH]; [reflexivity|].
    cbn [map]. now rewrite (loads_dumps c Hc), IH.
Qed.

Lemma parquet_records_witness :
  map (fun r => loads (conversation_json r))
    (parquet_data [sample_conversation; []] 0 [])
  = map Some [sample_conversation; []].
Proof.
  apply (proj2 (parquet_records [sample_conversation; []])).
  repeat constructor; simpl; intuition discriminate.
Defined.

(** X19.  Let the turns of the batch have both canonical keys, and let
    none of its strings hold a high surrogate directly followed by a low
    one.  When ['jsonl'] is among the formats, the path that
    [convert_to_multi_format] returns under ['jsonl'] names a file that
    [load_conversations_from_jsonl] reads back as the batch itself: the
    Parquet and CSV files written afterwards go to other paths and leave it
    alone. *)
Theorem multi_format_jsonl_round_trip
    (to_parquet : list parquet_record -> pystr) (to_csv : list row -> pystr)
    (output_dir : pystr) (conversations : list conversation) (base : pystr)
    (formats : list pystr) (fs : filesystem) :
  Forall (Forall canonical) conversations ->
  Forall wf_conversation conversations ->
  mem f_jsonl formats = true ->
  exists output_files fs' path,
    convert_to_multi_format to_parquet to_csv output_dir conversations base
      formats fs = (inr output_files, fs') /\
    get output_files f_jsonl = Some (Path path) /\
    load_conversations_from_jsonl path fs' = inr conversations.
Proof.
  intros Hc Hwf Hj. rewrite convert_to_multi_format_effects by exact Hc.
  do 2 eexists. exists (jsonl_path output_dir base).
  split; [reflexivity|]. split.
  - unfold outputs_after. rewrite Hj.
    destruct (mem f_parquet formats), (mem f_df formats), (mem f_csv formats);
      reflexivity.
  - destruct (paths_distinct output_dir base) as (D1 & D2 & D3).
    assert (Hfile : get (files_after to_parquet to_csv output_dir conversations
                           base formats fs) (jsonl_path output_dir base)
                    = Some (write_lines conversations [])).
    { unfold files_after. rewrite Hj.
      destruct (mem f_parquet formats), (mem f_csv formats);
        repeat rewrite get_set_other by congruence; apply get_set_same. }
    unfold load_conversations_from_jsonl. rewrite Hfile.
    now rewrite (read_written_lines conversations Hwf []).
Qed.

Lemma multi_format_jsonl_round_trip_witness :
  exists output_files fs' path,
    convert_to_multi_format (fun _ => py "PAR1") (fun _ => py "csv")
      (py "./out") [sample_conversation] (py "batch")
      [f_jsonl; f_parquet; f_csv; f_df] []
    = (inr output_files, fs') /\
    get output_files f_jsonl = Some (Path path) /\
    load_conversations_from_jsonl path fs' = inr [sample_conversation].
Proof.
  apply (multi_format_jsonl_round_trip (fun _ => py "PAR1") (fun _ => py "csv")
           (py "./out") [sample_conversation] (py "batch")
           [f_jsonl; f_parquet; f_csv; f_df] []).
  - repeat constructor.
  - repeat constructor; simpl; intuition discriminate.
  - reflexivity.
Defined.

(** X20.  For conversations whose turns have both keys, the dictionary
    that [convert_to_multi_format] returns has the key ['jsonl'] exactly
    when ['jsonl'] was asked for, ['parquet'] exactly when ['parquet'] was,
    ['csv'] exactly when ['csv'] was, and ['df'] when ['df'] or ['csv'] was
    asked for; it has no other key, whatever else [formats] lists. *)
Theorem multi_format_keys
    (to_parquet : list parquet_record -> pystr) (to_csv : list row -> pystr)
    (output_dir : pystr) (conversations : list conversation) (base : pystr)
    (formats : list pystr) (fs : filesystem) :
  Forall (Forall canonical) conversations ->
  exists output_files fs',
    convert_to_multi_format to_parquet to_csv output_dir conversations base
      formats fs = (inr output_files, fs') /\
    contains output_files f_jsonl = mem f_jsonl formats /\
    contains output_files f_parquet = mem f_parquet formats /\
    contains output_files f_csv = mem f_csv formats /\
    contains output_files f_df = (mem f_df formats || mem f_csv formats) /\
    forall k, contains output_files k = true ->
              k = f_jsonl \/ k = f_parquet \/ k = f_df \/ k = f_csv.
Proof.
  intros Hc. rewrite convert_to_multi_format_effects by exact Hc.
  do 2 eexists. split; [reflexivity|]. unfold outputs_after.
  destruct (mem f_jsonl formats), (mem f_parquet formats),
    (mem f_df formats), (mem f_csv formats); cbn [orb];
    (repeat split; try reflexivity; intros k Hk;
     repeat (rewrite contains_set in Hk;
             apply orb_true_iff in Hk as [Hk|Hk];
             [apply eqb_eq in Hk; subst; tauto|]);
     discriminate).
Qed.

Lemma multi_format_keys_witness :
  exists output_files fs',
    convert_to_multi_format (fun _ => py "PAR1") (fun _ => py "csv")
      (py "./out") [sample_conversation] (py "batch") [f_csv] []
    = (inr output_files, fs') /\
    contains output_files f_jsonl = mem f_jsonl [f_csv] /\
    contains output_files f_parquet = mem f_parquet [f_csv] /\
    contains output_files f_csv = mem f_csv [f_csv] /\
    contains output_files f_df = (mem f_df [f_csv] || mem f_csv [f_csv]) /\
    forall k, contains output_files k = true ->
              k = f_jsonl \/ k = f_parquet \/ k = f_df \/ k = f_csv.
Proof.
  apply (multi_format_keys (fun _ => py "PAR1") (fun _ => py "csv")
           (py "./out") [sample_conversation] (py "batch") [f_csv] []).
  repeat constructor.
Defined.

(** X21.  When the data frame cannot be built, [convert_to_multi_format]
    raises what [convert_conversations_to_dataframe] raised and returns no
    dictionary, but the line-delimited file and the Parquet file it was
    asked for are written by then and stay. *)
Theorem multi_format_error_after_writes
    (to_parquet : list parquet_record -> pystr) (to_csv : list row -> pystr)
    (output_dir : pystr) (conversations : list conversation) (base : pystr)
    (formats : list pystr) (fs : filesystem) (e : exn) :
  mem f_df formats || mem f_csv formats = true ->
  convert_conversations_to_dataframe conversations = inl e ->
  exists fs',
    convert_to_multi_format to_parquet to_csv output_dir conversations base
      formats fs = (inl e, fs') /\
    (mem f_jsonl formats = true ->
     get fs' (jsonl_path output_dir base) = Some (write_lines conversations [])) /\
    (mem f_parquet formats = true ->
     get fs' (parquet_path output_dir base)
     = Some (to_parquet (parquet_data conversations 0 []))).
Proof.
  intros Hf He. destruct (paths_distinct output_dir base) as (D1 & D2 & D3).
  unfold convert_to_multi_format, frame_formats, save_conversations_to_jsonl,
    save_conversations_to_parquet.
  fold (jsonl_path output_dir base). fold (parquet_path output_dir base).
  rewrite Hf, He.
  destruct (mem f_jsonl formats), (mem f_parquet formats);
    eexists; (split; [reflexivity|]); split; intros H; try discriminate;
    repeat rewrite get_set_other by congruence; apply get_set_same.
Qed.

Lemma multi_format_error_after_writes_witness :
  exists fs',
    convert_to_multi_format (fun _ => py "PAR1") (fun _ => py "csv")
      (py "./out") [[[(k_value, py "a")]; [(k_value, py "b")]]] (py "batch")
      [f_jsonl; f_df] []
    = (inl (KeyError k_from), fs') /\
    (mem f_jsonl [f_jsonl; f_df] = true ->
     get fs' (jsonl_path (py "./out") (py "batch"))
     = Some (write_lines [[[(k_value, py "a")]; [(k_value, py "b")]]] [])) /\
    (mem f_parquet [f_jsonl; f_df] = true ->
     get fs' (parquet_path (py "./out") (py "batch"))
     = Some (py "PAR1")).
Proof.
  apply (multi_format_error_after_writes (fun _ => py "PAR1") (fun _ => py "csv")
           (py "./out") [[[(k_value, py "a")]; [(k_value, py "b")]]] (py "batch")
           [f_jsonl; f_df] [] (KeyError k_from)).
  - reflexivity.
  - reflexivity.
Defined.

End MultiFormat.
